(** * UEDGE [pylib/change_geometry.py]: half-domain to double-null reflection

    A shallow embedding of [dnbot_to_dnull] and of its local helper
    [reflect_centred], followed by the properties of the reflected fields
    and of the solver state the conversion leaves behind.
    The plotting routine [plotvar] of [pylib/plotvar.py] is embedded after
    the conversion, with the properties of the polygons and values it
    hands to matplotlib.

    Field values are IEEE doubles in the program.  The conversion only
    copies them, negates them and multiplies two scalars by two; these
    operations are exact, so values are modelled by rationals ([Q]).
    Mesh sizes are Python integers and are modelled by [Z]. *)

From Stdlib Require Import ZArith QArith Lia.
From stdpp Require Import base list strings.

Local Open Scope Z_scope.

(** ** Python / numpy indexing along the first axis *)

Module Np.

(** [slice.indices] for a step of one: a negative bound counts from the
    end, and both bounds are clipped to [0, len]. *)
Definition adjust (len i : Z) : Z :=
  if i <? 0 then Z.max (i + len) 0 else Z.min i len.

Definition slice_start (len : Z) (start : option Z) : Z :=
  match start with None => 0 | Some i => adjust len i end.

Definition slice_stop (len : Z) (stop : option Z) : Z :=
  match stop with None => len | Some i => adjust len i end.

(** First selected position and number of selected positions. *)
Definition slice_bounds (len : nat) (start stop : option Z) : nat * nat :=
  let lo := slice_start (Z.of_nat len) start in
  let hi := slice_stop (Z.of_nat len) stop in
  (Z.to_nat lo, Z.to_nat (hi - lo)).

(** The [cnt] elements from position [lo] on, and their replacement. *)
Definition window {A} (lo cnt : nat) (xs : list A) : list A :=
  take cnt (drop lo xs).

Definition splice {A} (lo cnt : nat) (r xs : list A) : list A :=
  take lo xs ++ r ++ drop (lo + cnt) xs.

(** [xs[start:stop]] *)
Definition getslice {A} (start stop : option Z) (xs : list A) : list A :=
  let '(lo, cnt) := slice_bounds (length xs) start stop in
  window lo cnt xs.

(** Broadcasting of the right-hand side along the first axis: the extents
    agree, or the source has extent one and is repeated. *)
Definition broadcast_rows {A} (cnt : nat) (rhs : list A) : option (list A) :=
  if (length rhs =? cnt)%nat then Some rhs
  else match rhs with
       | [x] => Some (replicate cnt x)
       | _ => None
       end.

(** [xs[start:stop] = rhs]; [None] is numpy's ValueError
    (could not broadcast input array). *)
Definition setslice {A} (start stop : option Z) (rhs : list A) (xs : list A)
  : option (list A) :=
  let '(lo, cnt) := slice_bounds (length xs) start stop in
  match broadcast_rows cnt rhs with
  | Some r => Some (splice lo cnt r xs)
  | None => None
  end.

(** Integer index: negative indices wrap once, anything else out of
    range is an IndexError ([None]). *)
Definition index (len : nat) (i : Z) : option nat :=
  let j := if i <? 0 then i + Z.of_nat len else i in
  if (0 <=? j) && (j <? Z.of_nat len) then Some (Z.to_nat j) else None.

(** [xs[i]] *)
Definition getitem {A} (i : Z) (xs : list A) : option A :=
  match index (length xs) i with
  | Some k => xs !! k
  | None => None
  end.

(** [xs[i] = x] *)
Definition setitem {A} (i : Z) (x : A) (xs : list A) : option (list A) :=
  match index (length xs) i with
  | Some k => Some (<[k := x]> xs)
  | None => None
  end.

End Np.

(** ** Exceptions *)

Inductive exn : Set :=
  | AssertionError       (* a failed [assert] *)
  | ValueError           (* numpy: negative dimension, failed broadcast *)
  | IndexError           (* numpy: too many indices, index out of bounds *)
  | UnboundLocalError    (* a local variable used before assignment *)
  | SolverError.         (* anything raised inside [bbb.exmain()] *)

Inductive res (A : Type) : Type :=
  | Val (a : A)
  | Exc (e : exn).
Arguments Val {A} a.
Arguments Exc {A} e.

#[global] Instance res_ret : MRet res := fun A a => Val a.
#[global] Instance res_bind : MBind res := fun A B f m =>
  match m with Val a => f a | Exc e => Exc e end.

(** The exceptions numpy raises in this code. *)
Definition array_error (e : exn) : Prop := e = ValueError \/ e = IndexError.

Definition or_raise {A} (e : exn) (o : option A) : res A :=
  match o with Some a => Val a | None => Exc e end.

(** ** Arrays *)

(** The contents of one position of the first (poloidal) axis: what the
    trailing axes hold.  [zeros sh] is [np.zeros(sh)]. *)
Class Slab (A : Type) := zeros : list nat -> A.

#[global] Instance scalar_slab : Slab Q := fun _ => 0%Q.
#[global] Instance list_slab {A} `{Slab A} : Slab (list A) := fun sh =>
  match sh with
  | [] => []
  | d :: sh' => replicate d (zeros sh')
  end.

(** An array of at least one dimension: its rows along the first axis and
    the extents of the remaining axes ([shape[1:]]). *)
Record ndarray (A : Type) : Type := mk_ndarray {
  trailing : list nat;
  rows : list A
}.
Arguments mk_ndarray {A} trailing rows.
Arguments trailing {A} n.
Arguments rows {A} n.

Definition shape {A} (a : ndarray A) : list nat := length (rows a) :: trailing a.

(** [np.zeros((n,) + sh)] *)
Definition np_zeros {A} `{Slab A} (n : Z) (sh : list nat) : res (ndarray A) :=
  if n <? 0 then Exc ValueError
  else Val (mk_ndarray sh (replicate (Z.to_nat n) (zeros sh))).

(** [a[start:stop, :]] needs a second axis. *)
Definition rows_slice {A} (start stop : option Z) (a : ndarray A) : res (list A) :=
  match trailing a with
  | [] => Exc IndexError
  | _ :: _ => Val (Np.getslice start stop (rows a))
  end.

(** [a[start:stop, :] = rhs] where [rhs] has the trailing extents of [a]. *)
Definition rows_assign {A} (start stop : option Z) (rhs : list A) (a : ndarray A)
  : res (ndarray A) :=
  match trailing a with
  | [] => Exc IndexError
  | _ :: _ =>
      r ← or_raise ValueError (Np.setslice start stop rhs (rows a));
      Val (mk_ndarray (trailing a) r)
  end.

(** *** Three-dimensional arrays: [poloidal, radial, species]

    The flow field and the arrays built from it.  Their rows are lists of
    species lists, so the carrier is three-dimensional by construction; a
    value whose recorded shape says otherwise is rejected where numpy
    would complain about the number of indices. *)

Definition flow : Type := ndarray (list (list Q)).

(** [np.zeros((n, r, s))] *)
Definition flow_zeros (n r s : Z) : res flow :=
  if (n <? 0) || (r <? 0) || (s <? 0) then Exc ValueError
  else np_zeros n [Z.to_nat r; Z.to_nat s].

(** One poloidal row restricted to its first [nusp] species: [row[:, :nusp]]. *)
Definition crop (nusp : Z) (row : list (list Q)) : list (list Q) :=
  map (Np.getslice None (Some nusp)) row.

(** One poloidal row negated. *)
Definition negate (row : list (list Q)) : list (list Q) :=
  map (map Qopp) row.

(** [a[start:stop, :, :nusp]] *)
Definition flow_slice (start stop : option Z) (nusp : Z) (a : flow) : res flow :=
  match trailing a with
  | [r; s] =>
      Val (mk_ndarray [r; snd (Np.slice_bounds s None (Some nusp))]
             (map (crop nusp) (Np.getslice start stop (rows a))))
  | _ => Exc IndexError
  end.

(** [-a] *)
Definition flow_neg (a : flow) : flow :=
  mk_ndarray (trailing a) (map negate (rows a)).

(** [a[::-1, :, :]] *)
Definition flow_reverse (a : flow) : flow :=
  mk_ndarray (trailing a) (reverse (rows a)).

(** One axis of numpy's broadcasting rule. *)
Definition compatible (src dst : nat) : bool := (src =? dst)%nat || (src =? 1)%nat.

Definition stretch {A} (dst : nat) (xs : list A) : list A :=
  if (length xs =? dst)%nat then xs
  else match xs with
       | x :: _ => replicate dst x
       | [] => xs
       end.

(** A row of the source broadcast to [r] radial by [s] species entries. *)
Definition stretch_row (r s : nat) (row : list (list Q)) : list (list Q) :=
  stretch r (map (stretch s) row).

(** [a[start:stop, :, :] = rhs], with [rhs] broadcast to the selected
    block along every axis. *)
Definition flow_assign (start stop : option Z) (rhs a : flow) : res flow :=
  match trailing a, trailing rhs with
  | [r_dst; s_dst], [r; s] =>
      if compatible r r_dst && compatible s s_dst then
        rs ← or_raise ValueError
               (Np.setslice start stop
                  (map (stretch_row r_dst s_dst) (rows rhs))
                  (rows a));
        Val (mk_ndarray (trailing a) rs)
      else Exc ValueError
  | _, _ => Exc IndexError
  end.

(** [a[i, :, :]] *)
Definition flow_row (i : Z) (a : flow) : res (list (list Q)) :=
  match trailing a with
  | [_; _] => or_raise IndexError (Np.getitem i (rows a))
  | _ => Exc IndexError
  end.

(** [a[i, :, :] = row] for a row of the extents of [a]. *)
Definition flow_set_row (i : Z) (row : list (list Q)) (a : flow) : res flow :=
  match trailing a with
  | [_; _] =>
      rs ← or_raise IndexError (Np.setitem i row (rows a));
      Val (mk_ndarray (trailing a) rs)
  | _ => Exc IndexError
  end.

(** ** The index layout and the two reflections *)

Section Reflect.

(** Locals of [dnbot_to_dnull] captured by the code below. *)
Variables half_nx half_ny half_inner half_outer : Z.

Definition full_inner : Z := 2 * half_inner - 2.
Definition full_outer : Z := 2 * half_outer - 2.

(** [reflect_centred(lower_var)] *)
Definition reflect_centred {A} `{Slab A} (lower_var : ndarray A) : res (ndarray A) :=
  full_var ← np_zeros (2 * half_nx) (trailing lower_var);
  (* Lower inner *)
  v ← rows_slice None (Some half_inner) lower_var;
  full_var ← rows_assign None (Some half_inner) v full_var;
  (* Upper inner *)
  v ← rows_slice None (Some (half_inner - 1)) lower_var;
  full_var ← rows_assign (Some (half_inner - 1)) (Some (2 * half_inner - 2))
               (reverse v) full_var;
  (* Lower outer *)
  v ← rows_slice (Some (half_inner + 1)) None lower_var;
  full_var ← rows_assign (Some (full_inner + half_outer - 1)) None v full_var;
  (* Upper outer *)
  v ← rows_slice (Some (half_inner + 1)) None lower_var;
  full_var ← rows_assign (Some full_inner) (Some (full_inner + half_outer - 1))
               (reverse v) full_var;
  Val full_var.

(** The staggered parallel flow: the block of [dnbot_to_dnull] that
    builds the local [upss].  The block reads [bbb.ups] and [com.nusp]
    from the solver at every statement; it is written once, over the
    monad [M] that provides these reads, and used both by the
    conversion and, with constant reads, as a function of the two
    values ([reflect_staggered] below). *)
Section Staggered.
Context {M : Type -> Type} `{!MBind M, !MRet M}.
Variable lift : forall A, res A -> M A.
Variable bbb_ups_ : M flow.
Variable com_nusp_ : M Z.

Definition staggered_block : M flow :=
  nusp ← com_nusp_;
  upss ← lift _ (flow_zeros (2 * half_nx) (half_ny + 2) nusp);
  (* Lower inner *)
  ups ← bbb_ups_; nusp ← com_nusp_;
  v ← lift _ (flow_slice None (Some half_inner) nusp ups);
  upss ← lift _ (flow_assign None (Some half_inner) v upss);
  (* Upper inner, reversed sign *)
  ups ← bbb_ups_; nusp ← com_nusp_;
  v ← lift _ (flow_slice None (Some (half_inner - 1)) nusp ups);
  upss ← lift _ (flow_assign (Some (half_inner - 2)) (Some (2 * half_inner - 3))
                   (flow_reverse (flow_neg v)) upss);
  (* Lower outer *)
  ups ← bbb_ups_; nusp ← com_nusp_;
  v ← lift _ (flow_slice (Some (half_inner + 1)) None nusp ups);
  upss ← lift _ (flow_assign (Some (full_inner + half_outer - 1)) None v upss);
  (* Upper outer, reversed sign *)
  ups ← bbb_ups_; nusp ← com_nusp_;
  v ← lift _ (flow_slice (Some (half_inner + 1)) None nusp ups);
  upss ← lift _ (flow_assign (Some (full_inner - 1))
                   (Some (full_inner + half_outer - 2))
                   (flow_reverse (flow_neg v)) upss);
  (* Correct flow velocity in upper inner boundary cell *)
  v ← lift _ (flow_row (2 * half_inner - 4) upss);
  upss ← lift _ (flow_set_row (2 * half_inner - 3) v upss);
  mret upss.
End Staggered.

(** The block as a function of the flow field and the species count. *)
Definition reflect_staggered (ups : flow) (nusp : Z) : res flow :=
  staggered_block (fun _ r => r) (Val ups) (Val nusp).

(** The array [upss] as it stands before the boundary correction: the
    zero array with the four segment copies written, in the order of the
    code, as a function of the flow field and the species count. *)
Definition staggered_copies (ups : flow) (nusp : Z) : res flow :=
  upss ← flow_zeros (2 * half_nx) (half_ny + 2) nusp;
  (* Lower inner *)
  v ← flow_slice None (Some half_inner) nusp ups;
  upss ← flow_assign None (Some half_inner) v upss;
  (* Upper inner, reversed sign *)
  v ← flow_slice None (Some (half_inner - 1)) nusp ups;
  upss ← flow_assign (Some (half_inner - 2)) (Some (2 * half_inner - 3))
           (flow_reverse (flow_neg v)) upss;
  (* Lower outer *)
  v ← flow_slice (Some (half_inner + 1)) None nusp ups;
  upss ← flow_assign (Some (full_inner + half_outer - 1)) None v upss;
  (* Upper outer, reversed sign *)
  v ← flow_slice (Some (half_inner + 1)) None nusp ups;
  upss ← flow_assign (Some (full_inner - 1))
           (Some (full_inner + half_outer - 2))
           (flow_reverse (flow_neg v)) upss;
  Val upss.

End Reflect.

(** ** The solver's state

    The attributes of the packages [com] and [bbb] that the conversion
    reads or writes.  [com.geometry] is kept as the string [str()] makes of
    it; of the two-dimensional integer tables [com.nxleg] and [com.nxcore]
    only the entries [[0,0]] and [[0,1]] are kept, as a pair. *)

(** Two-dimensional arrays: [poloidal, radial]. *)
Definition plane : Type := ndarray (list Q).

Record solver : Type := mk_solver {
  com_geometry : string;
  com_nx : Z;
  com_ny : Z;
  com_nxleg : Z * Z;
  com_nxcore : Z * Z;
  com_nusp : Z;
  com_nxomit : Z;
  com_isudsym : Z;
  bbb_isfixlb : Z;
  bbb_restart : Z;
  bbb_newgeo : Z;
  bbb_icntnunk : Z;
  bbb_ftol : Q;
  bbb_dtreal : Q;
  bbb_isimpon : Z;
  bbb_iflcore : Z;
  bbb_pcoree : Q;
  bbb_pcorei : Q;
  bbb_nis : flow;
  bbb_ups : flow;
  bbb_tes : plane;
  bbb_tis : plane;
  bbb_ngs : flow;
  bbb_phis : plane;
  bbb_kye_use : plane;
  bbb_kyi_use : plane;
  bbb_dif_use : flow;
  bbb_afracs : plane
}.

(** Attribute assignment, one function per attribute the conversion writes. *)
Definition set_com_geometry (v : string) (s : solver) : solver :=
  mk_solver v (com_nx s) (com_ny s) (com_nxleg s) (com_nxcore s)
    (com_nusp s) (com_nxomit s) (com_isudsym s) (bbb_isfixlb s)
    (bbb_restart s) (bbb_newgeo s) (bbb_icntnunk s) (bbb_ftol s)
    (bbb_dtreal s) (bbb_isimpon s) (bbb_iflcore s) (bbb_pcoree s)
    (bbb_pcorei s) (bbb_nis s) (bbb_ups s) (bbb_tes s) (bbb_tis s)
    (bbb_ngs s) (bbb_phis s) (bbb_kye_use s) (bbb_kyi_use s) (bbb_dif_use s)
    (bbb_afracs s).
Definition set_com_nxomit (v : Z) (s : solver) : solver :=
  mk_solver (com_geometry s) (com_nx s) (com_ny s) (com_nxleg s)
    (com_nxcore s) (com_nusp s) v (com_isudsym s) (bbb_isfixlb s)
    (bbb_restart s) (bbb_newgeo s) (bbb_icntnunk s) (bbb_ftol s)
    (bbb_dtreal s) (bbb_isimpon s) (bbb_iflcore s) (bbb_pcoree s)
    (bbb_pcorei s) (bbb_nis s) (bbb_ups s) (bbb_tes s) (bbb_tis s)
    (bbb_ngs s) (bbb_phis s) (bbb_kye_use s) (bbb_kyi_use s) (bbb_dif_use s)
    (bbb_afracs s).
Definition set_com_isudsym (v : Z) (s : solver) : solver :=
  mk_solver (com_geometry s) (com_nx s) (com_ny s) (com_nxleg s)
    (com_nxcore s) (com_nusp s) (com_nxomit s) v (bbb_isfixlb s)
    (bbb_restart s) (bbb_newgeo s) (bbb_icntnunk s) (bbb_ftol s)
    (bbb_dtreal s) (bbb_isimpon s) (bbb_iflcore s) (bbb_pcoree s)
    (bbb_pcorei s) (bbb_nis s) (bbb_ups s) (bbb_tes s) (bbb_tis s)
    (bbb_ngs s) (bbb_phis s) (bbb_kye_use s) (bbb_kyi_use s) (bbb_dif_use s)
    (bbb_afracs s).
Definition set_bbb_isfixlb (v : Z) (s : solver) : solver :=
  mk_solver (com_geometry s) (com_nx s) (com_ny s) (com_nxleg s)
    (com_nxcore s) (com_nusp s) (com_nxomit s) (com_isudsym s) v
    (bbb_restart s) (bbb_newgeo s) (bbb_icntnunk s) (bbb_ftol s)
    (bbb_dtreal s) (bbb_isimpon s) (bbb_iflcore s) (bbb_pcoree s)
    (bbb_pcorei s) (bbb_nis s) (bbb_ups s) (bbb_tes s) (bbb_tis s)
    (bbb_ngs s) (bbb_phis s) (bbb_kye_use s) (bbb_kyi_use s) (bbb_dif_use s)
    (bbb_afracs s).
Definition set_bbb_restart (v : Z) (s : solver) : solver :=
  mk_solver (com_geometry s) (com_nx s) (com_ny s) (com_nxleg s)
    (com_nxcore s) (com_nusp s) (com_nxomit s) (com_isudsym s)
    (bbb_isfixlb s) v (bbb_newgeo s) (bbb_icntnunk s) (bbb_ftol s)
    (bbb_dtreal s) (bbb_isimpon s) (bbb_iflcore s) (bbb_pcoree s)
    (bbb_pcorei s) (bbb_nis s) (bbb_ups s) (bbb_tes s) (bbb_tis s)
    (bbb_ngs s) (bbb_phis s) (bbb_kye_use s) (bbb_kyi_use s) (bbb_dif_use s)
    (bbb_afracs s).
Definition set_bbb_newgeo (v : Z) (s : solver) : solver :=
  mk_solver (com_geometry s) (com_nx s) (com_ny s) (com_nxleg s)
    (com_nxcore s) (com_nusp s) (com_nxomit s) (com_isudsym s)
    (bbb_isfixlb s) (bbb_restart s) v (bbb_icntnunk s) (bbb_ftol s)
    (bbb_dtreal s) (bbb_isimpon s) (bbb_iflcore s) (bbb_pcoree s)
    (bbb_pcorei s) (bbb_nis s) (bbb_ups s) (bbb_tes s) (bbb_tis s)
    (bbb_ngs s) (bbb_phis s) (bbb_kye_use s) (bbb_kyi_use s) (bbb_dif_use s)
    (bbb_afracs s).
Definition set_bbb_icntnunk (v : Z) (s : solver) : solver :=
  mk_solver (com_geometry s) (com_nx s) (com_ny s) (com_nxleg s)
    (com_nxcore s) (com_nusp s) (com_nxomit s) (com_isudsym s)
    (bbb_isfixlb s) (bbb_restart s) (bbb_newgeo s) v (bbb_ftol s)
    (bbb_dtreal s) (bbb_isimpon s) (bbb_iflcore s) (bbb_pcoree s)
    (bbb_pcorei s) (bbb_nis s) (bbb_ups s) (bbb_tes s) (bbb_tis s)
    (bbb_ngs s) (bbb_phis s) (bbb_kye_use s) (bbb_kyi_use s) (bbb_dif_use s)
    (bbb_afracs s).
Definition set_bbb_ftol (v : Q) (s : solver) : solver :=
  mk_solver (com_geometry s) (com_nx s) (com_ny s) (com_nxleg s)
    (com_nxcore s) (com_nusp s) (com_nxomit s) (com_isudsym s)
    (bbb_isfixlb s) (bbb_restart s) (bbb_newgeo s) (bbb_icntnunk s) v
    (bbb_dtreal s) (bbb_isimpon s) (bbb_iflcore s) (bbb_pcoree s)
    (bbb_pcorei s) (bbb_nis s) (bbb_ups s) (bbb_tes s) (bbb_tis s)
    (bbb_ngs s) (bbb_phis s) (bbb_kye_use s) (bbb_kyi_use s) (bbb_dif_use s)
    (bbb_afracs s).
Definition set_bbb_dtreal (v : Q) (s : solver) : solver :=
  mk_solver (com_geometry s) (com_nx s) (com_ny s) (com_nxleg s)
    (com_nxcore s) (com_nusp s) (com_nxomit s) (com_isudsym s)
    (bbb_isfixlb s) (bbb_restart s) (bbb_newgeo s) (bbb_icntnunk s)
    (bbb_ftol s) v (bbb_isimpon s) (bbb_iflcore s) (bbb_pcoree s)
    (bbb_pcorei s) (bbb_nis s) (bbb_ups s) (bbb_tes s) (bbb_tis s)
    (bbb_ngs s) (bbb_phis s) (bbb_kye_use s) (bbb_kyi_use s) (bbb_dif_use s)
    (bbb_afracs s).
Definition set_bbb_pcoree (v : Q) (s : solver) : solver :=
  mk_solver (com_geometry s) (com_nx s) (com_ny s) (com_nxleg s)
    (com_nxcore s) (com_nusp s) (com_nxomit s) (com_isudsym s)
    (bbb_isfixlb s) (bbb_restart s) (bbb_newgeo s) (bbb_icntnunk s)
    (bbb_ftol s) (bbb_dtreal s) (bbb_isimpon s) (bbb_iflcore s) v
    (bbb_pcorei s) (bbb_nis s) (bbb_ups s) (bbb_tes s) (bbb_tis s)
    (bbb_ngs s) (bbb_phis s) (bbb_kye_use s) (bbb_kyi_use s) (bbb_dif_use s)
    (bbb_afracs s).
Definition set_bbb_pcorei (v : Q) (s : solver) : solver :=
  mk_solver (com_geometry s) (com_nx s) (com_ny s) (com_nxleg s)
    (com_nxcore s) (com_nusp s) (com_nxomit s) (com_isudsym s)
    (bbb_isfixlb s) (bbb_restart s) (bbb_newgeo s) (bbb_icntnunk s)
    (bbb_ftol s) (bbb_dtreal s) (bbb_isimpon s) (bbb_iflcore s)
    (bbb_pcoree s) v (bbb_nis s) (bbb_ups s) (bbb_tes s) (bbb_tis s)
    (bbb_ngs s) (bbb_phis s) (bbb_kye_use s) (bbb_kyi_use s) (bbb_dif_use s)
    (bbb_afracs s).
Definition set_bbb_nis (v : flow) (s : solver) : solver :=
  mk_solver (com_geometry s) (com_nx s) (com_ny s) (com_nxleg s)
    (com_nxcore s) (com_nusp s) (com_nxomit s) (com_isudsym s)
    (bbb_isfixlb s) (bbb_restart s) (bbb_newgeo s) (bbb_icntnunk s)
    (bbb_ftol s) (bbb_dtreal s) (bbb_isimpon s) (bbb_iflcore s)
    (bbb_pcoree s) (bbb_pcorei s) v (bbb_ups s) (bbb_tes s) (bbb_tis s)
    (bbb_ngs s) (bbb_phis s) (bbb_kye_use s) (bbb_kyi_use s) (bbb_dif_use s)
    (bbb_afracs s).
Definition set_bbb_ups (v : flow) (s : solver) : solver :=
  mk_solver (com_geometry s) (com_nx s) (com_ny s) (com_nxleg s)
    (com_nxcore s) (com_nusp s) (com_nxomit s) (com_isudsym s)
    (bbb_isfixlb s) (bbb_restart s) (bbb_newgeo s) (bbb_icntnunk s)
    (bbb_ftol s) (bbb_dtreal s) (bbb_isimpon s) (bbb_iflcore s)
    (bbb_pcoree s) (bbb_pcorei s) (bbb_nis s) v (bbb_tes s) (bbb_tis s)
    (bbb_ngs s) (bbb_phis s) (bbb_kye_use s) (bbb_kyi_use s) (bbb_dif_use s)
    (bbb_afracs s).
Definition set_bbb_tes (v : plane) (s : solver) : solver :=
  mk_solver (com_geometry s) (com_nx s) (com_ny s) (com_nxleg s)
    (com_nxcore s) (com_nusp s) (com_nxomit s) (com_isudsym s)
    (bbb_isfixlb s) (bbb_restart s) (bbb_newgeo s) (bbb_icntnunk s)
    (bbb_ftol s) (bbb_dtreal s) (bbb_isimpon s) (bbb_iflcore s)
    (bbb_pcoree s) (bbb_pcorei s) (bbb_nis s) (bbb_ups s) v (bbb_tis s)
    (bbb_ngs s) (bbb_phis s) (bbb_kye_use s) (bbb_kyi_use s) (bbb_dif_use s)
    (bbb_afracs s).
Definition set_bbb_tis (v : plane) (s : solver) : solver :=
  mk_solver (com_geometry s) (com_nx s) (com_ny s) (com_nxleg s)
    (com_nxcore s) (com_nusp s) (com_nxomit s) (com_isudsym s)
    (bbb_isfixlb s) (bbb_restart s) (bbb_newgeo s) (bbb_icntnunk s)
    (bbb_ftol s) (bbb_dtreal s) (bbb_isimpon s) (bbb_iflcore s)
    (bbb_pcoree s) (bbb_pcorei s) (bbb_nis s) (bbb_ups s) (bbb_tes s) v
    (bbb_ngs s) (bbb_phis s) (bbb_kye_use s) (bbb_kyi_use s) (bbb_dif_use s)
    (bbb_afracs s).
Definition set_bbb_ngs (v : flow) (s : solver) : solver :=
  mk_solver (com_geometry s) (com_nx s) (com_ny s) (com_nxleg s)
    (com_nxcore s) (com_nusp s) (com_nxomit s) (com_isudsym s)
    (bbb_isfixlb s) (bbb_restart s) (bbb_newgeo s) (bbb_icntnunk s)
    (bbb_ftol s) (bbb_dtreal s) (bbb_isimpon s) (bbb_iflcore s)
    (bbb_pcoree s) (bbb_pcorei s) (bbb_nis s) (bbb_ups s) (bbb_tes s)
    (bbb_tis s) v (bbb_phis s) (bbb_kye_use s) (bbb_kyi_use s)
    (bbb_dif_use s) (bbb_afracs s).
Definition set_bbb_phis (v : plane) (s : solver) : solver :=
  mk_solver (com_geometry s) (com_nx s) (com_ny s) (com_nxleg s)
    (com_nxcore s) (com_nusp s) (com_nxomit s) (com_isudsym s)
    (bbb_isfixlb s) (bbb_restart s) (bbb_newgeo s) (bbb_icntnunk s)
    (bbb_ftol s) (bbb_dtreal s) (bbb_isimpon s) (bbb_iflcore s)
    (bbb_pcoree s) (bbb_pcorei s) (bbb_nis s) (bbb_ups s) (bbb_tes s)
    (bbb_tis s) (bbb_ngs s) v (bbb_kye_use s) (bbb_kyi_use s)
    (bbb_dif_use s) (bbb_afracs s).
Definition set_bbb_kye_use (v : plane) (s : solver) : solver :=
  mk_solver (com_geometry s) (com_nx s) (com_ny s) (com_nxleg s)
    (com_nxcore s) (com_nusp s) (com_nxomit s) (com_isudsym s)
    (bbb_isfixlb s) (bbb_restart s) (bbb_newgeo s) (bbb_icntnunk s)
    (bbb_ftol s) (bbb_dtreal s) (bbb_isimpon s) (bbb_iflcore s)
    (bbb_pcoree s) (bbb_pcorei s) (bbb_nis s) (bbb_ups s) (bbb_tes s)
    (bbb_tis s) (bbb_ngs s) (bbb_phis s) v (bbb_kyi_use s) (bbb_dif_use s)
    (bbb_afracs s).
Definition set_bbb_kyi_use (v : plane) (s : solver) : solver :=
  mk_solver (com_geometry s) (com_nx s) (com_ny s) (com_nxleg s)
    (com_nxcore s) (com_nusp s) (com_nxomit s) (com_isudsym s)
    (bbb_isfixlb s) (bbb_restart s) (bbb_newgeo s) (bbb_icntnunk s)
    (bbb_ftol s) (bbb_dtreal s) (bbb_isimpon s) (bbb_iflcore s)
    (bbb_pcoree s) (bbb_pcorei s) (bbb_nis s) (bbb_ups s) (bbb_tes s)
    (bbb_tis s) (bbb_ngs s) (bbb_phis s) (bbb_kye_use s) v (bbb_dif_use s)
    (bbb_afracs s).
Definition set_bbb_dif_use (v : flow) (s : solver) : solver :=
  mk_solver (com_geometry s) (com_nx s) (com_ny s) (com_nxleg s)
    (com_nxcore s) (com_nusp s) (com_nxomit s) (com_isudsym s)
    (bbb_isfixlb s) (bbb_restart s) (bbb_newgeo s) (bbb_icntnunk s)
    (bbb_ftol s) (bbb_dtreal s) (bbb_isimpon s) (bbb_iflcore s)
    (bbb_pcoree s) (bbb_pcorei s) (bbb_nis s) (bbb_ups s) (bbb_tes s)
    (bbb_tis s) (bbb_ngs s) (bbb_phis s) (bbb_kye_use s) (bbb_kyi_use s) v
    (bbb_afracs s).
Definition set_bbb_afracs (v : plane) (s : solver) : solver :=
  mk_solver (com_geometry s) (com_nx s) (com_ny s) (com_nxleg s)
    (com_nxcore s) (com_nusp s) (com_nxomit s) (com_isudsym s)
    (bbb_isfixlb s) (bbb_restart s) (bbb_newgeo s) (bbb_icntnunk s)
    (bbb_ftol s) (bbb_dtreal s) (bbb_isimpon s) (bbb_iflcore s)
    (bbb_pcoree s) (bbb_pcorei s) (bbb_nis s) (bbb_ups s) (bbb_tes s)
    (bbb_tis s) (bbb_ngs s) (bbb_phis s) (bbb_kye_use s) (bbb_kyi_use s)
    (bbb_dif_use s) v.

(** ** Running the conversion against the solver

    The conversion is a sequence of attribute reads and writes on the
    solver, one call into the solver, and local array computations that
    may raise.  [run A] threads the solver's state together with a record
    of every attribute access made, most recent first; an exception ends
    the run and leaves the state as it was when raised. *)

Inductive attr : Set :=
  | Geometry | Nx | Ny | Nxleg | Nxcore | Nusp | Nxomit | Isudsym
  | Isfixlb | Restart | Newgeo | Icntnunk | Ftol | Dtreal
  | Isimpon | Iflcore | Pcoree | Pcorei
  | Nis | Ups | Tes | Tis | Ngs | Phis | Kye_use | Kyi_use | Dif_use | Afracs.

Inductive event : Set :=
  | Get (a : attr)     (* the attribute is read *)
  | Put (a : attr)     (* the attribute is assigned *)
  | Exmain.            (* [bbb.exmain()] is called *)

Record world : Type := mk_world {
  st : solver;
  trace : list event
}.

Inductive outcome (A : Type) : Type :=
  | Return (a : A) (w : world)
  | Raise (e : exn) (w : world).
Arguments Return {A} a w.
Arguments Raise {A} e w.

Definition final {A} (o : outcome A) : world :=
  match o with Return _ w => w | Raise _ w => w end.

Definition run (A : Type) : Type := world -> outcome A.

#[global] Instance run_ret : MRet run := fun A a w => Return a w.
#[global] Instance run_bind : MBind run := fun A B f m w =>
  match m w with
  | Return a w' => f a w'
  | Raise e w' => Raise e w'
  end.

Definition get {A} (a : attr) (proj : solver -> A) : run A := fun w =>
  Return (proj (st w)) (mk_world (st w) (Get a :: trace w)).

Definition put {A} (a : attr) (upd : A -> solver -> solver) (v : A) : run unit :=
  fun w => Return tt (mk_world (upd v (st w)) (Put a :: trace w)).

Definition lift (A : Type) (r : res A) : run A := fun w =>
  match r with Val a => Return a w | Exc e => Raise e w end.
Arguments lift {A} r.

(** [assert b] *)
Definition assert_ (b : bool) : run unit :=
  lift (if b then Val tt else Exc AssertionError).

(** A local variable that is read: unbound if no assignment ran. *)
Definition local {A} (v : option A) : run A := lift (or_raise UnboundLocalError v).

(** [sub in s] on Python strings. *)
Fixpoint contains (sub s : string) : bool :=
  String.prefix sub s ||
  match s with
  | EmptyString => false
  | String _ s' => contains sub s'
  end.

Definition ftol_loose : Q := 10000000000 # 1.   (* 1e10 *)
Definition ftol_strict : Q := 1 # 100000000.    (* 1e-8 *)
Definition dtreal_step : Q := 1 # 1000000.      (* 1e-6 *)

Section Convert.

(** [bbb.exmain()] belongs to the solver: it returns the state it leaves
    and whether it completed ([false]: it raised). *)
Variable exmain : solver -> bool * solver.

Definition call_exmain : run unit := fun w =>
  let '(ok, s) := exmain (st w) in
  let w' := mk_world s (Exmain :: trace w) in
  if ok then Return tt w' else Raise SolverError w'.

Definition dnbot_to_dnull : run unit :=
  (* Check that the geometry is bottom half of a double null *)
  geometry ← get Geometry com_geometry;
  assert_ (contains "dnbot" geometry);;
  (* Grid sizes for half domain *)
  half_nx ← get Nx com_nx;
  half_ny ← get Ny com_ny;
  nxleg ← get Nxleg com_nxleg; nxcore ← get Nxcore com_nxcore;
  let half_inner := fst nxleg + fst nxcore + 1 in
  nxleg ← get Nxleg com_nxleg; nxcore ← get Nxcore com_nxcore;
  let half_outer := snd nxleg + snd nxcore + 1 in
  let reflect {A} `{Slab A} (v : ndarray A) : run (ndarray A) :=
    lift (reflect_centred half_nx half_inner half_outer v) in
  (* Plasma state except parallel flow (ups) *)
  niss ← get Nis bbb_nis ≫= reflect;
  tess ← get Tes bbb_tes ≫= reflect;
  tiss ← get Tis bbb_tis ≫= reflect;
  ngss ← get Ngs bbb_ngs ≫= reflect;
  phiss ← get Phis bbb_phis ≫= reflect;
  (* Diffusion coefficients *)
  kye_use ← get Kye_use bbb_kye_use ≫= reflect;
  kyi_use ← get Kyi_use bbb_kyi_use ≫= reflect;
  dif_use ← get Dif_use bbb_dif_use ≫= reflect;
  isimpon ← get Isimpon bbb_isimpon;
  afracs ← (if isimpon =? 2
            then (v ← get Afracs bbb_afracs ≫= reflect; mret (Some v))
            else mret None);
  (* Staggered parallel flow velocity *)
  upss ← staggered_block half_nx half_ny half_inner half_outer
           (@lift) (get Ups bbb_ups) (get Nusp com_nusp);
  (* Set switches *)
  put Nxomit set_com_nxomit 0;;
  put Isfixlb set_bbb_isfixlb 0;;
  put Isudsym set_com_isudsym 0;;
  put Geometry set_com_geometry "dnull"%string;;
  (* Generate new grid, allocate arrays *)
  put Restart set_bbb_restart 1;;
  put Newgeo set_bbb_newgeo 1;;
  put Icntnunk set_bbb_icntnunk 0;;
  put Ftol set_bbb_ftol ftol_loose;;
  put Dtreal set_bbb_dtreal dtreal_step;;
  call_exmain;;
  put Newgeo set_bbb_newgeo 0;;
  put Ftol set_bbb_ftol ftol_strict;;
  (* Replace state variables *)
  put Nis set_bbb_nis niss;;
  put Ups set_bbb_ups upss;;
  put Tes set_bbb_tes tess;;
  put Tis set_bbb_tis tiss;;
  put Ngs set_bbb_ngs ngss;;
  put Phis set_bbb_phis phiss;;
  put Kye_use set_bbb_kye_use kye_use;;
  put Kyi_use set_bbb_kyi_use kyi_use;;
  put Dif_use set_bbb_dif_use dif_use;;
  isimpon ← get Isimpon bbb_isimpon;
  (if isimpon =? 2
   then local afracs ≫= put Afracs set_bbb_afracs
   else mret tt);;
  (* If core power is fixed, need to double *)
  iflcore ← get Iflcore bbb_iflcore;
  if iflcore =? 1
  then
    (v ← get Pcoree bbb_pcoree; put Pcoree set_bbb_pcoree (v * 2)%Q);;
    (v ← get Pcorei bbb_pcorei; put Pcorei set_bbb_pcorei (v * 2)%Q)
  else mret tt.

End Convert.

(** ** Meshes and fields the conversion is meant for *)

(** The half-domain working arrays have [half_nx + 2] poloidal rows, of
    which [half_inner] belong to the inner and [half_outer] to the outer
    half; every size is positive. *)
Definition consistent (half_nx half_inner half_outer : Z) (n : nat) : Prop :=
  1 <= half_nx /\ 1 <= half_inner /\ 1 <= half_outer /\
  Z.of_nat n = half_nx + 2 /\ Z.of_nat n = half_inner + half_outer.

(** A row of [r] radial positions with [s] species each. *)
Definition row_shaped (r s : nat) (row : list (list Q)) : Prop :=
  length row = r /\ Forall (fun line => length line = s) row.

(** A flow field whose rows have the extents its shape announces. *)
Definition well_shaped (a : flow) : Prop :=
  match trailing a with
  | [r; s] => Forall (row_shaped r s) (rows a)
  | _ => False
  end.

(** The flow field has [half_ny + 2] radial positions and at least [nusp]
    species, as the solver allocates it. *)
Definition flow_fits (half_ny nusp : Z) (ups : flow) : Prop :=
  0 <= half_ny + 2 /\ 0 <= nusp /\ well_shaped ups /\
  match trailing ups with
  | [r; s] => r = Z.to_nat (half_ny + 2) /\ nusp <= Z.of_nat s
  | _ => False
  end.

Definition positive_row (row : list (list Q)) : Prop :=
  Forall (Forall (fun x => (0 < x)%Q)) row.

Definition negative_row (row : list (list Q)) : Prop :=
  Forall (Forall (fun x => (x < 0)%Q)) row.

(** The solver step leaves an attribute as it found it. *)
Definition preserves {A} (proj : solver -> A) (exmain : solver -> bool * solver) : Prop :=
  forall s, proj (snd (exmain s)) = proj s.

(** *** The rows the segment copies leave

    [reflect_centred] with [p = half_inner - 1] and [q = half_outer - 1],
    as windows of the source spliced into the zero array. *)
Definition centred_rows {A} `{Slab A} (p q : nat) (tsh : list nat) (xs : list A)
  : list A :=
  Np.splice (2 * p) q (reverse (Np.window (p + 2) q xs))
    (Np.splice (2 * p + q) q (Np.window (p + 2) q xs)
       (Np.splice p p (reverse (Np.window 0 p xs))
          (Np.splice 0 (p + 1) (Np.window 0 (p + 1) xs)
             (replicate (2 * p + 2 * q) (zeros tsh))))).

(** The layout of the four copies of the staggered block: [r1] at rows
    [0, p2 + 2), then [r2] at [p2, 2 p2 + 1), [r3] at [2 p2 + q + 2, end)
    and [r4] at [2 p2 + 1, 2 p2 + q + 1), written over [z], where
    [p2 = half_inner - 2] and [q = half_outer - 1]. *)
Definition laid_out {A} (p2 q : nat) (r1 r2 r3 r4 z : list A) : list A :=
  Np.splice (2 * p2 + 1) q r4
    (Np.splice (2 * p2 + q + 2) q r3
       (Np.splice p2 (p2 + 1) r2 (Np.splice 0 (p2 + 2) r1 z))).

(** Rows [lo, lo + cnt) of the source flow field, restricted to the first
    [nusp] species. *)
Definition source_rows (nusp : Z) (xs : list (list (list Q))) (lo cnt : nat)
  : list (list (list Q)) :=
  map (crop nusp) (Np.window lo cnt xs).

(** The four segment copies of the staggered block, before the boundary
    row is corrected. *)
Definition staggered_segments (p2 q r s : nat) (nusp : Z)
    (xs : list (list (list Q))) : list (list (list Q)) :=
  let fit := map (stretch_row r s) in
  laid_out p2 q
    (fit (source_rows nusp xs 0 (p2 + 2)))
    (fit (reverse (map negate (source_rows nusp xs 0 (p2 + 1)))))
    (fit (source_rows nusp xs (p2 + 3) q))
    (fit (reverse (map negate (source_rows nusp xs (p2 + 3) q))))
    (replicate (2 * p2 + 2 * q + 2) (zeros [r; s])).

(** The same for a source of [r] radial positions and at least [nusp]
    species, where nothing is broadcast. *)
Definition staggered_plain (p2 q r : nat) (nusp : Z)
    (xs : list (list (list Q))) : list (list (list Q)) :=
  laid_out p2 q
    (source_rows nusp xs 0 (p2 + 2))
    (reverse (map negate (source_rows nusp xs 0 (p2 + 1))))
    (source_rows nusp xs (p2 + 3) q)
    (reverse (map negate (source_rows nusp xs (p2 + 3) q)))
    (replicate (2 * p2 + 2 * q + 2) (zeros [r; Z.to_nat nusp])).

(** ... and after the boundary row [2 p2 + 1] is overwritten with [v]. *)
Definition staggered_rows (p2 q r : nat) (nusp : Z)
    (xs : list (list (list Q))) (v : list (list Q)) : list (list (list Q)) :=
  <[(2 * p2 + 1)%nat := v]> (staggered_plain p2 q r nusp xs).

(** ** Sample data

    A half mesh with [nxleg = (1, 1)] and [nxcore = (1, 1)], so that
    [half_inner = half_outer = 3] and [nx = 4]; one radial cell
    ([ny = 1]); two ion species of which one carries parallel momentum. *)

Definition sample_plane (vals : list Z) : plane :=
  mk_ndarray [3%nat] (map (fun v => replicate 3 (inject_Z v)) vals).

Definition sample_flow (vals : list Z) : flow :=
  mk_ndarray [3%nat; 2%nat]
    (map (fun v => replicate 3 (replicate 2 (inject_Z v))) vals).

Definition sample_solver (geometry : string) (isimpon iflcore : Z) : solver :=
  {| com_geometry := geometry;
     com_nx := 4; com_ny := 1;
     com_nxleg := (1, 1); com_nxcore := (1, 1);
     com_nusp := 1; com_nxomit := 2; com_isudsym := 1;
     bbb_isfixlb := 1; bbb_restart := 0; bbb_newgeo := 0; bbb_icntnunk := 1;
     bbb_ftol := 1 # 100000; bbb_dtreal := 1 # 1;
     bbb_isimpon := isimpon; bbb_iflcore := iflcore;
     bbb_pcoree := 5 # 1; bbb_pcorei := 7 # 1;
     bbb_nis := sample_flow [1; 2; 3; 4; 5; 6];
     bbb_ups := sample_flow [1; 2; 3; 4; 5; 6];
     bbb_tes := sample_plane [1; 2; 3; 4; 5; 6];
     bbb_tis := sample_plane [1; 2; 3; 4; 5; 6];
     bbb_ngs := sample_flow [1; 2; 3; 4; 5; 6];
     bbb_phis := sample_plane [1; 2; 3; 4; 5; 6];
     bbb_kye_use := sample_plane [1; 2; 3; 4; 5; 6];
     bbb_kyi_use := sample_plane [1; 2; 3; 4; 5; 6];
     bbb_dif_use := sample_flow [1; 2; 3; 4; 5; 6];
     bbb_afracs := sample_plane [1; 2; 3; 4; 5; 6] |}.

Definition sample_world (geometry : string) (isimpon iflcore : Z) : world :=
  mk_world (sample_solver geometry isimpon iflcore) [].

(** A solver step that completes and changes nothing the conversion
    looks at afterwards. *)
Definition exmain_idle (s : solver) : bool * solver := (true, s).

(** ** Outcomes of a run

    [wp m w Q]: the outcome of running [m] from [w] satisfies [Q]. *)
Definition wp {A} (m : run A) (w : world) (Q : outcome A -> Prop) : Prop := Q (m w).

(** ** Further vocabulary for the conversion *)

(** The attributes that hold the plasma state and the diffusion
    coefficients. *)
Definition is_field (a : attr) : bool :=
  match a with
  | Nis | Ups | Tes | Tis | Ngs | Phis | Kye_use | Kyi_use | Dif_use | Afracs => true
  | _ => false
  end.

(** The state the solver step is called on: the state found, with the
    nine switches assigned in the order of the code. *)
Definition regeneration_state (s : solver) : solver :=
  set_bbb_dtreal dtreal_step
    (set_bbb_ftol ftol_loose
       (set_bbb_icntnunk 0
          (set_bbb_newgeo 1
             (set_bbb_restart 1
                (set_com_geometry "dnull"
                   (set_com_isudsym 0
                      (set_bbb_isfixlb 0
                         (set_com_nxomit 0 s)))))))).

(** A field whose poloidal extent is the one the mesh sizes of the solver
    announce. *)
Definition extent_fits {A} (s : solver) (F : ndarray A) : Prop :=
  consistent (com_nx s)
    (fst (com_nxleg s) + fst (com_nxcore s) + 1)
    (snd (com_nxleg s) + snd (com_nxcore s) + 1) (length (rows F)) /\
  trailing F <> [].

(** A half-domain state as the conversion expects it. *)
Definition half_domain (s : solver) : Prop :=
  contains "dnbot" (com_geometry s) = true /\
  2 <= fst (com_nxleg s) + fst (com_nxcore s) + 1 /\
  extent_fits s (bbb_nis s) /\ extent_fits s (bbb_tes s) /\
  extent_fits s (bbb_tis s) /\ extent_fits s (bbb_ngs s) /\
  extent_fits s (bbb_phis s) /\ extent_fits s (bbb_kye_use s) /\
  extent_fits s (bbb_kyi_use s) /\ extent_fits s (bbb_dif_use s) /\
  (bbb_isimpon s = 2 -> extent_fits s (bbb_afracs s)) /\
  extent_fits s (bbb_ups s) /\
  flow_fits (com_ny s) (com_nusp s) (bbb_ups s).



(** * [pylib/plotvar.py]: a field drawn on the mesh

    [plotvar] reads the mesh sizes [com.nx] and [com.ny] and the cell
    geometry [com.rm] and [com.zm], builds one polygon per cell and one
    value per cell, and hands both to matplotlib.  The calls into
    matplotlib are recorded, in the order they are made; what matplotlib
    does with them, and what it may raise, is outside this model. *)

(** The cell geometry in [com]: for every cell [ix, iy] the coordinate of
    its centre (index 0) and of its four corners (indices 1 to 4). *)
Record com_mesh : Type := mk_com_mesh {
  com_rm : list (list (list Q));
  com_zm : list (list (list Q))
}.

(** [np.arange(start, stop)] on integers. *)
Definition arange (start stop : Z) : list Z :=
  map (fun k => start + Z.of_nat k) (seq 0 (Z.to_nat (stop - start))).

(** [for x in xs: body], the loop state being threaded through. *)
Fixpoint for_each {S : Type} (xs : list Z) (body : Z -> S -> res S) (s : S) : res S :=
  match xs with
  | [] => Val s
  | x :: xs' => s' ← body x s; for_each xs' body s'
  end.

(** [a[i, j]] *)
Definition item2 {A} (i j : Z) (a : list (list A)) : res A :=
  row ← or_raise IndexError (Np.getitem i a);
  or_raise IndexError (Np.getitem j row).

(** [xs[idx]] for a list of integer indices. *)
Fixpoint pick {A} (idx : list Z) (xs : list A) : res (list A) :=
  match idx with
  | [] => Val []
  | i :: idx' =>
      x ← or_raise IndexError (Np.getitem i xs);
      r ← pick idx' xs;
      Val (x :: r)
  end.

(** [matplotlib.patches.Polygon(xy, closed)] *)
Record polygon : Type := Polygon {
  xy : list (Q * Q);
  closed : bool
}.

(** The body of the first loop: the polygon of cell [ix, iy]. *)
Definition cell_polygon (m : com_mesh) (ix iy : Z) : res polygon :=
  rcell ← item2 ix iy (com_rm m);
  rcol ← pick [1; 2; 4; 3] rcell;
  zcell ← item2 ix iy (com_zm m);
  zcol ← pick [1; 2; 4; 3] zcell;
  (* np.column_stack((rcol, zcol)) of two columns of four *)
  Val (Polygon (zip rcol zcol) true).

(** The first pair of loops. *)
Definition mesh_patches (s : solver) (m : com_mesh) : res (list polygon) :=
  for_each (arange 0 (com_ny s + 2)) (fun iy patches =>
    for_each (arange 0 (com_nx s + 2)) (fun ix patches =>
      polygon ← cell_polygon m ix iy;
      Val (patches ++ [polygon])) patches) [].

(** [np.zeros(n)] *)
Definition zeros1 (n : Z) : res (list Q) :=
  if n <? 0 then Exc ValueError else Val (replicate (Z.to_nat n) 0%Q).

(** The array [vals] and the second pair of loops. *)
Definition cell_values (s : solver) (var : list (list Q)) : res (list Q) :=
  vals ← zeros1 ((com_nx s + 2) * (com_ny s + 2));
  for_each (arange 0 (com_ny s + 2)) (fun iy vals =>
    for_each (arange 0 (com_nx s + 2)) (fun ix vals =>
      let k := ix + (com_nx s + 2) * iy in
      v ← item2 ix iy var;
      or_raise IndexError (Np.setitem k v vals)) vals) vals.

(** The axis drawn on: the one passed in, or the one [plt.subplots]
    creates. *)
Inductive axes : Set :=
  | Given (handle : nat)
  | Created.

(** The calls into matplotlib. *)
Inductive call : Type :=
  | PatchCollection (patches : list polygon) (log_norm : bool)
  | Set_array (vals : list Q)
  | Plt_subplots
  | Add_collection
  | Autoscale_view
  | Plt_colorbar
  | Set_title (title : string)
  | Set_xlabel (label : string)
  | Set_ylabel (label : string)
  | Grid (on : bool)
  | Set_aspect (mode : string)
  | Plt_show.

(** [plotvar(var, iso, title, show, axis, cmap, log)]: the axis returned
    and the calls made, first call first. *)
Definition plotvar (s : solver) (m : com_mesh) (var : list (list Q))
    (iso : bool) (title : string) (show : bool) (axis : option nat)
    (cmap : option string) (log : bool) : res (axes * list call) :=
  patches ← mesh_patches s m;
  vals ← cell_values s var;
  let p := [PatchCollection patches log; Set_array vals] in
  let '(axis, made) := match axis with
                       | None => (Created, [Plt_subplots])
                       | Some h => (Given h, [])
                       end in
  Val (axis,
       p ++ made
         ++ [Add_collection; Autoscale_view; Plt_colorbar;
             Set_title title; Set_xlabel "R [m]"; Set_ylabel "Z [m]"; Grid true]
         ++ (if iso then [Set_aspect "equal"] else [])
         ++ (if show then [Plt_show] else [])).

(** A mesh of [nx + 2] by [ny + 2] cells, each with the five coordinates
    the code indexes. *)
Definition mesh_covers (s : solver) (a : list (list (list Q))) : Prop :=
  com_nx s + 2 <= Z.of_nat (length a) /\
  Forall (fun col => com_ny s + 2 <= Z.of_nat (length col) /\
                     Forall (fun cell => (5 <= length cell)%nat) col) a.
(** A two-dimensional field with a value for every cell of the mesh. *)
Definition field_covers (s : solver) (var : list (list Q)) : Prop :=
  com_nx s + 2 <= Z.of_nat (length var) /\
  Forall (fun col => com_ny s + 2 <= Z.of_nat (length col)) var.

(** Sample geometry for the sample mesh: unit squares, cell [ix, iy] with
    corners 1 to 4 at [(ix, iy)], [(ix + 1, iy)], [(ix, iy + 1)] and
    [(ix + 1, iy + 1)]. *)
Definition sample_mesh : com_mesh :=
  {| com_rm := map (fun ix => map (fun iy : Z =>
                 map inject_Z [ix; ix; ix + 1; ix; ix + 1]) [0; 1; 2])
                 [0; 1; 2; 3; 4; 5];
     com_zm := map (fun ix : Z => map (fun iy =>
                 map inject_Z [iy; iy; iy; iy + 1; iy + 1]) [0; 1; 2])
                 [0; 1; 2; 3; 4; 5] |}.

(** A field on the sample mesh: cell [ix, iy] holds [10 * ix + iy]. *)
Definition sample_var : list (list Q) :=
  map (fun ix => map (fun iy => inject_Z (10 * ix + iy)) [0; 1; 2]) [0; 1; 2; 3; 4; 5].

(** The sample field with one more, shorter, row. *)
Definition sample_var_padded : list (list Q) := sample_var ++ [[99 # 1]].

(** * Properties *)

(** ** Windows and splices of lists *)

Section ListWindows.
Context {A : Type}.
Implicit Types (xs r : list A) (lo cnt i : nat).

Lemma length_window lo cnt xs :
  (lo + cnt <= length xs)%nat -> length (Np.window lo cnt xs) = cnt.
Proof. intros. unfold Np.window. rewrite length_take, length_drop. lia. Qed.

Lemma lookup_window lo cnt xs i :
  (i < cnt)%nat -> Np.window lo cnt xs !! i = xs !! (lo + i)%nat.
Proof. intros. unfold Np.window. now rewrite lookup_take_lt, lookup_drop. Qed.

Lemma length_splice lo cnt r xs :
  length r = cnt -> (lo + cnt <= length xs)%nat ->
  length (Np.splice lo cnt r xs) = length xs.
Proof.
  intros. unfold Np.splice.
  rewrite !length_app, length_take, length_drop. lia.
Qed.

Lemma lookup_splice_before lo cnt r xs i :
  (i < lo)%nat -> (lo <= length xs)%nat ->
  Np.splice lo cnt r xs !! i = xs !! i.
Proof.
  intros. unfold Np.splice.
  rewrite lookup_app_l by (rewrite length_take; lia).
  now apply lookup_take_lt.
Qed.

Lemma lookup_splice_inside lo cnt r xs i :
  length r = cnt -> (lo <= length xs)%nat -> (i < cnt)%nat ->
  Np.splice lo cnt r xs !! (lo + i)%nat = r !! i.
Proof.
  intros. unfold Np.splice.
  rewrite lookup_app_r by (rewrite length_take; lia).
  rewrite length_take, lookup_app_l by lia.
  f_equal. lia.
Qed.

Lemma lookup_splice_after lo cnt r xs i :
  length r = cnt -> (lo <= length xs)%nat -> (lo + cnt <= i)%nat ->
  Np.splice lo cnt r xs !! i = xs !! i.
Proof.
  intros. unfold Np.splice.
  rewrite lookup_app_r by (rewrite length_take; lia).
  rewrite length_take, lookup_app_r by lia.
  rewrite lookup_drop. f_equal. lia.
Qed.

(** Reading back the block that was written. *)
Lemma window_splice_same lo cnt r xs :
  length r = cnt -> (lo <= length xs)%nat ->
  Np.window lo cnt (Np.splice lo cnt r xs) = r.
Proof.
  intros. unfold Np.window, Np.splice.
  rewrite drop_app_length' by (rewrite length_take; lia).
  now apply take_app_length'.
Qed.

(** A block away from the written one is unchanged. *)
Lemma window_splice_frame lo cnt r xs a c :
  length r = cnt -> (lo + cnt <= length xs)%nat ->
  (a + c <= lo \/ lo + cnt <= a)%nat ->
  Np.window a c (Np.splice lo cnt r xs) = Np.window a c xs.
Proof.
  intros Hr Hin Hsep. apply list_eq; intros i.
  destruct (decide (i < c)%nat) as [Hi|Hi].
  - rewrite !lookup_window by done.
    destruct Hsep.
    + apply lookup_splice_before; lia.
    + apply lookup_splice_after; lia.
  - unfold Np.window. rewrite !lookup_take_ge by lia. done.
Qed.

Lemma window_insert_frame k (x : A) xs a c :
  (a + c <= k \/ k < a)%nat ->
  Np.window a c (<[k := x]> xs) = Np.window a c xs.
Proof.
  intros Hsep. apply list_eq; intros i.
  destruct (decide (i < c)%nat) as [Hi|Hi].
  - rewrite !lookup_window by done.
    apply list_lookup_insert_ne. lia.
  - unfold Np.window. rewrite !lookup_take_ge by lia. done.
Qed.

End ListWindows.

(** ** Slice bounds inside the array *)

Lemma slice_bounds_some_some (len : nat) (a b : Z) :
  0 <= a <= Z.of_nat len -> 0 <= b <= Z.of_nat len ->
  Np.slice_bounds len (Some a) (Some b) = (Z.to_nat a, Z.to_nat (b - a)).
Proof.
  intros. unfold Np.slice_bounds, Np.slice_start, Np.slice_stop, Np.adjust.
  destruct (Z.ltb_spec a 0), (Z.ltb_spec b 0); try lia.
  rewrite !Z.min_l by lia. done.
Qed.

Lemma slice_bounds_none_some (len : nat) (b : Z) :
  0 <= b <= Z.of_nat len ->
  Np.slice_bounds len None (Some b) = (0%nat, Z.to_nat b).
Proof.
  intros. unfold Np.slice_bounds, Np.slice_start, Np.slice_stop, Np.adjust.
  destruct (Z.ltb_spec b 0); try lia.
  rewrite Z.min_l by lia. now rewrite Z.sub_0_r.
Qed.

Lemma slice_bounds_some_none (len : nat) (a : Z) :
  0 <= a <= Z.of_nat len ->
  Np.slice_bounds len (Some a) None = (Z.to_nat a, (len - Z.to_nat a)%nat).
Proof.
  intros. unfold Np.slice_bounds, Np.slice_start, Np.slice_stop, Np.adjust.
  destruct (Z.ltb_spec a 0); try lia.
  rewrite Z.min_l by lia. f_equal. lia.
Qed.

(** Whatever the bounds, the selected block lies inside the array. *)
Lemma slice_bounds_inside (len : nat) (start stop : option Z) :
  (fst (Np.slice_bounds len start stop) + snd (Np.slice_bounds len start stop)
   <= len)%nat.
Proof.
  unfold Np.slice_bounds, Np.slice_start, Np.slice_stop, Np.adjust; cbn.
  destruct start as [a|], stop as [b|];
    repeat match goal with |- context [Z.ltb ?x 0] => destruct (Z.ltb_spec x 0) end;
    lia.
Qed.

Lemma broadcast_rows_length {A} (cnt : nat) (rhs r : list A) :
  Np.broadcast_rows cnt rhs = Some r -> length r = cnt.
Proof.
  unfold Np.broadcast_rows.
  destruct (Nat.eqb_spec (length rhs) cnt).
  - now intros [= <-].
  - destruct rhs as [|x [|]]; try done. intros [= <-]. apply length_replicate.
Qed.

Lemma broadcast_rows_exact {A} (cnt : nat) (rhs : list A) :
  length rhs = cnt -> Np.broadcast_rows cnt rhs = Some rhs.
Proof. intros. unfold Np.broadcast_rows. now rewrite (proj2 (Nat.eqb_eq _ _)). Qed.

Lemma setslice_length {A} start stop (rhs xs ys : list A) :
  Np.setslice start stop rhs xs = Some ys -> length ys = length xs.
Proof.
  unfold Np.setslice.
  pose proof (slice_bounds_inside (length xs) start stop) as Hin.
  destruct (Np.slice_bounds (length xs) start stop) as [lo cnt]; cbn in Hin.
  destruct (Np.broadcast_rows cnt rhs) as [r|] eqn:Hb; [|done].
  intros [= <-]. apply length_splice; [|done].
  eauto using broadcast_rows_length.
Qed.

Lemma setslice_exact {A} start stop (rhs xs : list A) lo cnt :
  Np.slice_bounds (length xs) start stop = (lo, cnt) ->
  length rhs = cnt ->
  Np.setslice start stop rhs xs = Some (Np.splice lo cnt rhs xs).
Proof.
  intros Hb Hr. unfold Np.setslice. rewrite Hb.
  now rewrite broadcast_rows_exact.
Qed.

Lemma getslice_exact {A} start stop (xs : list A) lo cnt :
  Np.slice_bounds (length xs) start stop = (lo, cnt) ->
  Np.getslice start stop xs = Np.window lo cnt xs.
Proof. intros Hb. unfold Np.getslice. now rewrite Hb. Qed.

(** ** Steps of the array code *)

Lemma res_bind_val {A B} (f : A -> res B) (a : A) : Val a ≫= f = f a.
Proof. reflexivity. Qed.

Lemma np_zeros_val {A} `{Slab A} (n : Z) (sh : list nat) :
  0 <= n -> np_zeros n sh = Val (mk_ndarray sh (replicate (Z.to_nat n) (zeros sh))).
Proof. intros. unfold np_zeros. destruct (Z.ltb_spec n 0); [lia|done]. Qed.

Lemma rows_slice_exact {A} start stop (a : ndarray A) lo cnt :
  trailing a <> [] ->
  Np.slice_bounds (length (rows a)) start stop = (lo, cnt) ->
  rows_slice start stop a = Val (Np.window lo cnt (rows a)).
Proof.
  intros Ht Hb. unfold rows_slice. destruct (trailing a); [done|].
  now rewrite (getslice_exact _ _ _ lo cnt).
Qed.

Lemma rows_assign_exact {A} start stop (rhs : list A) (a : ndarray A) lo cnt :
  trailing a <> [] ->
  Np.slice_bounds (length (rows a)) start stop = (lo, cnt) ->
  length rhs = cnt ->
  rows_assign start stop rhs a
  = Val (mk_ndarray (trailing a) (Np.splice lo cnt rhs (rows a))).
Proof.
  intros Ht Hb Hr. unfold rows_assign. destruct (trailing a); [done|].
  now rewrite (setslice_exact _ _ _ _ lo cnt).
Qed.

(** Lengths of the lists built from windows and splices. *)
Ltac len :=
  repeat first
    [ rewrite length_reverse
    | rewrite length_map
    | rewrite length_replicate
    | rewrite length_window by len
    | rewrite length_splice by len
    | match goal with Hl : length _ = _ |- _ => rewrite Hl end
    | progress unfold source_rows
    | progress cbn [rows trailing flow_reverse flow_neg] ];
  try lia.

(** A slice whose bounds lie inside the array. *)
Ltac bounds :=
  cbn [rows trailing]; len;
  first [ rewrite slice_bounds_some_some by lia
        | rewrite slice_bounds_none_some by lia
        | rewrite slice_bounds_some_none by lia ];
  f_equal; lia.

Section Centred.
Context {A : Type} `{Slab A}.

Lemma reflect_centred_rows (p q : nat) (d : nat) (tsh : list nat) (xs : list A) :
  length xs = (p + q + 2)%nat -> (1 <= p + q)%nat ->
  reflect_centred (Z.of_nat (p + q)) (Z.of_nat p + 1) (Z.of_nat q + 1)
    (mk_ndarray (d :: tsh) xs)
  = Val (mk_ndarray (d :: tsh) (centred_rows p q (d :: tsh) xs)).
Proof.
  intros Hlen Hpq.
  unfold reflect_centred, full_inner, centred_rows.
  rewrite np_zeros_val, res_bind_val by lia.
  replace (Z.to_nat (2 * Z.of_nat (p + q))) with (2 * p + 2 * q)%nat by lia.
  cbn [trailing].
  set (hi := Z.of_nat p + 1). set (ho := Z.of_nat q + 1).
  rewrite (rows_slice_exact None (Some hi) _ 0%nat (p + 1)%nat),
    (rows_slice_exact None (Some (hi - 1)) _ 0%nat p),
    (rows_slice_exact (Some (hi + 1)) None _ (p + 2)%nat q)
    by (done || bounds).
  rewrite res_bind_val.
  rewrite (rows_assign_exact None (Some hi) _ _ 0%nat (p + 1)%nat)
    by (done || bounds || len).
  rewrite !res_bind_val; cbn [rows trailing].
  rewrite (rows_assign_exact (Some (hi - 1)) _ _ _ p p)
    by (done || bounds || len).
  rewrite !res_bind_val; cbn [rows trailing].
  rewrite (rows_assign_exact _ None _ _ (2 * p + q)%nat q)
    by (done || bounds || len).
  rewrite !res_bind_val; cbn [rows trailing].
  rewrite (rows_assign_exact _ (Some _) _ _ (2 * p)%nat q)
    by (done || bounds || len).
  reflexivity.
Qed.
End Centred.

Lemma flow_zeros_val (n r s : Z) :
  0 <= n -> 0 <= r -> 0 <= s ->
  flow_zeros n r s
  = Val (mk_ndarray [Z.to_nat r; Z.to_nat s]
           (replicate (Z.to_nat n) (zeros [Z.to_nat r; Z.to_nat s]))).
Proof.
  intros. unfold flow_zeros.
  destruct (Z.ltb_spec n 0), (Z.ltb_spec r 0), (Z.ltb_spec s 0); try lia.
  now apply np_zeros_val.
Qed.

Lemma flow_slice_exact start stop nusp (a : flow) r s lo cnt :
  trailing a = [r; s] ->
  Np.slice_bounds (length (rows a)) start stop = (lo, cnt) ->
  flow_slice start stop nusp a
  = Val (mk_ndarray [r; snd (Np.slice_bounds s None (Some nusp))]
           (map (crop nusp) (Np.window lo cnt (rows a)))).
Proof.
  intros Ht Hb. unfold flow_slice. rewrite Ht.
  now rewrite (getslice_exact _ _ _ lo cnt).
Qed.

Lemma flow_assign_exact start stop (rhs a : flow) r_dst s_dst r s lo cnt :
  trailing a = [r_dst; s_dst] -> trailing rhs = [r; s] ->
  compatible r r_dst = true -> compatible s s_dst = true ->
  Np.slice_bounds (length (rows a)) start stop = (lo, cnt) ->
  length (rows rhs) = cnt ->
  flow_assign start stop rhs a
  = Val (mk_ndarray (trailing a)
           (Np.splice lo cnt (map (stretch_row r_dst s_dst) (rows rhs)) (rows a))).
Proof.
  intros Ha Hr Hc1 Hc2 Hb Hlen. unfold flow_assign.
  rewrite Ha, Hr, Hc1, Hc2. cbn [andb].
  rewrite (setslice_exact _ _ _ _ lo cnt); [done..|].
  now rewrite length_map.
Qed.

Lemma getitem_inside {A} (i : Z) (xs : list A) :
  0 <= i < Z.of_nat (length xs) -> Np.getitem i xs = xs !! Z.to_nat i.
Proof.
  intros. unfold Np.getitem, Np.index.
  destruct (Z.ltb_spec i 0); [lia|].
  destruct (Z.leb_spec 0 i); [|lia].
  destruct (Z.ltb_spec i (Z.of_nat (length xs))); [|lia]. done.
Qed.

Lemma setitem_inside {A} (i : Z) (x : A) (xs : list A) :
  0 <= i < Z.of_nat (length xs) -> Np.setitem i x xs = Some (<[Z.to_nat i := x]> xs).
Proof.
  intros. unfold Np.setitem, Np.index.
  destruct (Z.ltb_spec i 0); [lia|].
  destruct (Z.leb_spec 0 i); [|lia].
  destruct (Z.ltb_spec i (Z.of_nat (length xs))); [|lia]. done.
Qed.

Lemma staggered_segments_length p2 q r s nusp xs :
  length xs = (p2 + q + 3)%nat ->
  length (staggered_segments p2 q r s nusp xs) = (2 * p2 + 2 * q + 2)%nat.
Proof.
  intros Hlen. unfold staggered_segments, laid_out.
  len.
Qed.

(** With constant reads the block is a plain sequence of array steps. *)
Lemma reflect_staggered_steps half_nx half_ny half_inner half_outer ups nusp :
  reflect_staggered half_nx half_ny half_inner half_outer ups nusp
  = (upss ← flow_zeros (2 * half_nx) (half_ny + 2) nusp;
     v ← flow_slice None (Some half_inner) nusp ups;
     upss ← flow_assign None (Some half_inner) v upss;
     v ← flow_slice None (Some (half_inner - 1)) nusp ups;
     upss ← flow_assign (Some (half_inner - 2)) (Some (2 * half_inner - 3))
              (flow_reverse (flow_neg v)) upss;
     v ← flow_slice (Some (half_inner + 1)) None nusp ups;
     upss ← flow_assign (Some (full_inner half_inner + half_outer - 1)) None v upss;
     v ← flow_slice (Some (half_inner + 1)) None nusp ups;
     upss ← flow_assign (Some (full_inner half_inner - 1))
              (Some (full_inner half_inner + half_outer - 2))
              (flow_reverse (flow_neg v)) upss;
     v ← flow_row (2 * half_inner - 4) upss;
     upss ← flow_set_row (2 * half_inner - 3) v upss;
     Val upss).
Proof. reflexivity. Qed.

Lemma reflect_staggered_rows (p2 q : nat) (ny nusp : Z) (r s : nat)
    (xs : list (list (list Q))) :
  length xs = (p2 + q + 3)%nat ->
  0 <= ny + 2 -> 0 <= nusp ->
  compatible r (Z.to_nat (ny + 2)) = true ->
  compatible (snd (Np.slice_bounds s None (Some nusp))) (Z.to_nat nusp) = true ->
  exists v,
    staggered_segments p2 q (Z.to_nat (ny + 2)) (Z.to_nat nusp) nusp xs
      !! (2 * p2)%nat = Some v /\
    reflect_staggered (Z.of_nat (p2 + q + 1)) ny (Z.of_nat p2 + 2) (Z.of_nat q + 1)
      (mk_ndarray [r; s] xs) nusp
    = Val (mk_ndarray [Z.to_nat (ny + 2); Z.to_nat nusp]
             (<[(2 * p2 + 1)%nat := v]>
                (staggered_segments p2 q (Z.to_nat (ny + 2)) (Z.to_nat nusp) nusp xs))).
Proof.
  intros Hlen Hny Hnusp Hr Hs.
  pose proof (staggered_segments_length p2 q (Z.to_nat (ny + 2)) (Z.to_nat nusp)
                nusp xs Hlen) as HB.
  destruct (lookup_lt_is_Some_2
              (staggered_segments p2 q (Z.to_nat (ny + 2)) (Z.to_nat nusp) nusp xs)
              (2 * p2)%nat) as [v Hv]; [lia|].
  exists v; split; [done|].
  rewrite reflect_staggered_steps. unfold full_inner.
  rewrite flow_zeros_val, res_bind_val by lia.
  replace (Z.to_nat (2 * Z.of_nat (p2 + q + 1))) with (2 * p2 + 2 * q + 2)%nat by lia.
  set (hi := Z.of_nat p2 + 2). set (ho := Z.of_nat q + 1).
  set (R := Z.to_nat (ny + 2)) in *. set (S := Z.to_nat nusp) in *.
  rewrite (flow_slice_exact None (Some hi) _ _ r s 0%nat (p2 + 2)%nat),
    (flow_slice_exact None (Some (hi - 1)) _ _ r s 0%nat (p2 + 1)%nat),
    (flow_slice_exact (Some (hi + 1)) None _ _ r s (p2 + 3)%nat q)
    by (done || bounds).
  rewrite res_bind_val.
  rewrite (flow_assign_exact None (Some hi) _ _ R S _ _ 0%nat (p2 + 2)%nat)
    by (done || bounds || len).
  rewrite !res_bind_val; cbn [rows trailing].
  rewrite (flow_assign_exact (Some (hi - 2)) _ _ _ R S _ _ p2 (p2 + 1)%nat)
    by (done || bounds || len).
  rewrite !res_bind_val; cbn [rows trailing].
  rewrite (flow_assign_exact _ None _ _ R S _ _ (2 * p2 + q + 2)%nat q)
    by (done || bounds || len).
  rewrite !res_bind_val; cbn [rows trailing].
  rewrite (flow_assign_exact _ (Some _) _ _ R S _ _ (2 * p2 + 1)%nat q)
    by (done || bounds || len).
  rewrite !res_bind_val; cbn [rows trailing flow_reverse flow_neg].
  change (Np.splice (2 * p2 + 1) q _ _) with (staggered_segments p2 q R S nusp xs).
  unfold flow_row, flow_set_row; cbn [rows trailing].
  rewrite getitem_inside by lia.
  replace (Z.to_nat (2 * hi - 4)) with (2 * p2)%nat by lia.
  rewrite Hv; cbn [or_raise]. rewrite res_bind_val.
  rewrite setitem_inside by lia. cbn [or_raise]. rewrite res_bind_val.
  replace (Z.to_nat (2 * hi - 3)) with (2 * p2 + 1)%nat by lia.
  reflexivity.
Qed.

(** ** The cell-centred reflection *)

Section CentredSegments.
Context {A : Type} `{Slab A}.
Variables (p q : nat) (tsh : list nat) (xs : list A).
Hypothesis Hlen : length xs = (p + q + 2)%nat.
Hypothesis Hpq : (1 <= p + q)%nat.

Lemma centred_rows_length : length (centred_rows p q tsh xs) = (2 * p + 2 * q)%nat.
Proof. unfold centred_rows. len. Qed.

Lemma centred_lower_inner :
  Np.window 0 p (centred_rows p q tsh xs) = Np.window 0 p xs.
Proof.
  unfold centred_rows.
  rewrite !window_splice_frame by len.
  apply list_eq; intros i.
  destruct (decide (i < p)%nat).
  - rewrite !lookup_window by done.
    rewrite (lookup_splice_inside 0 (p + 1)) by len.
    rewrite lookup_window by lia. done.
  - unfold Np.window. now rewrite !lookup_take_ge by lia.
Qed.

Lemma centred_upper_inner :
  Np.window p p (centred_rows p q tsh xs) = reverse (Np.window 0 p xs).
Proof.
  unfold centred_rows.
  rewrite !window_splice_frame by len.
  now rewrite window_splice_same by len.
Qed.

Lemma centred_upper_outer :
  Np.window (2 * p) q (centred_rows p q tsh xs) = reverse (Np.window (p + 2) q xs).
Proof. unfold centred_rows. now rewrite window_splice_same by len. Qed.

Lemma centred_lower_outer :
  Np.window (2 * p + q) q (centred_rows p q tsh xs) = Np.window (p + 2) q xs.
Proof.
  unfold centred_rows.
  rewrite window_splice_frame by len.
  now rewrite window_splice_same by len.
Qed.
End CentredSegments.

Lemma reflect_centred_accepts {A} `{Slab A} half_nx half_inner half_outer
    (F : ndarray A) :
  consistent half_nx half_inner half_outer (length (rows F)) ->
  trailing F <> [] ->
  reflect_centred half_nx half_inner half_outer F
  = Val (mk_ndarray (trailing F)
           (centred_rows (Z.to_nat (half_inner - 1)) (Z.to_nat (half_outer - 1))
              (trailing F) (rows F))).
Proof.
  intros (Hnx & Hi & Ho & Hn & Hsum) Hdim.
  destruct F as [tsh xs]; cbn [rows trailing] in *.
  destruct tsh as [|d tsh]; [done|].
  set (p := Z.to_nat (half_inner - 1)). set (q := Z.to_nat (half_outer - 1)).
  replace half_nx with (Z.of_nat (p + q)) by lia.
  replace half_inner with (Z.of_nat p + 1) by lia.
  replace half_outer with (Z.of_nat q + 1) by lia.
  apply reflect_centred_rows; lia.
Qed.

(** C1, as the code has it: for a cell-centred field whose poloidal extent
    is consistent with the half mesh, the reflected array reproduces rows
    [0, half_inner - 1) of the field in place and, from row
    [full_inner + half_outer - 1] to the end, rows [half_inner + 1, end).
    Row [half_inner - 1] is not the field's row [half_inner - 1]: the
    mirrored copy that follows overwrites it with row [half_inner - 2]. *)
Theorem reflect_centred_legs {A} `{Slab A} half_nx half_inner half_outer
    (F : ndarray A) :
  consistent half_nx half_inner half_outer (length (rows F)) ->
  trailing F <> [] ->
  exists G,
    reflect_centred half_nx half_inner half_outer F = Val G /\
    Np.getslice None (Some (half_inner - 1)) (rows G)
      = Np.getslice None (Some (half_inner - 1)) (rows F) /\
    Np.getslice (Some (full_inner half_inner + half_outer - 1)) None (rows G)
      = Np.getslice (Some (half_inner + 1)) None (rows F) /\
    (2 <= half_inner ->
     Np.getitem (half_inner - 1) (rows G) = Np.getitem (half_inner - 2) (rows F)).
Proof.
  intros Hmesh Hdim. eexists; split; [now apply reflect_centred_accepts|].
  destruct Hmesh as (Hnx & Hi & Ho & Hn & Hsum).
  set (p := Z.to_nat (half_inner - 1)). set (q := Z.to_nat (half_outer - 1)).
  assert (Hlen : length (rows F) = (p + q + 2)%nat) by lia.
  pose proof (centred_rows_length p q (trailing F) (rows F) Hlen ltac:(lia)) as HG.
  unfold full_inner; cbn [rows]. repeat split.
  - rewrite (getslice_exact _ _ _ 0%nat p), (getslice_exact _ _ (rows F) 0%nat p)
      by bounds.
    apply centred_lower_inner; lia.
  - rewrite (getslice_exact _ _ _ (2 * p + q)%nat q),
      (getslice_exact _ _ (rows F) (p + 2)%nat q) by bounds.
    apply centred_lower_outer; lia.
  - intros Hi2. rewrite !getitem_inside by lia.
    replace (Z.to_nat (half_inner - 1)) with (p + 0)%nat by lia.
    rewrite <- (lookup_window p p) by lia.
    rewrite centred_upper_inner by lia.
    rewrite reverse_lookup by len.
    rewrite lookup_window by len. f_equal. len.
Qed.

(** C2: the output rows [half_inner - 1, 2 * half_inner - 2) are rows
    [0, half_inner - 1) of the field in reversed order, the output rows
    [full_inner, full_inner + half_outer - 1) are rows [half_inner + 1, end)
    in reversed order; rows are copied whole, with their trailing extents. *)
Theorem reflect_centred_mirror {A} `{Slab A} half_nx half_inner half_outer
    (F : ndarray A) :
  consistent half_nx half_inner half_outer (length (rows F)) ->
  trailing F <> [] ->
  exists G,
    reflect_centred half_nx half_inner half_outer F = Val G /\
    Np.getslice (Some (half_inner - 1)) (Some (2 * half_inner - 2)) (rows G)
      = reverse (Np.getslice None (Some (half_inner - 1)) (rows F)) /\
    Np.getslice (Some (full_inner half_inner))
        (Some (full_inner half_inner + half_outer - 1)) (rows G)
      = reverse (Np.getslice (Some (half_inner + 1)) None (rows F)) /\
    length (Np.getslice None (Some (half_inner - 1)) (rows F))
      = Z.to_nat (half_inner - 1) /\
    length (Np.getslice (Some (half_inner + 1)) None (rows F))
      = Z.to_nat (half_outer - 1) /\
    trailing G = trailing F.
Proof.
  intros Hmesh Hdim. eexists; split; [now apply reflect_centred_accepts|].
  destruct Hmesh as (Hnx & Hi & Ho & Hn & Hsum).
  set (p := Z.to_nat (half_inner - 1)). set (q := Z.to_nat (half_outer - 1)).
  assert (Hlen : length (rows F) = (p + q + 2)%nat) by lia.
  pose proof (centred_rows_length p q (trailing F) (rows F) Hlen ltac:(lia)) as HG.
  unfold full_inner; cbn [rows trailing].
  rewrite (getslice_exact _ _ _ p p), (getslice_exact _ _ (rows F) 0%nat p),
    (getslice_exact _ _ _ (2 * p)%nat q), (getslice_exact _ _ (rows F) (p + 2)%nat q)
    by bounds.
  repeat split.
  - apply centred_upper_inner; lia.
  - apply centred_upper_outer; lia.
  - len.
  - len.
Qed.

(** ** Shapes of the reflected arrays *)

Ltac res_cases H :=
  cbv [mbind res_bind] in H;
  repeat match type of H with
    | context [match ?r with Val _ => _ | Exc _ => _ end] =>
        destruct r eqn:?; [cbv beta iota in H | discriminate H]
    end.

Section Preservation.
Context {A : Type} (P : A -> Prop).
Implicit Types xs rhs : list A.

Lemma Forall_window lo cnt xs : Forall P xs -> Forall P (Np.window lo cnt xs).
Proof. intros. unfold Np.window. now apply Forall_take, Forall_drop. Qed.

Lemma Forall_getslice start stop xs :
  Forall P xs -> Forall P (Np.getslice start stop xs).
Proof.
  intros. unfold Np.getslice.
  destruct (Np.slice_bounds (length xs) start stop). now apply Forall_window.
Qed.

Lemma Forall_splice lo cnt rhs xs :
  Forall P rhs -> Forall P xs -> Forall P (Np.splice lo cnt rhs xs).
Proof.
  intros. unfold Np.splice.
  rewrite !Forall_app. auto using Forall_take, Forall_drop.
Qed.

Lemma Forall_broadcast_rows cnt rhs r :
  Np.broadcast_rows cnt rhs = Some r -> Forall P rhs -> Forall P r.
Proof.
  unfold Np.broadcast_rows. destruct (length rhs =? cnt)%nat.
  - now intros [= <-].
  - destruct rhs as [|x [|]]; try done. intros [= <-] Hx.
    apply Forall_replicate. now inversion Hx.
Qed.

Lemma Forall_setslice start stop rhs xs ys :
  Np.setslice start stop rhs xs = Some ys ->
  Forall P rhs -> Forall P xs -> Forall P ys.
Proof.
  unfold Np.setslice. destruct (Np.slice_bounds (length xs) start stop) as [lo cnt].
  destruct (Np.broadcast_rows cnt rhs) eqn:Hb; [|done].
  intros [= <-] ? ?. eauto using Forall_splice, Forall_broadcast_rows.
Qed.

Lemma Forall_stretch dst xs : Forall P xs -> Forall P (stretch dst xs).
Proof.
  intros Hxs. unfold stretch. destruct (length xs =? dst)%nat; [done|].
  destruct xs; [done|]. apply Forall_replicate. now inversion Hxs.
Qed.

Lemma Forall_setitem i (x : A) xs ys :
  Np.setitem i x xs = Some ys -> P x -> Forall P xs -> Forall P ys.
Proof.
  unfold Np.setitem. destruct (Np.index (length xs) i); [|done].
  intros [= <-] ? ?. now apply Forall_insert.
Qed.

Lemma Forall_getitem i x xs :
  Np.getitem i xs = Some x -> Forall P xs -> P x.
Proof.
  unfold Np.getitem. destruct (Np.index (length xs) i); [|done].
  intros Hx Hxs. eapply Forall_lookup_1; eauto.
Qed.
End Preservation.

Lemma setitem_length {A} i (x : A) xs ys :
  Np.setitem i x xs = Some ys -> length ys = length xs.
Proof.
  unfold Np.setitem. destruct (Np.index (length xs) i); [|done].
  intros [= <-]. apply length_insert.
Qed.

Lemma rows_slice_Forall {A} (P : A -> Prop) start stop (a : ndarray A) v :
  rows_slice start stop a = Val v -> Forall P (rows a) -> Forall P v.
Proof.
  unfold rows_slice. destruct (trailing a); [done|].
  intros [= <-]. apply Forall_getslice.
Qed.

Lemma rows_assign_shape {A} start stop (rhs : list A) (a b : ndarray A) :
  rows_assign start stop rhs a = Val b ->
  length (rows b) = length (rows a) /\ trailing b = trailing a.
Proof.
  unfold rows_assign. destruct (trailing a) eqn:Ht; [done|].
  destruct (Np.setslice start stop rhs (rows a)) eqn:Hs; [|done].
  intros [= <-]; cbn. eauto using setslice_length.
Qed.

Lemma rows_assign_Forall {A} (P : A -> Prop) start stop (rhs : list A) (a b : ndarray A) :
  rows_assign start stop rhs a = Val b ->
  Forall P rhs -> Forall P (rows a) -> Forall P (rows b).
Proof.
  unfold rows_assign. destruct (trailing a) eqn:Ht; [done|].
  destruct (Np.setslice start stop rhs (rows a)) eqn:Hs; [|done].
  intros [= <-]; cbn. eauto using Forall_setslice.
Qed.

Lemma reflect_centred_shape {A} `{Slab A} half_nx half_inner half_outer
    (F G : ndarray A) :
  reflect_centred half_nx half_inner half_outer F = Val G ->
  Z.of_nat (length (rows G)) = 2 * half_nx /\
  trailing G = trailing F /\
  Forall (fun row => row ∈ rows F \/ row = zeros (trailing F)) (rows G).
Proof.
  intros Hrun. unfold reflect_centred, np_zeros in Hrun.
  destruct (Z.ltb_spec (2 * half_nx) 0); [done|].
  res_cases Hrun. injection Hrun as <-.
  set (P := fun row : A => row ∈ rows F \/ row = zeros (trailing F)).
  assert (HF : Forall P (rows F)) by (apply Forall_forall; intros; now left).
  repeat match goal with
    | Hs : rows_slice _ _ _ = Val _ |- _ =>
        apply (rows_slice_Forall P) in Hs; [|exact HF]
    end.
  assert (Hz : Forall P (rows (mk_ndarray (trailing F)
                 (replicate (Z.to_nat (2 * half_nx)) (zeros (trailing F))))))
    by (apply Forall_replicate; now right).
  repeat match goal with
    | Ha : rows_assign _ _ ?rhs ?a = Val ?b, Hx : Forall P (rows ?a) |- _ =>
        pose proof (rows_assign_shape _ _ _ _ _ Ha) as [? ?];
        assert (Forall P (rows b))
          by (apply (rows_assign_Forall P _ _ _ _ _ Ha);
              [first [assumption | apply Forall_reverse; assumption] | assumption]);
        clear Ha Hx
    end.
  cbn [rows trailing] in *. rewrite ?length_replicate in *.
  repeat split; [lia | congruence | assumption].
Qed.

Lemma stretch_length {A} (dst : nat) (xs : list A) :
  compatible (length xs) dst = true -> length (stretch dst xs) = dst.
Proof.
  unfold compatible, stretch. destruct (Nat.eqb_spec (length xs) dst); [done|].
  cbn. destruct (Nat.eqb_spec (length xs) 1); [|done].
  destruct xs as [|x [|]]; try done. intros _. apply length_replicate.
Qed.

Lemma stretch_row_shaped r s r_dst s_dst row :
  compatible r r_dst = true -> compatible s s_dst = true ->
  row_shaped r s row -> row_shaped r_dst s_dst (stretch_row r_dst s_dst row).
Proof.
  intros Hr Hs [Hlen Hlines]. unfold stretch_row. split.
  - apply stretch_length. now rewrite length_map, Hlen.
  - apply Forall_stretch, List.Forall_map.
    eapply Forall_impl; [exact Hlines|]. cbn. intros line <-.
    now apply stretch_length.
Qed.

Lemma getslice_length {A} start stop (xs : list A) :
  length (Np.getslice start stop xs) = snd (Np.slice_bounds (length xs) start stop).
Proof.
  unfold Np.getslice.
  pose proof (slice_bounds_inside (length xs) start stop) as Hin.
  destruct (Np.slice_bounds (length xs) start stop) as [lo cnt].
  cbn [fst snd] in *. apply length_window. lia.
Qed.

Lemma crop_shaped r s nusp row :
  row_shaped r s row ->
  row_shaped r (snd (Np.slice_bounds s None (Some nusp))) (crop nusp row).
Proof.
  intros [Hlen Hlines]. unfold crop. split; [now rewrite length_map|].
  apply List.Forall_map. eapply Forall_impl; [exact Hlines|]. cbn beta.
  intros line <-. apply getslice_length.
Qed.

Lemma negate_shaped r s row : row_shaped r s row -> row_shaped r s (negate row).
Proof.
  intros [Hlen Hlines]. unfold negate. split; [now rewrite length_map|].
  apply List.Forall_map. eapply Forall_impl; [exact Hlines|]. cbn.
  intros line <-. apply length_map.
Qed.

Lemma zeros_shaped r s : row_shaped r s (zeros [r; s]).
Proof.
  split; [apply length_replicate|]. apply Forall_replicate, length_replicate.
Qed.

Lemma flow_zeros_shape n r s (a : flow) :
  flow_zeros n r s = Val a ->
  Z.of_nat (length (rows a)) = n /\ trailing a = [Z.to_nat r; Z.to_nat s] /\
  well_shaped a.
Proof.
  unfold flow_zeros, np_zeros.
  destruct (Z.ltb_spec n 0), (Z.ltb_spec r 0), (Z.ltb_spec s 0); try done.
  intros [= <-]. unfold well_shaped; cbn. rewrite length_replicate.
  repeat split; [lia|]. apply Forall_replicate, zeros_shaped.
Qed.

Lemma flow_slice_shaped start stop nusp (a v : flow) :
  flow_slice start stop nusp a = Val v -> well_shaped a -> well_shaped v.
Proof.
  unfold flow_slice, well_shaped.
  destruct (trailing a) as [|r [|s [|]]]; try done.
  intros [= <-] Ha; cbn. apply List.Forall_map.
  eapply Forall_impl; [apply Forall_getslice; exact Ha|]. apply crop_shaped.
Qed.

Lemma flow_neg_shaped (a : flow) : well_shaped a -> well_shaped (flow_neg a).
Proof.
  unfold well_shaped, flow_neg; cbn.
  destruct (trailing a) as [|r [|s [|]]]; try done.
  intros Ha. apply List.Forall_map.
  eapply Forall_impl; [exact Ha|]. apply negate_shaped.
Qed.

Lemma flow_reverse_shaped (a : flow) : well_shaped a -> well_shaped (flow_reverse a).
Proof.
  unfold well_shaped, flow_reverse; cbn.
  destruct (trailing a) as [|r [|s [|]]]; try done.
  apply Forall_reverse.
Qed.

Lemma flow_assign_shape start stop (rhs a b : flow) :
  flow_assign start stop rhs a = Val b ->
  length (rows b) = length (rows a) /\ trailing b = trailing a /\
  (well_shaped rhs -> well_shaped a -> well_shaped b).
Proof.
  unfold flow_assign, well_shaped.
  destruct (trailing a) as [|r_dst [|s_dst [|]]] eqn:Ha; try done.
  destruct (trailing rhs) as [|r [|s [|]]] eqn:Hr; try done.
  destruct (compatible r r_dst) eqn:Hcr; [|done].
  destruct (compatible s s_dst) eqn:Hcs; [|done]. cbn [andb].
  destruct (Np.setslice _ _ _ _) as [rs|] eqn:Hs; [|done].
  intros [= <-]; cbn. rewrite ?Ha.
  repeat split; [eauto using setslice_length|].
  intros Hrhs Hrows. eapply Forall_setslice; [exact Hs| |exact Hrows].
  apply List.Forall_map. eapply Forall_impl; [exact Hrhs|].
  intros row. now apply stretch_row_shaped.
Qed.

Lemma flow_set_row_shape i (v : list (list Q)) (a b upss : flow) :
  flow_row i upss = Val v -> flow_set_row (i + 1) v a = Val b ->
  trailing upss = trailing a ->
  length (rows b) = length (rows a) /\ trailing b = trailing a /\
  (well_shaped upss -> well_shaped a -> well_shaped b).
Proof.
  unfold flow_row, flow_set_row, well_shaped. intros Hv Hb Ht. rewrite Ht in *.
  destruct (trailing a) as [|r [|s [|]]] eqn:Ha; try done.
  destruct (Np.getitem i (rows upss)) eqn:Hg; [|done]. injection Hv as ->.
  destruct (Np.setitem (i + 1) v (rows a)) eqn:Hs; [|done].
  injection Hb as <-; cbn. rewrite ?Ha.
  repeat split; [eauto using setitem_length|].
  intros Hu Hrows. eapply Forall_setitem; eauto.
  eapply Forall_getitem; eauto.
Qed.

Lemma reflect_staggered_shape half_nx half_ny half_inner half_outer
    (ups : flow) (nusp : Z) (V : flow) :
  reflect_staggered half_nx half_ny half_inner half_outer ups nusp = Val V ->
  Z.of_nat (length (rows V)) = 2 * half_nx /\
  trailing V = [Z.to_nat (half_ny + 2); Z.to_nat nusp] /\
  (well_shaped ups -> well_shaped V).
Proof.
  intros Hrun. rewrite reflect_staggered_steps in Hrun.
  res_cases Hrun. injection Hrun as <-.
  match goal with Hz : flow_zeros _ _ _ = Val _ |- _ =>
    apply flow_zeros_shape in Hz; destruct Hz as (? & ? & ?) end.
  repeat match goal with
    | Ha : flow_assign _ _ _ _ = Val _ |- _ =>
        apply flow_assign_shape in Ha; destruct Ha as (? & ? & ?)
    end.
  replace (2 * half_inner - 3) with (2 * half_inner - 4 + 1) in * by lia.
  match goal with
    Hv : flow_row _ ?u = Val _, Hs : flow_set_row _ _ ?u = Val _ |- _ =>
      destruct (flow_set_row_shape _ _ _ _ _ Hv Hs eq_refl) as (? & ? & ?) end.
  repeat split; [lia | congruence |].
  intros Hups.
  repeat match goal with
    | Hs : flow_slice _ _ _ ups = Val _ |- _ =>
        apply flow_slice_shaped in Hs; [|exact Hups]
    end.
  auto 20 using flow_neg_shaped, flow_reverse_shaped.
Qed.

(** ** The staggered reflection *)

Section MoreWindows.
Context {A : Type}.
Implicit Types (xs r : list A).

Lemma window_splice_prefix lo cnt r xs a :
  length r = cnt -> (lo <= length xs)%nat -> (a <= cnt)%nat ->
  Np.window lo a (Np.splice lo cnt r xs) = take a r.
Proof.
  intros Hr Hlo Ha. apply list_eq; intros i.
  destruct (decide (i < a)%nat).
  - rewrite lookup_window, lookup_take_lt by done.
    apply lookup_splice_inside; lia.
  - unfold Np.window. now rewrite !lookup_take_ge by lia.
Qed.

Lemma window_splice_suffix lo cnt r xs k :
  length r = cnt -> (lo <= length xs)%nat -> (k <= cnt)%nat ->
  Np.window (lo + k) (cnt - k) (Np.splice lo cnt r xs) = drop k r.
Proof.
  intros Hr Hlo Hk. apply list_eq; intros i.
  destruct (decide (i < cnt - k)%nat).
  - rewrite lookup_window, lookup_drop by done.
    replace (lo + k + i)%nat with (lo + (k + i))%nat by lia.
    apply lookup_splice_inside; lia.
  - unfold Np.window. rewrite lookup_take_ge by lia.
    symmetry. apply lookup_ge_None. rewrite length_drop. lia.
Qed.

Lemma window_take lo cnt a xs :
  (a <= cnt)%nat -> take a (Np.window lo cnt xs) = Np.window lo a xs.
Proof. intros. unfold Np.window. rewrite take_take. f_equal. lia. Qed.

Lemma window_map {B} (f : A -> B) lo cnt xs :
  Np.window lo cnt (map f xs) = map f (Np.window lo cnt xs).
Proof. unfold Np.window. now rewrite skipn_map, firstn_map. Qed.
End MoreWindows.

Lemma stretch_exact {A} (dst : nat) (xs : list A) :
  length xs = dst -> stretch dst xs = xs.
Proof. intros. unfold stretch. now rewrite (proj2 (Nat.eqb_eq _ _)). Qed.

Lemma stretch_row_exact r s row : row_shaped r s row -> stretch_row r s row = row.
Proof.
  intros [Hlen Hlines]. unfold stretch_row.
  assert (map (stretch s) row = row) as ->.
  { clear Hlen. induction Hlines as [|line row Hline _ IH]; [done|].
    cbn. now rewrite IH, stretch_exact. }
  now apply stretch_exact.
Qed.

Lemma fit_exact r s (l : list (list (list Q))) :
  Forall (row_shaped r s) l -> map (stretch_row r s) l = l.
Proof.
  induction 1 as [|row l Hrow _ IH]; [done|].
  cbn. now rewrite IH, stretch_row_exact.
Qed.

Lemma crop_fits r s nusp row :
  0 <= nusp <= Z.of_nat s ->
  row_shaped r s row -> row_shaped r (Z.to_nat nusp) (crop nusp row).
Proof.
  intros Hn Hrow. apply (crop_shaped _ _ nusp) in Hrow.
  now rewrite slice_bounds_none_some in Hrow by lia.
Qed.

Lemma src_fits r s nusp lo cnt (xs : list (list (list Q))) :
  0 <= nusp <= Z.of_nat s -> Forall (row_shaped r s) xs ->
  Forall (row_shaped r (Z.to_nat nusp)) (source_rows nusp xs lo cnt).
Proof.
  intros Hn Hxs. apply List.Forall_map.
  apply (Forall_window _ lo cnt) in Hxs.
  eapply Forall_impl; [exact Hxs|]. intros row. now apply crop_fits.
Qed.

Lemma mirror_fits r s (l : list (list (list Q))) :
  Forall (row_shaped r s) l -> Forall (row_shaped r s) (reverse (map negate l)).
Proof.
  intros Hl. apply Forall_reverse, List.Forall_map.
  eapply Forall_impl; [exact Hl|]. intros row. apply negate_shaped.
Qed.

(** For a well-shaped source nothing is stretched. *)
Lemma staggered_segments_plain p2 q r s nusp (xs : list (list (list Q))) :
  0 <= nusp <= Z.of_nat s -> Forall (row_shaped r s) xs ->
  staggered_segments p2 q r (Z.to_nat nusp) nusp xs = staggered_plain p2 q r nusp xs.
Proof.
  intros Hn Hxs. unfold staggered_segments, staggered_plain. cbv zeta beta.
  now rewrite !fit_exact by eauto using src_fits, mirror_fits.
Qed.

(** The layout of the four staggered copies, whatever is copied. *)
Section StaggeredLayout.
Context {A : Type}.
Variables (p2 q : nat) (r1 r2 r3 r4 z : list A).
Hypothesis Hz : length z = (2 * p2 + 2 * q + 2)%nat.
Hypothesis H1 : length r1 = (p2 + 2)%nat.
Hypothesis H2 : length r2 = (p2 + 1)%nat.
Hypothesis H3 : length r3 = q.
Hypothesis H4 : length r4 = q.

Lemma laid_length :
  length (laid_out p2 q r1 r2 r3 r4 z) = (2 * p2 + 2 * q + 2)%nat.
Proof. unfold laid_out. len. Qed.

Lemma laid_lower_inner :
  Np.window 0 p2 (laid_out p2 q r1 r2 r3 r4 z) = take p2 r1.
Proof.
  unfold laid_out.
  rewrite !window_splice_frame by len.
  apply window_splice_prefix; len.
Qed.

Lemma laid_inner_mirror :
  Np.window p2 (p2 + 1) (laid_out p2 q r1 r2 r3 r4 z) = r2.
Proof.
  unfold laid_out.
  rewrite !window_splice_frame by len.
  apply window_splice_same; len.
Qed.

Lemma laid_outer_mirror :
  Np.window (2 * p2 + 1) q (laid_out p2 q r1 r2 r3 r4 z) = r4.
Proof. unfold laid_out. apply window_splice_same; len. Qed.

Lemma laid_lower_outer :
  Np.window (2 * p2 + q + 2) q (laid_out p2 q r1 r2 r3 r4 z) = r3.
Proof.
  unfold laid_out.
  rewrite window_splice_frame by len.
  apply window_splice_same; len.
Qed.

Lemma laid_boundary : laid_out p2 q r1 r2 r3 r4 z !! (2 * p2)%nat = r2 !! p2.
Proof.
  pose proof laid_inner_mirror as Hm.
  apply (f_equal (fun l => l !! p2)) in Hm.
  rewrite lookup_window in Hm by lia.
  now replace (p2 + p2)%nat with (2 * p2)%nat in Hm by lia.
Qed.

(** The row between the outer mirror and the lower outer leg is written
    by no copy when the outer half has an interior. *)
Lemma laid_gap :
  (1 <= q)%nat ->
  laid_out p2 q r1 r2 r3 r4 z !! (2 * p2 + q + 1)%nat = z !! (2 * p2 + q + 1)%nat.
Proof.
  intros Hq. unfold laid_out.
  rewrite lookup_splice_after by len.
  rewrite lookup_splice_before by len.
  rewrite lookup_splice_after by len.
  apply lookup_splice_after; len.
Qed.
End StaggeredLayout.

Lemma compatible_refl n : compatible n n = true.
Proof. unfold compatible. now rewrite Nat.eqb_refl. Qed.

Lemma flow_fits_inv half_ny nusp (ups : flow) :
  flow_fits half_ny nusp ups ->
  exists s, trailing ups = [Z.to_nat (half_ny + 2); s] /\
            0 <= half_ny + 2 /\ 0 <= nusp <= Z.of_nat s /\
            Forall (row_shaped (Z.to_nat (half_ny + 2)) s) (rows ups).
Proof.
  unfold flow_fits, well_shaped. intros (Hny & Hn & Hw & Ht).
  destruct (trailing ups) as [|r [|s [|]]]; try done.
  destruct Ht as [-> Hs]. exists s. repeat split; (done || lia).
Qed.

Lemma reflect_staggered_accepts half_nx half_ny half_inner half_outer
    (ups : flow) (nusp : Z) :
  consistent half_nx half_inner half_outer (length (rows ups)) ->
  2 <= half_inner ->
  flow_fits half_ny nusp ups ->
  let p2 := Z.to_nat (half_inner - 2) in
  let q := Z.to_nat (half_outer - 1) in
  let laid := staggered_segments p2 q (Z.to_nat (half_ny + 2)) (Z.to_nat nusp)
                nusp (rows ups) in
  exists v,
    laid !! (2 * p2)%nat = Some v /\
    reflect_staggered half_nx half_ny half_inner half_outer ups nusp
    = Val (mk_ndarray [Z.to_nat (half_ny + 2); Z.to_nat nusp]
             (<[(2 * p2 + 1)%nat := v]> laid)).
Proof.
  intros (Hnx & Hi & Ho & Hn & Hsum) Hi2 Hfits p2 q laid.
  destruct (flow_fits_inv _ _ _ Hfits) as (s & Ht & Hny & Hnusp & Hrows).
  destruct ups as [tsh xs]; cbn [rows trailing] in *. subst tsh.
  replace half_nx with (Z.of_nat (p2 + q + 1)) by lia.
  replace half_inner with (Z.of_nat p2 + 2) by lia.
  replace half_outer with (Z.of_nat q + 1) by lia.
  apply reflect_staggered_rows; try lia.
  - apply compatible_refl.
  - rewrite slice_bounds_none_some by lia. apply compatible_refl.
Qed.

Lemma crop_positive nusp row : positive_row row -> positive_row (crop nusp row).
Proof.
  intros Hrow. apply List.Forall_map.
  eapply Forall_impl; [exact Hrow|]. intros line. apply Forall_getslice.
Qed.

Lemma negate_negative row : positive_row row -> negative_row (negate row).
Proof.
  intros Hrow. apply List.Forall_map.
  eapply Forall_impl; [exact Hrow|]. intros line Hline. apply List.Forall_map.
  eapply Forall_impl; [exact Hline|]. intros x Hx.
  now apply (Qopp_lt_compat 0 x).
Qed.

Lemma src_positive nusp lo cnt (xs : list (list (list Q))) :
  Forall positive_row xs -> Forall positive_row (source_rows nusp xs lo cnt).
Proof.
  intros Hxs. apply List.Forall_map.
  apply (Forall_window _ lo cnt) in Hxs.
  eapply Forall_impl; [exact Hxs|]. intros row. apply crop_positive.
Qed.

Lemma mirror_negative (l : list (list (list Q))) :
  Forall positive_row l -> Forall negative_row (reverse (map negate l)).
Proof.
  intros Hl. apply Forall_reverse, List.Forall_map.
  eapply Forall_impl; [exact Hl|]. intros row. apply negate_negative.
Qed.

(** The corrected rows, for a well-shaped source. *)
Section StaggeredResult.
Variables (p2 q r : nat) (nusp : Z) (xs : list (list (list Q))).
Hypothesis Hlen : length xs = (p2 + q + 3)%nat.
Variable v : list (list Q).
Hypothesis Hv : staggered_plain p2 q r nusp xs !! (2 * p2)%nat = Some v.

Lemma staggered_rows_length :
  length (staggered_rows p2 q r nusp xs v) = (2 * p2 + 2 * q + 2)%nat.
Proof.
  unfold staggered_rows, staggered_plain. rewrite length_insert.
  apply laid_length; len.
Qed.

Lemma out_lower_inner :
  Np.window 0 p2 (staggered_rows p2 q r nusp xs v) = source_rows nusp xs 0 p2.
Proof.
  unfold staggered_rows, staggered_plain. rewrite window_insert_frame by lia.
  rewrite laid_lower_inner by len.
  unfold source_rows. rewrite firstn_map. f_equal. apply window_take. lia.
Qed.

Lemma out_inner_mirror :
  Np.window p2 (p2 + 1) (staggered_rows p2 q r nusp xs v)
  = reverse (map negate (source_rows nusp xs 0 (p2 + 1))).
Proof.
  unfold staggered_rows, staggered_plain. rewrite window_insert_frame by lia.
  apply laid_inner_mirror; len.
Qed.

Lemma out_lower_outer :
  Np.window (2 * p2 + q + 2) q (staggered_rows p2 q r nusp xs v)
  = source_rows nusp xs (p2 + 3) q.
Proof.
  unfold staggered_rows, staggered_plain. rewrite window_insert_frame by lia.
  apply laid_lower_outer; len.
Qed.

Lemma out_outer_mirror_tail :
  Np.window (2 * p2 + 2) (q - 1) (staggered_rows p2 q r nusp xs v)
  = drop 1 (reverse (map negate (source_rows nusp xs (p2 + 3) q))).
Proof.
  unfold staggered_rows, staggered_plain. rewrite window_insert_frame by lia.
  unfold laid_out.
  replace (2 * p2 + 2)%nat with (2 * p2 + 1 + 1)%nat by lia.
  destruct q as [|q'].
  - unfold Np.window. cbn. now rewrite take_0.
  - apply window_splice_suffix; len.
Qed.

Lemma boundary_row_negative : Forall positive_row xs -> negative_row v.
Proof.
  intros Hpos. unfold staggered_plain in Hv.
  rewrite laid_boundary in Hv by len.
  eapply Forall_lookup_1; [|exact Hv].
  apply mirror_negative, src_positive, Hpos.
Qed.

Lemma out_outer_mirror_negative :
  Forall positive_row xs ->
  Forall negative_row (Np.window (2 * p2 + 1) q (staggered_rows p2 q r nusp xs v)).
Proof.
  intros Hpos. apply Forall_lookup_2. intros i row Hrow.
  assert (i < q)%nat as Hi.
  { apply lookup_lt_Some in Hrow. unfold Np.window in Hrow.
    rewrite length_take in Hrow. lia. }
  rewrite lookup_window in Hrow by done.
  unfold staggered_rows, staggered_plain in Hrow.
  destruct (decide (i = 0%nat)) as [->|Hne].
  - rewrite Nat.add_0_r, list_lookup_insert_eq in Hrow
      by (rewrite laid_length; len).
    injection Hrow as <-. now apply boundary_row_negative.
  - rewrite list_lookup_insert_ne in Hrow by lia.
    rewrite <- (lookup_window _ q) in Hrow by done.
    rewrite laid_outer_mirror in Hrow by len.
    eapply Forall_lookup_1; [|exact Hrow].
    apply mirror_negative, src_positive, Hpos.
Qed.

Lemma out_gap :
  (1 <= q)%nat ->
  staggered_rows p2 q r nusp xs v !! (2 * p2 + q + 1)%nat
  = Some (zeros [r; Z.to_nat nusp]).
Proof.
  intros Hq. unfold staggered_rows, staggered_plain.
  rewrite list_lookup_insert_ne by lia.
  rewrite laid_gap by len.
  apply lookup_replicate_2. lia.
Qed.

(** The corrected boundary row and the row it is copied from. *)
Lemma out_boundary : staggered_rows p2 q r nusp xs v !! (2 * p2 + 1)%nat = Some v.
Proof.
  unfold staggered_rows. apply list_lookup_insert_eq.
  unfold staggered_plain. rewrite laid_length; len.
Qed.

Lemma out_boundary_source : staggered_rows p2 q r nusp xs v !! (2 * p2)%nat = Some v.
Proof. unfold staggered_rows. now rewrite list_lookup_insert_ne by lia. Qed.

(** The boundary row is the negated first row of the source. *)
Lemma boundary_row_value (row0 : list (list Q)) :
  head xs = Some row0 -> v = negate (crop nusp row0).
Proof.
  intros Hhead. pose proof Hv as Hv'. unfold staggered_plain in Hv'.
  rewrite laid_boundary in Hv' by len.
  rewrite reverse_lookup in Hv' by len.
  replace (length (map negate (source_rows nusp xs 0 (p2 + 1))) - S p2)%nat
    with 0%nat in Hv' by len.
  destruct xs as [|x rest]; [done|]. injection Hhead as ->.
  unfold source_rows, Np.window in Hv'.
  replace (p2 + 1)%nat with (S p2) in Hv' by lia. cbn in Hv'. congruence.
Qed.

(** The last two rows of the lower inner leg hold negated values. *)
Lemma out_overlap_negative :
  Forall positive_row xs ->
  exists r1 r2,
    staggered_rows p2 q r nusp xs v !! p2 = Some r1 /\
    staggered_rows p2 q r nusp xs v !! (p2 + 1)%nat = Some r2 /\
    negative_row r1 /\ negative_row r2.
Proof.
  intros Hpos.
  pose proof out_inner_mirror as Him.
  assert (Hneg : Forall negative_row
                   (Np.window p2 (p2 + 1) (staggered_rows p2 q r nusp xs v))).
  { rewrite Him. now apply mirror_negative, src_positive. }
  assert (Hin : forall i, (i < p2 + 1)%nat ->
            exists row, staggered_rows p2 q r nusp xs v !! (p2 + i)%nat = Some row /\
                        negative_row row).
  { intros i Hi.
    destruct (lookup_lt_is_Some_2 (staggered_rows p2 q r nusp xs v) (p2 + i)%nat)
      as [row Hrow]; [rewrite staggered_rows_length; lia|].
    exists row. split; [done|].
    eapply Forall_lookup_1; [exact Hneg|]. rewrite lookup_window by done. exact Hrow. }
  destruct (Hin 0%nat ltac:(lia)) as (r1 & Hr1 & Hn1).
  rewrite Nat.add_0_r in Hr1.
  destruct (decide (p2 = 0)%nat) as [Hz|Hnz].
  - exists r1, v. repeat split; try done.
    + pose proof out_boundary as Hb. now rewrite Hz in Hb |- *.
    + now apply boundary_row_negative.
  - destruct (Hin 1%nat ltac:(lia)) as (r2 & Hr2 & Hn2).
    now exists r1, r2.
Qed.
End StaggeredResult.

(** What the staggered block returns on a consistent mesh: the corrected
    rows, with the source windows not stretched. *)
Lemma reflect_staggered_result half_nx half_ny half_inner half_outer
    (ups : flow) (nusp : Z) :
  consistent half_nx half_inner half_outer (length (rows ups)) ->
  2 <= half_inner ->
  flow_fits half_ny nusp ups ->
  exists v,
    staggered_plain (Z.to_nat (half_inner - 2)) (Z.to_nat (half_outer - 1))
      (Z.to_nat (half_ny + 2)) nusp (rows ups)
      !! (2 * Z.to_nat (half_inner - 2))%nat = Some v /\
    reflect_staggered half_nx half_ny half_inner half_outer ups nusp
    = Val (mk_ndarray [Z.to_nat (half_ny + 2); Z.to_nat nusp]
             (staggered_rows (Z.to_nat (half_inner - 2)) (Z.to_nat (half_outer - 1))
                (Z.to_nat (half_ny + 2)) nusp (rows ups) v)).
Proof.
  intros Hmesh Hi2 Hfits.
  destruct (reflect_staggered_accepts _ _ _ _ _ _ Hmesh Hi2 Hfits) as (v & Hv & Hrun).
  destruct (flow_fits_inv _ _ _ Hfits) as (s & Ht & Hny & Hnusp & Hrows).
  rewrite (staggered_segments_plain _ _ _ s) in Hv, Hrun by done.
  exists v. split; [exact Hv | exact Hrun].
Qed.

(** C3, as the code has it: for a strictly positive flow field on a
    consistent mesh, every entry of the two mirrored segments, rows
    [half_inner - 2, 2 * half_inner - 3) and rows
    [full_inner - 1, full_inner + half_outer - 2), is strictly negative.
    The first is the negated, reversed source rows [0, half_inner - 1);
    the second is the negated, reversed source rows [half_inner + 1, end)
    from its second row on, its first row, [full_inner - 1], being the
    corrected boundary row: it equals row [2 * half_inner - 4], and both
    are the negated first row of the source.  The source keeps its sign
    only in rows [0, half_inner - 2) and in rows
    [full_inner + half_outer - 1, end): rows [half_inner - 2] and
    [half_inner - 1] of the lower inner leg are overwritten and hold
    negative values. *)
Theorem reflect_staggered_signs half_nx half_ny half_inner half_outer
    (ups : flow) (nusp : Z) :
  consistent half_nx half_inner half_outer (length (rows ups)) ->
  2 <= half_inner ->
  flow_fits half_ny nusp ups ->
  Forall positive_row (rows ups) ->
  let fi := full_inner half_inner in
  exists upss,
    reflect_staggered half_nx half_ny half_inner half_outer ups nusp = Val upss /\
    Forall negative_row
      (Np.getslice (Some (half_inner - 2)) (Some (2 * half_inner - 3)) (rows upss)) /\
    Forall negative_row
      (Np.getslice (Some (fi - 1)) (Some (fi + half_outer - 2)) (rows upss)) /\
    Np.getslice (Some (half_inner - 2)) (Some (2 * half_inner - 3)) (rows upss)
      = reverse (map negate (map (crop nusp)
          (Np.getslice None (Some (half_inner - 1)) (rows ups)))) /\
    Np.getslice (Some fi) (Some (fi + half_outer - 2)) (rows upss)
      = drop 1 (reverse (map negate (map (crop nusp)
          (Np.getslice (Some (half_inner + 1)) None (rows ups))))) /\
    Np.getslice None (Some (half_inner - 2)) (rows upss)
      = map (crop nusp) (Np.getslice None (Some (half_inner - 2)) (rows ups)) /\
    Np.getslice (Some (fi + half_outer - 1)) None (rows upss)
      = map (crop nusp) (Np.getslice (Some (half_inner + 1)) None (rows ups)) /\
    Forall positive_row (Np.getslice None (Some (half_inner - 2)) (rows upss)) /\
    Forall positive_row (Np.getslice (Some (fi + half_outer - 1)) None (rows upss)) /\
    (exists first,
       head (rows ups) = Some first /\
       Np.getitem (fi - 1) (rows upss) = Some (negate (crop nusp first)) /\
       Np.getitem (2 * half_inner - 4) (rows upss) = Some (negate (crop nusp first))) /\
    (exists r1 r2,
       Np.getitem (half_inner - 2) (rows upss) = Some r1 /\
       Np.getitem (half_inner - 1) (rows upss) = Some r2 /\
       negative_row r1 /\ negative_row r2).
Proof.
  intros Hmesh Hi2 Hfits Hpos fi.
  destruct (reflect_staggered_result _ _ _ _ _ _ Hmesh Hi2 Hfits) as (v & Hv & Hrun).
  destruct Hmesh as (Hnx & Hi & Ho & Hn & Hsum).
  set (p2 := Z.to_nat (half_inner - 2)) in *.
  set (q := Z.to_nat (half_outer - 1)) in *.
  set (R := Z.to_nat (half_ny + 2)) in *.
  assert (Hlen : length (rows ups) = (p2 + q + 3)%nat) by lia.
  pose proof (staggered_rows_length p2 q R nusp (rows ups) Hlen v) as Hout.
  pose proof (out_lower_inner p2 q R nusp (rows ups) Hlen v) as Hli.
  pose proof (out_inner_mirror p2 q R nusp (rows ups) Hlen v) as Him.
  pose proof (out_lower_outer p2 q R nusp (rows ups) Hlen v) as Hlo.
  pose proof (out_outer_mirror_tail p2 q R nusp (rows ups) Hlen v) as Hot.
  pose proof (out_outer_mirror_negative p2 q R nusp (rows ups) Hlen v Hv Hpos) as Hon.
  pose proof (out_boundary p2 q R nusp (rows ups) Hlen v) as Hb.
  pose proof (out_boundary_source p2 q R nusp (rows ups) Hlen v Hv) as Hbs.
  pose proof (out_overlap_negative p2 q R nusp (rows ups) Hlen v Hv Hpos)
    as (r1 & r2 & Hr1 & Hr2 & Hn1 & Hn2).
  assert (exists first, head (rows ups) = Some first) as [first Hfirst]
    by (destruct (rows ups); [cbn in Hlen; lia | eauto]).
  pose proof (boundary_row_value p2 q R nusp (rows ups) Hlen v Hv first Hfirst) as Hvv.
  eexists; split; [exact Hrun|]. unfold fi, full_inner.
  change (rows (mk_ndarray ?t ?r)) with r.
  set (out := staggered_rows p2 q R nusp (rows ups) v) in *.
  rewrite !(getitem_inside _ out) by lia.
  replace (Z.to_nat (2 * half_inner - 2 - 1)) with (2 * p2 + 1)%nat by lia.
  replace (Z.to_nat (2 * half_inner - 4)) with (2 * p2)%nat by lia.
  replace (Z.to_nat (half_inner - 1)) with (p2 + 1)%nat by lia.
  fold p2.
  rewrite (getslice_exact (Some (half_inner - 2)) _ out p2 (p2 + 1)%nat) by bounds.
  rewrite (getslice_exact (Some (2 * half_inner - 2 - 1)) _ out (2 * p2 + 1)%nat q)
    by bounds.
  rewrite (getslice_exact (Some (2 * half_inner - 2)) _ out (2 * p2 + 2)%nat (q - 1)%nat)
    by bounds.
  rewrite (getslice_exact None _ out 0%nat p2) by bounds.
  rewrite (getslice_exact _ None out (2 * p2 + q + 2)%nat q) by bounds.
  rewrite (getslice_exact None (Some (half_inner - 1)) (rows ups) 0%nat (p2 + 1)%nat)
    by bounds.
  rewrite (getslice_exact _ None (rows ups) (p2 + 3)%nat q) by bounds.
  rewrite (getslice_exact None (Some (half_inner - 2)) (rows ups) 0%nat p2) by bounds.
  rewrite Hli, Him, Hlo, Hot by exact Hv.
  fold (source_rows nusp (rows ups) 0 (p2 + 1)).
  fold (source_rows nusp (rows ups) (p2 + 3) q).
  fold (source_rows nusp (rows ups) 0 p2).
  repeat (split; [solve [auto using mirror_negative, src_positive]|]).
  split.
  - exists first. rewrite Hb, Hbs, Hvv. done.
  - now exists r1, r2.
Qed.

Lemma index_Some (len : nat) (i : Z) (k : nat) :
  Np.index len i = Some k ->
  (k < len)%nat /\ Z.of_nat k = if i <? 0 then i + Z.of_nat len else i.
Proof.
  unfold Np.index.
  destruct (Z.ltb_spec i 0);
    repeat match goal with
      | |- context [Z.leb ?a ?b] => destruct (Z.leb_spec a b)
      | |- context [Z.ltb ?a ?b] => destruct (Z.ltb_spec a b)
      end; cbn; try done; intros [= <-]; lia.
Qed.

(** The block is the four copies followed by the boundary correction. *)
Lemma reflect_staggered_correction half_nx half_ny half_inner half_outer ups nusp :
  reflect_staggered half_nx half_ny half_inner half_outer ups nusp
  = (before ← staggered_copies half_nx half_ny half_inner half_outer ups nusp;
     v ← flow_row (2 * half_inner - 4) before;
     upss ← flow_set_row (2 * half_inner - 3) v before;
     Val upss).
Proof.
  rewrite reflect_staggered_steps. unfold staggered_copies.
  cbv [mbind res_bind].
  repeat match goal with
    | |- context [match ?r with Val _ => _ | Exc _ => _ end] =>
        lazymatch r with
        | context [match _ with Val _ => _ | Exc _ => _ end] => fail
        | _ => destruct r; try reflexivity
        end
    end.
Qed.

Lemma staggered_copies_rows (p2 q : nat) (ny nusp : Z) (r s : nat)
    (xs : list (list (list Q))) :
  length xs = (p2 + q + 3)%nat ->
  0 <= ny + 2 -> 0 <= nusp ->
  compatible r (Z.to_nat (ny + 2)) = true ->
  compatible (snd (Np.slice_bounds s None (Some nusp))) (Z.to_nat nusp) = true ->
  staggered_copies (Z.of_nat (p2 + q + 1)) ny (Z.of_nat p2 + 2) (Z.of_nat q + 1)
    (mk_ndarray [r; s] xs) nusp
  = Val (mk_ndarray [Z.to_nat (ny + 2); Z.to_nat nusp]
           (staggered_segments p2 q (Z.to_nat (ny + 2)) (Z.to_nat nusp) nusp xs)).
Proof.
  intros Hlen Hny Hnusp Hr Hs.
  unfold staggered_copies, full_inner.
  rewrite flow_zeros_val, res_bind_val by lia.
  replace (Z.to_nat (2 * Z.of_nat (p2 + q + 1))) with (2 * p2 + 2 * q + 2)%nat by lia.
  set (hi := Z.of_nat p2 + 2). set (ho := Z.of_nat q + 1).
  set (R := Z.to_nat (ny + 2)) in *. set (S := Z.to_nat nusp) in *.
  rewrite (flow_slice_exact None (Some hi) _ _ r s 0%nat (p2 + 2)%nat),
    (flow_slice_exact None (Some (hi - 1)) _ _ r s 0%nat (p2 + 1)%nat),
    (flow_slice_exact (Some (hi + 1)) None _ _ r s (p2 + 3)%nat q)
    by (done || bounds).
  rewrite res_bind_val.
  rewrite (flow_assign_exact None (Some hi) _ _ R S _ _ 0%nat (p2 + 2)%nat)
    by (done || bounds || len).
  rewrite !res_bind_val; cbn [rows trailing].
  rewrite (flow_assign_exact (Some (hi - 2)) _ _ _ R S _ _ p2 (p2 + 1)%nat)
    by (done || bounds || len).
  rewrite !res_bind_val; cbn [rows trailing].
  rewrite (flow_assign_exact _ None _ _ R S _ _ (2 * p2 + q + 2)%nat q)
    by (done || bounds || len).
  rewrite !res_bind_val; cbn [rows trailing].
  rewrite (flow_assign_exact _ (Some _) _ _ R S _ _ (2 * p2 + 1)%nat q)
    by (done || bounds || len).
  reflexivity.
Qed.

(** On a consistent mesh the four copies are accepted and leave the
    segments laid out over zeros. *)
Lemma staggered_copies_accepts half_nx half_ny half_inner half_outer
    (ups : flow) (nusp : Z) :
  consistent half_nx half_inner half_outer (length (rows ups)) ->
  2 <= half_inner ->
  flow_fits half_ny nusp ups ->
  staggered_copies half_nx half_ny half_inner half_outer ups nusp
  = Val (mk_ndarray [Z.to_nat (half_ny + 2); Z.to_nat nusp]
           (staggered_segments (Z.to_nat (half_inner - 2)) (Z.to_nat (half_outer - 1))
              (Z.to_nat (half_ny + 2)) (Z.to_nat nusp) nusp (rows ups))).
Proof.
  intros (Hnx & Hi & Ho & Hn & Hsum) Hi2 Hfits.
  destruct (flow_fits_inv _ _ _ Hfits) as (s & Ht & Hny & Hnusp & Hrows).
  destruct ups as [tsh xs]; cbn [rows trailing] in *. subst tsh.
  set (p2 := Z.to_nat (half_inner - 2)). set (q := Z.to_nat (half_outer - 1)).
  replace half_nx with (Z.of_nat (p2 + q + 1)) by lia.
  replace half_inner with (Z.of_nat p2 + 2) by lia.
  replace half_outer with (Z.of_nat q + 1) by lia.
  apply staggered_copies_rows; try lia.
  - apply compatible_refl.
  - rewrite slice_bounds_none_some by lia. apply compatible_refl.
Qed.

(** C4: whenever the staggered block returns, the four segment copies
    returned an array [before], and the result is [before] with row
    [2 * half_inner - 3] overwritten by row [2 * half_inner - 4] of
    [before]: the correction is the last write, nothing else differs, and
    the two rows of the result are equal.  On a consistent mesh [before]
    holds the four segments laid out over zeros. *)
Theorem boundary_correction_last half_nx half_ny half_inner half_outer
    (ups : flow) (nusp : Z) (upss : flow) :
  reflect_staggered half_nx half_ny half_inner half_outer ups nusp = Val upss ->
  exists (before : flow) (k : nat) (row : list (list Q)),
    staggered_copies half_nx half_ny half_inner half_outer ups nusp = Val before /\
    Np.index (length (rows before)) (2 * half_inner - 3) = Some k /\
    Np.getitem (2 * half_inner - 4) (rows before) = Some row /\
    rows upss = <[k := row]> (rows before) /\
    trailing upss = trailing before /\
    Np.getitem (2 * half_inner - 3) (rows upss) = Some row /\
    Np.getitem (2 * half_inner - 4) (rows upss) = Some row /\
    (consistent half_nx half_inner half_outer (length (rows ups)) ->
     2 <= half_inner ->
     flow_fits half_ny nusp ups ->
     rows before
     = staggered_segments (Z.to_nat (half_inner - 2)) (Z.to_nat (half_outer - 1))
         (Z.to_nat (half_ny + 2)) (Z.to_nat nusp) nusp (rows ups)).
Proof.
  intros Hrun. rewrite reflect_staggered_correction in Hrun.
  destruct (staggered_copies half_nx half_ny half_inner half_outer ups nusp)
    as [before|e] eqn:Hcopies; [|discriminate Hrun].
  rewrite res_bind_val in Hrun.
  res_cases Hrun. injection Hrun as <-.
  match goal with
    Hr : flow_row _ _ = Val ?v, Hs : flow_set_row _ _ _ = Val ?b |- _ =>
      rename v into row; rename b into upss;
      unfold flow_row in Hr; unfold flow_set_row in Hs
  end.
  destruct (trailing before) as [|? [|? [|]]] eqn:Htr; try done.
  destruct (Np.getitem _ (rows before)) as [row'|] eqn:Hget; [|done].
  match goal with Hr : or_raise _ (Some _) = Val _ |- _ => injection Hr as -> end.
  unfold Np.setitem in *.
  destruct (Np.index (length (rows before)) (2 * half_inner - 3)) as [k|] eqn:Hk;
    [|done].
  match goal with Hs : _ = Val upss |- _ => injection Hs as <- end.
  exists before, k, row. cbn [rows trailing]. repeat split; try done.
  - unfold Np.getitem. rewrite length_insert, Hk.
    apply list_lookup_insert_eq. now apply index_Some in Hk.
  - unfold Np.getitem in *. rewrite length_insert.
    destruct (Np.index (length (rows before)) (2 * half_inner - 4)) as [k'|] eqn:Hk';
      [|done].
    rewrite list_lookup_insert_ne; [done|].
    apply index_Some in Hk, Hk'.
    destruct (Z.ltb_spec (2 * half_inner - 3) 0), (Z.ltb_spec (2 * half_inner - 4) 0);
      lia.
  - intros Hmesh Hi2 Hfits.
    rewrite (staggered_copies_accepts _ _ _ _ _ _ Hmesh Hi2 Hfits) in Hcopies.
    now injection Hcopies as <-.
Qed.

(** ** The conversion against the solver *)

(** Rules for the outcome of a run, one per kind of statement. *)
Section WpRules.
Context {A B : Type}.
Implicit Types (f : A -> run B) (Q : outcome B -> Prop) (w : world).

Lemma wp_assoc {C} (m : run C) (g : C -> run A) f w Q :
  wp (m ≫= fun c => g c ≫= f) w Q -> wp ((m ≫= g) ≫= f) w Q.
Proof. unfold wp. cbv [mbind run_bind]. now destruct (m w). Qed.

Lemma wp_get a (proj : solver -> A) f w Q :
  wp (f (proj (st w))) (mk_world (st w) (Get a :: trace w)) Q ->
  wp (get a proj ≫= f) w Q.
Proof. exact id. Qed.

Lemma wp_ret (a : A) f w Q : wp (f a) w Q -> wp (mret a ≫= f) w Q.
Proof. exact id. Qed.

Lemma wp_lift (r : res A) f w Q :
  (forall a, r = Val a -> wp (f a) w Q) ->
  (forall e, r = Exc e -> Q (Raise e w)) ->
  wp (lift r ≫= f) w Q.
Proof. intros Hv He. destruct r; [exact (Hv _ eq_refl) | exact (He _ eq_refl)]. Qed.

Lemma wp_if (b : bool) (m1 m2 : run A) f w Q :
  (b = true -> wp (m1 ≫= f) w Q) -> (b = false -> wp (m2 ≫= f) w Q) ->
  wp ((if b then m1 else m2) ≫= f) w Q.
Proof. intros Ht Hf. destruct b; [exact (Ht eq_refl) | exact (Hf eq_refl)]. Qed.
End WpRules.

Lemma wp_put {A B} a (upd : A -> solver -> solver) (v : A) (f : unit -> run B) w Q :
  wp (f tt) (mk_world (upd v (st w)) (Put a :: trace w)) Q ->
  wp (put a upd v ≫= f) w Q.
Proof. exact id. Qed.

Lemma wp_assert {B} (b : bool) (f : unit -> run B) w Q :
  (b = true -> wp (f tt) w Q) -> (b = false -> Q (Raise AssertionError w)) ->
  wp (assert_ b ≫= f) w Q.
Proof. intros Ht Hf. destruct b; [exact (Ht eq_refl) | exact (Hf eq_refl)]. Qed.

Lemma wp_local {A B} (v : option A) (f : A -> run B) w Q :
  (forall a, v = Some a -> wp (f a) w Q) ->
  (v = None -> Q (Raise UnboundLocalError w)) ->
  wp (local v ≫= f) w Q.
Proof. intros Hs Hn. destruct v; [exact (Hs _ eq_refl) | exact (Hn eq_refl)]. Qed.

Lemma wp_exmain {B} exmain (f : unit -> run B) w Q :
  (forall s', exmain (st w) = (true, s') ->
     wp (f tt) (mk_world s' (Exmain :: trace w)) Q) ->
  (forall s', exmain (st w) = (false, s') ->
     Q (Raise SolverError (mk_world s' (Exmain :: trace w)))) ->
  wp (call_exmain exmain ≫= f) w Q.
Proof.
  intros Ht Hf. unfold wp. cbv [mbind run_bind call_exmain].
  destruct (exmain (st w)) as [[] s'] eqn:He;
    [exact (Ht _ eq_refl) | exact (Hf _ eq_refl)].
Qed.

Lemma wp_done {A} (a : A) w (Q : outcome A -> Prop) : Q (Return a w) -> wp (mret a) w Q.
Proof. exact id. Qed.

Lemma wp_if_done {A} (b : bool) (m1 m2 : run A) w Q :
  (b = true -> wp m1 w Q) -> (b = false -> wp m2 w Q) ->
  wp (if b then m1 else m2) w Q.
Proof. intros Ht Hf. destruct b; [exact (Ht eq_refl) | exact (Hf eq_refl)]. Qed.

Lemma wp_put_done {A} a (upd : A -> solver -> solver) (v : A) w (Q : outcome unit -> Prop) :
  Q (Return tt (mk_world (upd v (st w)) (Put a :: trace w))) -> wp (put a upd v) w Q.
Proof. exact id. Qed.

Ltac wp_step :=
  cbn [st trace];
  lazymatch goal with
  | |- wp ((_ ≫= _) ≫= _) _ _ => apply wp_assoc
  | |- wp (get _ _ ≫= _) _ _ => apply wp_get
  | |- wp (put _ _ _ ≫= _) _ _ => apply wp_put
  | |- wp (mret _ ≫= _) _ _ => apply wp_ret
  | |- wp (assert_ _ ≫= _) _ _ => apply wp_assert; [intros ?|intros ?]
  | |- wp (local _ ≫= _) _ _ => apply wp_local; [intros ? ?|intros ?]
  | |- wp (lift _ ≫= _) _ _ => apply wp_lift; [intros ? ?|intros ? ?]
  | |- wp (call_exmain _ ≫= _) _ _ => apply wp_exmain; [intros ? ?|intros ? ?]
  | |- wp ((if _ then _ else _) ≫= _) _ _ => apply wp_if; intros ?
  | |- wp (if _ then _ else _) _ _ => apply wp_if_done; intros ?
  | |- wp (put _ _ _) _ _ => apply wp_put_done
  | |- wp (mret _) _ _ => apply wp_done
  end.

Ltac wp_run :=
  unfold dnbot_to_dnull, staggered_block; repeat wp_step; cbv beta; cbn [st trace final].

(** ** What the array code raises *)

Lemma np_zeros_raises {A} `{Slab A} n sh e :
  np_zeros (A:=A) n sh = Exc e -> array_error e.
Proof. unfold np_zeros. destruct (n <? 0); [|done]. intros [= <-]. now left. Qed.

Lemma rows_slice_raises {A} start stop (a : ndarray A) e :
  rows_slice start stop a = Exc e -> array_error e.
Proof. unfold rows_slice. destruct (trailing a); [|done]. intros [= <-]. now right. Qed.

Lemma rows_assign_raises {A} start stop (rhs : list A) (a : ndarray A) e :
  rows_assign start stop rhs a = Exc e -> array_error e.
Proof.
  unfold rows_assign. destruct (trailing a); [intros [= <-]; now right|].
  destruct (Np.setslice _ _ _ _); [done|]. intros [= <-]. now left.
Qed.

Lemma flow_zeros_raises n r s e : flow_zeros n r s = Exc e -> array_error e.
Proof.
  unfold flow_zeros. destruct (_ || _); [intros [= <-]; now left|].
  apply np_zeros_raises.
Qed.

Lemma flow_slice_raises start stop nusp (a : flow) e :
  flow_slice start stop nusp a = Exc e -> array_error e.
Proof.
  unfold flow_slice. destruct (trailing a) as [|? [|? [|]]]; try done.
  all: intros [= <-]; now right.
Qed.

Lemma flow_assign_raises start stop (rhs a : flow) e :
  flow_assign start stop rhs a = Exc e -> array_error e.
Proof.
  unfold flow_assign.
  destruct (trailing a) as [|? [|? [|]]]; try (intros [= <-]; now right).
  destruct (trailing rhs) as [|? [|? [|]]]; try (intros [= <-]; now right).
  destruct (_ && _); [|intros [= <-]; now left].
  destruct (Np.setslice _ _ _ _); [done|]. intros [= <-]. now left.
Qed.

Lemma flow_row_raises i (a : flow) e : flow_row i a = Exc e -> array_error e.
Proof.
  unfold flow_row.
  destruct (trailing a) as [|? [|? [|]]]; try (intros [= <-]; now right).
  destruct (Np.getitem _ _); [done|]. intros [= <-]. now right.
Qed.

Lemma flow_set_row_raises i row (a : flow) e :
  flow_set_row i row a = Exc e -> array_error e.
Proof.
  unfold flow_set_row.
  destruct (trailing a) as [|? [|? [|]]]; try (intros [= <-]; now right).
  destruct (Np.setitem _ _ _); [done|]. intros [= <-]. now right.
Qed.

Ltac res_cases_exc H :=
  cbv [mbind res_bind] in H;
  repeat match type of H with
    | context [match ?r with Val _ => _ | Exc _ => _ end] =>
        destruct r eqn:?; [cbv beta iota in H | ]
    end.

Lemma reflect_centred_raises {A} `{Slab A} half_nx half_inner half_outer
    (F : ndarray A) e :
  reflect_centred half_nx half_inner half_outer F = Exc e -> array_error e.
Proof.
  intros Hrun. unfold reflect_centred in Hrun. res_cases_exc Hrun.
  all: try discriminate Hrun; injection Hrun as <-.
  all: eauto using np_zeros_raises, rows_slice_raises, rows_assign_raises.
Qed.

(** Turning a statement about a completed run into a [wp] goal. *)
Lemma wp_completed (m : run unit) (w : world) (P : world -> Prop) :
  wp m w (fun o => forall w', o = Return tt w' -> P w') ->
  forall w', m w = Return tt w' -> P w'.
Proof. intros H w'. apply H. Qed.

Ltac wp_completed_run H :=
  revert H;
  lazymatch goal with
  | |- ?m ?w = Return tt ?w' -> ?G =>
      let P := eval pattern w' in G in
      lazymatch P with
      | ?F _ => revert w'; apply (wp_completed m w F)
      end
  end;
  wp_run; intros ? H; try discriminate H.

Section Quiet.
Context {E : Type} (P : E -> Prop).

Lemma quiet_nil (tr : list E) : exists k, tr = k ++ tr /\ Forall P k.
Proof. now exists []. Qed.

Lemma quiet_cons (e : E) (l tr : list E) :
  P e -> (exists k, l = k ++ tr /\ Forall P k) ->
  exists k, e :: l = k ++ tr /\ Forall P k.
Proof. intros He (k & -> & Hk). exists (e :: k). now split; [|constructor]. Qed.
End Quiet.

Section Conversion.
Variable exmain : solver -> bool * solver.

(** What the solver step left is what it returned for the state the
    conversion prepared. *)
Lemma preserved_by {A} (proj : solver -> A) (s s' : solver) (ok : bool) :
  preserves proj exmain -> exmain s = (ok, s') -> proj s' = proj s.
Proof. intros Hp He. specialize (Hp s). now rewrite He in Hp. Qed.

(** C9, as the code has it: after a completed conversion the tolerance is
    the constant [1e-8], whatever it was before the call; the solver step
    ran on a state whose tolerance was [1e10]. *)
Theorem tolerance_after_conversion (w w' : world) :
  dnbot_to_dnull exmain w = Return tt w' ->
  bbb_ftol (st w') = ftol_strict /\
  exists s_loose s_regenerated,
    exmain s_loose = (true, s_regenerated) /\ bbb_ftol s_loose = ftol_loose.
Proof.
  intros Hrun. wp_completed_run Hrun.
  all: injection Hrun as <-; split; [reflexivity|].
  all: match goal with Hp : exmain ?s1 = (true, ?s2) |- _ =>
         exists s1, s2; split; [exact Hp|reflexivity] end.
Qed.

(** C6: for a solver step that leaves the core-power flag and the two core
    powers alone, a completed conversion has doubled both powers when the
    flag was 1 at the call, and has left both unchanged otherwise. *)
Theorem core_power_doubled (w w' : world) :
  preserves bbb_iflcore exmain ->
  preserves bbb_pcoree exmain ->
  preserves bbb_pcorei exmain ->
  dnbot_to_dnull exmain w = Return tt w' ->
  if bbb_iflcore (st w) =? 1
  then bbb_pcoree (st w') = (bbb_pcoree (st w) * 2)%Q /\
       bbb_pcorei (st w') = (bbb_pcorei (st w) * 2)%Q
  else bbb_pcoree (st w') = bbb_pcoree (st w) /\
       bbb_pcorei (st w') = bbb_pcorei (st w).
Proof.
  intros Hflag He Hi Hrun. wp_completed_run Hrun.
  all: injection Hrun as <-.
  all: match goal with Hp : exmain _ = (true, _) |- _ =>
         pose proof (preserved_by _ _ _ _ Hflag Hp) as Hf;
         pose proof (preserved_by _ _ _ _ He Hp) as Hpe;
         pose proof (preserved_by _ _ _ _ Hi Hp) as Hpi
       end.
  all: cbn in *.
  all: match goal with Hb : (bbb_iflcore _ =? 1) = _ |- _ =>
         rewrite Hf in Hb; rewrite Hb end.
  all: now rewrite ?Hpe, ?Hpi.
Qed.

(** C5: if the geometry tag does not contain "dnbot" the conversion raises
    AssertionError with the solver exactly as it was, having only read the
    tag; if it does, no AssertionError is raised and the run goes on to
    read the grid sizes. *)
Theorem precondition_check (s : solver) (tr : list event) :
  let o := dnbot_to_dnull exmain (mk_world s tr) in
  if contains "dnbot" (com_geometry s)
  then (forall w', o <> Raise AssertionError w') /\
       (Get Nx :: Get Geometry :: tr) `suffix_of` trace (final o)
  else o = Raise AssertionError (mk_world s (Get Geometry :: tr)).
Proof.
  cbv zeta.
  change (wp (dnbot_to_dnull exmain) (mk_world s tr) (fun o =>
    if contains "dnbot" (com_geometry s)
    then (forall w', o <> Raise AssertionError w') /\
         (Get Nx :: Get Geometry :: tr) `suffix_of` trace (final o)
    else o = Raise AssertionError (mk_world s (Get Geometry :: tr)))).
  wp_run.
  all: match goal with Hc : contains _ _ = _ |- _ => rewrite Hc end;
       cbv beta iota.
  all: try reflexivity.
  all: split; [intros w' Hw'; try discriminate Hw'|]; cbn [final trace].
  all: try (injection Hw' as -> _;
            match goal with He : _ = Exc AssertionError |- _ =>
              first [ apply reflect_centred_raises in He
                    | apply flow_zeros_raises in He
                    | apply flow_slice_raises in He
                    | apply flow_assign_raises in He
                    | apply flow_row_raises in He
                    | apply flow_set_row_raises in He ];
              destruct He; discriminate
            end).
  all: repeat first [reflexivity | apply suffix_cons_r].
Qed.

(** C7: if the impurity flag is not 2 at the call, the conversion neither
    reads nor assigns [bbb.afracs], however the run ends; with a solver
    step that leaves the field alone, the field is the same afterwards. *)
Theorem impurity_untouched (s : solver) (tr : list event) :
  bbb_isimpon s <> 2 ->
  let o := dnbot_to_dnull exmain (mk_world s tr) in
  (exists k, trace (final o) = k ++ tr /\
             Forall (fun e => e <> Get Afracs /\ e <> Put Afracs) k) /\
  (preserves bbb_afracs exmain -> bbb_afracs (st (final o)) = bbb_afracs s).
Proof.
  intros Hoff. cbv zeta.
  change (wp (dnbot_to_dnull exmain) (mk_world s tr) (fun o =>
    (exists k, trace (final o) = k ++ tr /\
               Forall (fun e => e <> Get Afracs /\ e <> Put Afracs) k) /\
    (preserves bbb_afracs exmain -> bbb_afracs (st (final o)) = bbb_afracs s))).
  wp_run.
  all: try match goal with
           | Hb : (bbb_isimpon ?x =? 2) = true, Hn : bbb_isimpon ?x <> 2 |- _ =>
               apply Z.eqb_eq in Hb; contradiction
           end.
  all: try discriminate.
  all: cbn [final st trace]; split.
  all: try (repeat (apply quiet_cons; [split; discriminate|]); apply quiet_nil).
  all: intros Hkeep; cbn;
       try match goal with Hp : exmain _ = _ |- _ =>
             apply (preserved_by _ _ _ _ Hkeep) in Hp; rewrite Hp end;
       reflexivity.
Qed.

(** The flow field a completed conversion commits is the reflection of
    the flow field it found. *)
Lemma committed_flow (w w' : world) :
  dnbot_to_dnull exmain w = Return tt w' ->
  let s := st w in
  reflect_staggered (com_nx s) (com_ny s)
    (fst (com_nxleg s) + fst (com_nxcore s) + 1)
    (snd (com_nxleg s) + snd (com_nxcore s) + 1) (bbb_ups s) (com_nusp s)
  = Val (bbb_ups (st w')).
Proof.
  intros Hrun. wp_completed_run Hrun.
  all: injection Hrun as <-; cbv zeta; cbn [st].
  all: repeat match goal with
         | Hx : ?r = Val ?x, Hy : ?r = Val ?y |- _ =>
             rewrite Hx in Hy; injection Hy as <-
         end.
  all: rewrite reflect_staggered_steps.
  all: repeat (match goal with
               | Hs : ?r = Val _ |- context [?r] => rewrite Hs
               end; rewrite ?res_bind_val; cbv beta).
  all: reflexivity.
Qed.
End Conversion.

Lemma zeros_flow_row r s : zeros [r; s] = replicate r (replicate s 0%Q).
Proof. reflexivity. Qed.

(** The row nobody writes, in the result of the staggered block. *)
Lemma reflect_staggered_gap half_nx half_ny half_inner half_outer
    (ups upss : flow) (nusp : Z) :
  consistent half_nx half_inner half_outer (length (rows ups)) ->
  2 <= half_inner -> 2 <= half_outer ->
  flow_fits half_ny nusp ups ->
  reflect_staggered half_nx half_ny half_inner half_outer ups nusp = Val upss ->
  Np.getitem (full_inner half_inner + half_outer - 2) (rows upss)
  = Some (replicate (Z.to_nat (half_ny + 2)) (replicate (Z.to_nat nusp) 0%Q)).
Proof.
  intros Hmesh Hi2 Ho2 Hfits Hrun.
  destruct (reflect_staggered_result _ _ _ _ _ _ Hmesh Hi2 Hfits) as (v & Hv & Hres).
  rewrite Hres in Hrun. injection Hrun as <-.
  destruct Hmesh as (Hnx & Hi & Ho & Hn & Hsum).
  change (rows (mk_ndarray ?t ?r)) with r.
  unfold full_inner.
  rewrite getitem_inside by (rewrite staggered_rows_length; lia).
  replace (Z.to_nat (2 * half_inner - 2 + half_outer - 2))
    with (2 * Z.to_nat (half_inner - 2) + Z.to_nat (half_outer - 1) + 1)%nat by lia.
  rewrite <- zeros_flow_row.
  apply out_gap; lia.
Qed.

(** C10, as the code has it: on a consistent mesh with [half_inner >= 2]
    and [half_outer >= 2], row [full_inner + half_outer - 2] of the flow
    field a completed conversion commits holds only zeros. *)
Theorem unwritten_row_stays_zero (exmain : solver -> bool * solver) (w w' : world) :
  let s := st w in
  let half_inner := fst (com_nxleg s) + fst (com_nxcore s) + 1 in
  let half_outer := snd (com_nxleg s) + snd (com_nxcore s) + 1 in
  consistent (com_nx s) half_inner half_outer (length (rows (bbb_ups s))) ->
  2 <= half_inner -> 2 <= half_outer ->
  flow_fits (com_ny s) (com_nusp s) (bbb_ups s) ->
  dnbot_to_dnull exmain w = Return tt w' ->
  Np.getitem (full_inner half_inner + half_outer - 2) (rows (bbb_ups (st w')))
  = Some (replicate (Z.to_nat (com_ny s + 2))
            (replicate (Z.to_nat (com_nusp s)) 0%Q)).
Proof.
  intros s half_inner half_outer Hmesh Hi2 Ho2 Hfits Hrun.
  apply committed_flow in Hrun. cbv zeta in Hrun.
  now apply (reflect_staggered_gap _ _ _ _ _ _ _ Hmesh Hi2 Ho2 Hfits).
Qed.

(** C8, as the code has it: whatever input either reflection accepts, the
    output has [2 * half_nx] poloidal rows.  The cell-centred output keeps
    the trailing extents of its input, each row being a row of the input
    or a zero row of these extents; the staggered output has
    [half_ny + 2] radial positions and [nusp] species, and is well shaped
    when the input is. *)
Theorem reflected_shapes (half_nx half_ny half_inner half_outer : Z) :
  (forall (A : Type) (HA : Slab A) (F G : ndarray A),
     reflect_centred half_nx half_inner half_outer F = Val G ->
     Z.of_nat (length (rows G)) = 2 * half_nx /\
     trailing G = trailing F /\
     Forall (fun row => row ∈ rows F \/ row = zeros (trailing F)) (rows G)) /\
  (forall (ups upss : flow) (nusp : Z),
     reflect_staggered half_nx half_ny half_inner half_outer ups nusp = Val upss ->
     Z.of_nat (length (rows upss)) = 2 * half_nx /\
     trailing upss = [Z.to_nat (half_ny + 2); Z.to_nat nusp] /\
     (well_shaped ups -> well_shaped upss)).
Proof.
  split.
  - intros A HA F G. apply reflect_centred_shape.
  - intros ups upss nusp. apply reflect_staggered_shape.
Qed.

(** ** The theorems on the sample mesh *)

Lemma sample_consistent : consistent 4 3 3 6.
Proof. unfold consistent. lia. Defined.

Lemma sample_flow_fits : flow_fits 1 1 (sample_flow [1; 2; 3; 4; 5; 6]).
Proof.
  unfold flow_fits, well_shaped, row_shaped; cbn.
  repeat split; try lia; repeat constructor.
Defined.

Lemma sample_flow_positive : Forall positive_row (rows (sample_flow [1; 2; 3; 4; 5; 6])).
Proof. cbn. repeat constructor. Defined.

Lemma exmain_idle_preserves {A} (proj : solver -> A) : preserves proj exmain_idle.
Proof. intros s. reflexivity. Defined.

Lemma reflect_centred_legs_sample :
  exists G,
    reflect_centred 4 3 3 (sample_plane [1; 2; 3; 4; 5; 6]) = Val G /\
    Np.getslice None (Some (3 - 1)) (rows G)
      = Np.getslice None (Some (3 - 1)) (rows (sample_plane [1; 2; 3; 4; 5; 6])) /\
    Np.getslice (Some (full_inner 3 + 3 - 1)) None (rows G)
      = Np.getslice (Some (3 + 1)) None (rows (sample_plane [1; 2; 3; 4; 5; 6])) /\
    (2 <= 3 ->
     Np.getitem (3 - 1) (rows G)
       = Np.getitem (3 - 2) (rows (sample_plane [1; 2; 3; 4; 5; 6]))).
Proof.
  apply (reflect_centred_legs 4 3 3 (sample_plane [1; 2; 3; 4; 5; 6]));
    [exact sample_consistent | discriminate].
Defined.

Lemma first_rows_not_reproduced :
  consistent 4 3 3 (length (rows (sample_plane [1; 2; 3; 4; 5; 6]))) /\
  exists G,
    reflect_centred 4 3 3 (sample_plane [1; 2; 3; 4; 5; 6]) = Val G /\
    Np.getslice None (Some 3) (rows G)
      <> Np.getslice None (Some 3) (rows (sample_plane [1; 2; 3; 4; 5; 6])).
Proof.
  split; [exact sample_consistent|].
  eexists; split; [vm_compute; reflexivity|].
  vm_compute. discriminate.
Qed.

Lemma reflect_centred_mirror_sample :
  exists G,
    reflect_centred 4 3 3 (sample_plane [1; 2; 3; 4; 5; 6]) = Val G /\
    Np.getslice (Some (3 - 1)) (Some (2 * 3 - 2)) (rows G)
      = reverse (Np.getslice None (Some (3 - 1))
                   (rows (sample_plane [1; 2; 3; 4; 5; 6]))) /\
    Np.getslice (Some (full_inner 3)) (Some (full_inner 3 + 3 - 1)) (rows G)
      = reverse (Np.getslice (Some (3 + 1)) None
                   (rows (sample_plane [1; 2; 3; 4; 5; 6]))) /\
    length (Np.getslice None (Some (3 - 1)) (rows (sample_plane [1; 2; 3; 4; 5; 6])))
      = Z.to_nat (3 - 1) /\
    length (Np.getslice (Some (3 + 1)) None (rows (sample_plane [1; 2; 3; 4; 5; 6])))
      = Z.to_nat (3 - 1) /\
    trailing G = trailing (sample_plane [1; 2; 3; 4; 5; 6]).
Proof.
  apply (reflect_centred_mirror 4 3 3 (sample_plane [1; 2; 3; 4; 5; 6]));
    [exact sample_consistent | discriminate].
Defined.

Lemma reflect_staggered_signs_sample :
  let ups := sample_flow [1; 2; 3; 4; 5; 6] in
  exists upss,
    reflect_staggered 4 1 3 3 ups 1 = Val upss /\
    Forall negative_row (Np.getslice (Some 1) (Some 3) (rows upss)) /\
    Forall negative_row (Np.getslice (Some 3) (Some 5) (rows upss)) /\
    Np.getslice (Some 1) (Some 3) (rows upss)
      = reverse (map negate (map (crop 1) (Np.getslice None (Some 2) (rows ups)))) /\
    Np.getslice (Some 4) (Some 5) (rows upss)
      = drop 1 (reverse (map negate (map (crop 1)
                 (Np.getslice (Some 4) None (rows ups))))) /\
    Np.getslice None (Some 1) (rows upss)
      = map (crop 1) (Np.getslice None (Some 1) (rows ups)) /\
    Np.getslice (Some 6) None (rows upss)
      = map (crop 1) (Np.getslice (Some 4) None (rows ups)) /\
    Forall positive_row (Np.getslice None (Some 1) (rows upss)) /\
    Forall positive_row (Np.getslice (Some 6) None (rows upss)) /\
    (exists first,
       head (rows ups) = Some first /\
       Np.getitem 3 (rows upss) = Some (negate (crop 1 first)) /\
       Np.getitem 2 (rows upss) = Some (negate (crop 1 first))) /\
    (exists r1 r2,
       Np.getitem 1 (rows upss) = Some r1 /\
       Np.getitem 2 (rows upss) = Some r2 /\
       negative_row r1 /\ negative_row r2).
Proof.
  exact (reflect_staggered_signs 4 1 3 3 (sample_flow [1; 2; 3; 4; 5; 6]) 1
           sample_consistent ltac:(lia) sample_flow_fits sample_flow_positive).
Defined.

Lemma lower_inner_leg_not_positive :
  let ups := sample_flow [1; 2; 3; 4; 5; 6] in
  consistent 4 3 3 (length (rows ups)) /\
  Forall positive_row (rows ups) /\
  exists upss,
    reflect_staggered 4 1 3 3 ups 1 = Val upss /\
    ~ Forall positive_row (Np.getslice None (Some 3) (rows upss)).
Proof.
  cbv zeta. split; [exact sample_consistent|]. split; [exact sample_flow_positive|].
  eexists; split; [vm_compute; reflexivity|].
  vm_compute. intros Hpos.
  apply Forall_cons in Hpos as [_ Hpos]. apply Forall_cons in Hpos as [Hrow _].
  apply Forall_cons in Hrow as [Hline _]. apply Forall_cons in Hline as [Hx _].
  discriminate Hx.
Qed.

Lemma boundary_correction_last_sample :
  exists upss,
    reflect_staggered 4 1 3 3 (sample_flow [1; 2; 3; 4; 5; 6]) 1 = Val upss /\
    exists (before : flow) (k : nat) (row : list (list Q)),
      staggered_copies 4 1 3 3 (sample_flow [1; 2; 3; 4; 5; 6]) 1 = Val before /\
      Np.index (length (rows before)) (2 * 3 - 3) = Some k /\
      Np.getitem (2 * 3 - 4) (rows before) = Some row /\
      rows upss = <[k := row]> (rows before) /\
      trailing upss = trailing before /\
      Np.getitem (2 * 3 - 3) (rows upss) = Some row /\
      Np.getitem (2 * 3 - 4) (rows upss) = Some row /\
      (consistent 4 3 3 (length (rows (sample_flow [1; 2; 3; 4; 5; 6]))) ->
       2 <= 3 ->
       flow_fits 1 1 (sample_flow [1; 2; 3; 4; 5; 6]) ->
       rows before
       = staggered_segments (Z.to_nat (3 - 2)) (Z.to_nat (3 - 1))
           (Z.to_nat (1 + 2)) (Z.to_nat 1) 1 (rows (sample_flow [1; 2; 3; 4; 5; 6]))).
Proof.
  eexists; split; [vm_compute; reflexivity|].
  apply (boundary_correction_last 4 1 3 3 (sample_flow [1; 2; 3; 4; 5; 6]) 1).
  vm_compute. reflexivity.
Defined.

Lemma reflected_shapes_sample :
  (exists G,
     reflect_centred 4 3 3 (sample_plane [1; 2; 3; 4; 5; 6]) = Val G /\
     Z.of_nat (length (rows G)) = 2 * 4 /\
     trailing G = trailing (sample_plane [1; 2; 3; 4; 5; 6])) /\
  (exists upss,
     reflect_staggered 4 1 3 3 (sample_flow [1; 2; 3; 4; 5; 6]) 1 = Val upss /\
     Z.of_nat (length (rows upss)) = 2 * 4 /\
     trailing upss = [Z.to_nat (1 + 2); Z.to_nat 1] /\
     well_shaped upss).
Proof.
  destruct (reflected_shapes 4 1 3 3) as [Hcentred Hstaggered]. split.
  - assert (exists G, reflect_centred 4 3 3 (sample_plane [1; 2; 3; 4; 5; 6]) = Val G)
      as [G HG] by (eexists; vm_compute; reflexivity).
    exists G. split; [exact HG|].
    destruct (Hcentred _ _ _ _ HG) as (Hlen & Htrail & _).
    split; [exact Hlen | exact Htrail].
  - assert (exists upss,
              reflect_staggered 4 1 3 3 (sample_flow [1; 2; 3; 4; 5; 6]) 1 = Val upss)
      as [upss Hupss] by (eexists; vm_compute; reflexivity).
    exists upss. split; [exact Hupss|].
    destruct (Hstaggered _ _ _ Hupss) as (Hlen & Htrail & Hshape).
    repeat split; [exact Hlen | exact Htrail |].
    apply Hshape. exact (proj1 (proj2 (proj2 sample_flow_fits))).
Defined.

Lemma extent_not_doubled :
  (exists G,
     reflect_centred 4 3 3 (sample_plane [1; 2; 3; 4; 5; 6]) = Val G /\
     Z.of_nat (length (rows G))
       <> 2 * Z.of_nat (length (rows (sample_plane [1; 2; 3; 4; 5; 6])))) /\
  (exists upss,
     reflect_staggered 4 1 3 3 (sample_flow [1; 2; 3; 4; 5; 6]) 1 = Val upss /\
     Z.of_nat (length (rows upss))
       <> 2 * Z.of_nat (length (rows (sample_flow [1; 2; 3; 4; 5; 6]))) /\
     trailing upss <> trailing (sample_flow [1; 2; 3; 4; 5; 6])).
Proof.
  split.
  - eexists; split; [vm_compute; reflexivity|]. vm_compute. discriminate.
  - eexists; split; [vm_compute; reflexivity|]. split; vm_compute; discriminate.
Qed.

Lemma core_power_doubled_sample :
  exists w',
    dnbot_to_dnull exmain_idle (sample_world "dnbot" 0 1) = Return tt w' /\
    bbb_pcoree (st w') = (bbb_pcoree (st (sample_world "dnbot" 0 1)) * 2)%Q /\
    bbb_pcorei (st w') = (bbb_pcorei (st (sample_world "dnbot" 0 1)) * 2)%Q.
Proof.
  eexists; split; [vm_compute; reflexivity|].
  refine (core_power_doubled exmain_idle (sample_world "dnbot" 0 1) _
            (exmain_idle_preserves _) (exmain_idle_preserves _)
            (exmain_idle_preserves _) _).
  vm_compute. reflexivity.
Defined.

Lemma impurity_untouched_sample :
  let s := sample_solver "dnbot" 0 1 in
  let o := dnbot_to_dnull exmain_idle (mk_world s []) in
  (exists k, trace (final o) = k ++ [] /\
             Forall (fun e => e <> Get Afracs /\ e <> Put Afracs) k) /\
  (preserves bbb_afracs exmain_idle -> bbb_afracs (st (final o)) = bbb_afracs s).
Proof.
  apply (impurity_untouched exmain_idle (sample_solver "dnbot" 0 1) []).
  cbn. discriminate.
Defined.

Lemma tolerance_after_conversion_sample :
  exists w',
    dnbot_to_dnull exmain_idle (sample_world "dnbot" 0 1) = Return tt w' /\
    bbb_ftol (st w') = ftol_strict /\
    exists s_loose s_regenerated,
      exmain_idle s_loose = (true, s_regenerated) /\ bbb_ftol s_loose = ftol_loose.
Proof.
  eexists; split; [vm_compute; reflexivity|].
  apply (tolerance_after_conversion exmain_idle (sample_world "dnbot" 0 1)).
  vm_compute. reflexivity.
Defined.

Lemma tolerance_not_restored :
  exists w',
    dnbot_to_dnull exmain_idle (sample_world "dnbot" 0 1) = Return tt w' /\
    bbb_ftol (st w') <> bbb_ftol (st (sample_world "dnbot" 0 1)).
Proof.
  eexists; split; [vm_compute; reflexivity|].
  vm_compute. discriminate.
Qed.

Lemma unwritten_row_stays_zero_sample :
  exists w',
    dnbot_to_dnull exmain_idle (sample_world "dnbot" 0 1) = Return tt w' /\
    Np.getitem (full_inner 3 + 3 - 2) (rows (bbb_ups (st w')))
    = Some (replicate (Z.to_nat (1 + 2)) (replicate (Z.to_nat 1) 0%Q)).
Proof.
  eexists; split; [vm_compute; reflexivity|].
  refine (unwritten_row_stays_zero exmain_idle (sample_world "dnbot" 0 1) _
            sample_consistent ltac:(cbn; lia) ltac:(cbn; lia) sample_flow_fits _).
  vm_compute. reflexivity.
Defined.

Lemma boundary_row_not_zero :
  let ups := sample_flow [1; 2; 3; 4] in
  consistent 2 3 1 (length (rows ups)) /\
  flow_fits 1 1 ups /\
  exists upss,
    reflect_staggered 2 1 3 1 ups 1 = Val upss /\
    Np.getitem (full_inner 3 + 1 - 2) (rows upss)
    <> Some (replicate (Z.to_nat (1 + 2)) (replicate (Z.to_nat 1) 0%Q)).
Proof.
  cbv zeta. split; [unfold consistent; cbn; lia|]. split.
  - unfold flow_fits, well_shaped, row_shaped; cbn.
    repeat split; try lia; repeat constructor.
  - eexists; split; [vm_compute; reflexivity|]. vm_compute. discriminate.
Qed.

Lemma precondition_check_sample :
  dnbot_to_dnull exmain_idle (sample_world "dnull" 0 1)
  = Raise AssertionError (mk_world (sample_solver "dnull" 0 1) [Get Geometry]) /\
  (forall w', dnbot_to_dnull exmain_idle (sample_world "dnbot" 0 1)
              <> Raise AssertionError w') /\
  [Get Nx; Get Geometry]
    `suffix_of` trace (final (dnbot_to_dnull exmain_idle (sample_world "dnbot" 0 1))).
Proof.
  split.
  - exact (precondition_check exmain_idle (sample_solver "dnull" 0 1) []).
  - exact (precondition_check exmain_idle (sample_solver "dnbot" 0 1) []).
Defined.

(** * Further properties of the reflections *)

(** ** The complete layout of a reflected cell-centred field *)

Lemma four_windows {A} (a b c d : nat) (l : list A) :
  length l = (a + b + c + d)%nat ->
  l = Np.window 0 a l ++ Np.window a b l ++ Np.window (a + b) c l
        ++ Np.window (a + b + c) d l.
Proof.
  intros Hl. unfold Np.window. rewrite drop_0.
  rewrite <- (take_drop a l) at 1. f_equal.
  rewrite <- (take_drop b (drop a l)) at 1. f_equal.
  rewrite drop_drop.
  rewrite <- (take_drop c (drop (a + b) l)) at 1. f_equal.
  rewrite drop_drop. symmetry. apply take_ge. rewrite length_drop. lia.
Qed.

Lemma window_prefix {A} (a : nat) (l : list A) : Np.window 0 a l = take a l.
Proof. unfold Np.window. now rewrite drop_0. Qed.

Lemma window_suffix {A} (a b : nat) (l : list A) :
  (length l <= a + b)%nat -> Np.window a b l = drop a l.
Proof. intros. unfold Np.window. apply take_ge. rewrite length_drop. lia. Qed.

(** X1: the reflected field, row for row: the lower inner rows, their mirror
    image, the mirror image of the lower outer rows, the lower outer
    rows.  Rows [half_inner - 1] and [half_inner] of the input appear
    nowhere. *)
Theorem reflect_centred_layout {A} `{Slab A} half_nx half_inner half_outer
    (F : ndarray A) :
  consistent half_nx half_inner half_outer (length (rows F)) ->
  trailing F <> [] ->
  let lower_inner := take (Z.to_nat (half_inner - 1)) (rows F) in
  let lower_outer := drop (Z.to_nat (half_inner + 1)) (rows F) in
  reflect_centred half_nx half_inner half_outer F
  = Val (mk_ndarray (trailing F)
           (lower_inner ++ reverse lower_inner ++ reverse lower_outer ++ lower_outer)).
Proof.
  intros Hmesh Hdim lower_inner lower_outer.
  rewrite reflect_centred_accepts by done. do 2 f_equal.
  destruct Hmesh as (Hnx & Hi & Ho & Hn & Hsum).
  set (p := Z.to_nat (half_inner - 1)) in *.
  set (q := Z.to_nat (half_outer - 1)).
  assert (Hlen : length (rows F) = (p + q + 2)%nat) by lia.
  assert (Hpq : (1 <= p + q)%nat) by lia.
  rewrite (four_windows p p q q (centred_rows p q (trailing F) (rows F)))
    by (rewrite centred_rows_length; lia).
  replace (p + p)%nat with (2 * p)%nat by lia.
  rewrite centred_lower_inner, centred_upper_inner, centred_upper_outer,
    centred_lower_outer by done.
  unfold lower_inner, lower_outer.
  replace (Z.to_nat (half_inner + 1)) with (p + 2)%nat by lia.
  rewrite window_prefix, window_suffix by lia. done.
Qed.

Lemma mirror_pair_lookup {A} (l : list A) (i : nat) :
  (i < 2 * length l)%nat ->
  (l ++ reverse l) !! i = (l ++ reverse l) !! (2 * length l - 1 - i)%nat.
Proof.
  intros Hi.
  assert (Hrev : reverse (l ++ reverse l) = l ++ reverse l)
    by now rewrite reverse_app, reverse_involutive.
  rewrite <- Hrev at 1.
  rewrite reverse_lookup by (rewrite length_app, length_reverse; lia).
  f_equal. rewrite length_app, length_reverse. lia.
Qed.

Lemma pair_mirror_lookup {A} (l : list A) (i : nat) :
  (i < 2 * length l)%nat ->
  (reverse l ++ l) !! i = (reverse l ++ l) !! (2 * length l - 1 - i)%nat.
Proof.
  intros Hi. pose proof (mirror_pair_lookup (reverse l) i) as Hm.
  rewrite reverse_involutive, length_reverse in Hm. now apply Hm.
Qed.

(** X2: the reflected field is up-down symmetric: the inner block of
    [full_inner] rows and the outer block of [full_outer] rows each read
    the same from either end. *)
Theorem reflect_centred_symmetric {A} `{Slab A} half_nx half_inner half_outer
    (F G : ndarray A) :
  consistent half_nx half_inner half_outer (length (rows F)) ->
  reflect_centred half_nx half_inner half_outer F = Val G ->
  let fi := full_inner half_inner in
  let fo := full_outer half_outer in
  (forall i, 0 <= i < fi ->
     Np.getitem i (rows G) = Np.getitem (fi - 1 - i) (rows G)) /\
  (forall j, 0 <= j < fo ->
     Np.getitem (fi + j) (rows G) = Np.getitem (fi + fo - 1 - j) (rows G)).
Proof.
  intros Hmesh Hrun fi fo.
  assert (Hdim : trailing F <> []).
  { intros Hnil. unfold reflect_centred, rows_slice in Hrun. rewrite Hnil in Hrun.
    unfold np_zeros in Hrun. destruct (2 * half_nx <? 0); discriminate Hrun. }
  rewrite reflect_centred_layout in Hrun by done. injection Hrun as <-.
  destruct Hmesh as (Hnx & Hi & Ho & Hn & Hsum).
  change (rows (mk_ndarray ?t ?r)) with r.
  set (li := take (Z.to_nat (half_inner - 1)) (rows F)).
  set (lo := drop (Z.to_nat (half_inner + 1)) (rows F)).
  assert (Hli : length li = Z.to_nat (half_inner - 1))
    by (unfold li; rewrite length_take; lia).
  assert (Hlo : length lo = Z.to_nat (half_outer - 1))
    by (unfold lo; rewrite length_drop; lia).
  assert (Hall : length (li ++ reverse li ++ reverse lo ++ lo)
                 = (2 * length li + 2 * length lo)%nat)
    by (rewrite !length_app, !length_reverse; lia).
  unfold fi, fo, full_inner, full_outer. split.
  - intros i Hi'. rewrite !getitem_inside by lia.
    rewrite (app_assoc li), !(lookup_app_l (li ++ reverse li))
      by (rewrite length_app, length_reverse; lia).
    rewrite mirror_pair_lookup by lia. f_equal. lia.
  - intros j Hj. rewrite !getitem_inside by lia.
    rewrite (app_assoc li), !(lookup_app_r (li ++ reverse li))
      by (rewrite length_app, length_reverse; lia).
    rewrite length_app, length_reverse.
    rewrite pair_mirror_lookup by lia. f_equal. lia.
Qed.

(** X3: the two rows next to the midplane, [half_inner - 1] and [half_inner],
    never reach the output: fields that differ only there are reflected
    to the same array. *)
Theorem reflect_centred_ignores_midplane {A} `{Slab A} half_nx half_inner half_outer
    (F F' : ndarray A) :
  consistent half_nx half_inner half_outer (length (rows F)) ->
  trailing F <> [] ->
  trailing F' = trailing F ->
  length (rows F') = length (rows F) ->
  (forall i : nat, Z.of_nat i <> half_inner - 1 -> Z.of_nat i <> half_inner ->
     rows F' !! i = rows F !! i) ->
  reflect_centred half_nx half_inner half_outer F'
  = reflect_centred half_nx half_inner half_outer F.
Proof.
  intros Hmesh Hdim Htr Hlen Hsame.
  assert (Hmesh' : consistent half_nx half_inner half_outer (length (rows F')))
    by now rewrite Hlen.
  rewrite !reflect_centred_layout by (done || now rewrite Htr).
  destruct Hmesh as (Hnx & Hi & Ho & Hn & Hsum).
  assert (Hli : take (Z.to_nat (half_inner - 1)) (rows F')
                = take (Z.to_nat (half_inner - 1)) (rows F)).
  { apply list_eq; intros i.
    destruct (decide (i < Z.to_nat (half_inner - 1))%nat).
    - rewrite !lookup_take_lt by done. apply Hsame; lia.
    - now rewrite !lookup_take_ge by lia. }
  assert (Hlo : drop (Z.to_nat (half_inner + 1)) (rows F')
                = drop (Z.to_nat (half_inner + 1)) (rows F)).
  { apply list_eq; intros i. rewrite !lookup_drop. apply Hsame; lia. }
  cbv zeta. now rewrite Htr, Hli, Hlo.
Qed.

(** ** Sizes the cell-centred reflection refuses *)

(** A block of two or more rows is never repeated by broadcasting: the
    assignment needs a destination of exactly as many rows. *)
Lemma setslice_count {A} start stop (rhs xs ys : list A) :
  Np.setslice start stop rhs xs = Some ys -> (2 <= length rhs)%nat ->
  snd (Np.slice_bounds (length xs) start stop) = length rhs.
Proof.
  unfold Np.setslice, Np.broadcast_rows.
  destruct (Np.slice_bounds (length xs) start stop) as [lo cnt]; cbn [snd].
  destruct (Nat.eqb_spec (length rhs) cnt); [done|].
  destruct rhs as [|x [|]]; cbn; try done; lia.
Qed.

Lemma rows_assign_count {A} start stop (rhs : list A) (a b : ndarray A) :
  rows_assign start stop rhs a = Val b -> (2 <= length rhs)%nat ->
  snd (Np.slice_bounds (length (rows a)) start stop) = length rhs /\
  length (rows b) = length (rows a) /\ trailing b = trailing a.
Proof.
  unfold rows_assign. destruct (trailing a); [done|].
  destruct (Np.setslice start stop rhs (rows a)) as [r|] eqn:Hs; [|done].
  intros [= <-] Hlen. cbn [rows trailing].
  eauto using setslice_count, setslice_length.
Qed.

Lemma rows_slice_length {A} start stop (a : ndarray A) (v : list A) :
  rows_slice start stop a = Val v ->
  length v = snd (Np.slice_bounds (length (rows a)) start stop).
Proof.
  unfold rows_slice. destruct (trailing a); [done|].
  intros [= <-]. apply getslice_length.
Qed.

(** The number of rows a slice with non-negative bounds selects. *)
Lemma slice_count_some_some (len : nat) (a b : Z) :
  0 <= a -> 0 <= b ->
  snd (Np.slice_bounds len (Some a) (Some b))
  = Z.to_nat (Z.min b (Z.of_nat len) - Z.min a (Z.of_nat len)).
Proof.
  intros. unfold Np.slice_bounds, Np.slice_start, Np.slice_stop, Np.adjust.
  destruct (Z.ltb_spec a 0), (Z.ltb_spec b 0); try lia. done.
Qed.

Lemma slice_count_none_some (len : nat) (b : Z) :
  0 <= b ->
  snd (Np.slice_bounds len None (Some b)) = Z.to_nat (Z.min b (Z.of_nat len)).
Proof.
  intros. unfold Np.slice_bounds, Np.slice_start, Np.slice_stop, Np.adjust.
  destruct (Z.ltb_spec b 0); try lia. cbn. f_equal. lia.
Qed.

Lemma slice_count_some_none (len : nat) (a : Z) :
  0 <= a ->
  snd (Np.slice_bounds len (Some a) None)
  = Z.to_nat (Z.of_nat len - Z.min a (Z.of_nat len)).
Proof.
  intros. unfold Np.slice_bounds, Np.slice_start, Np.slice_stop, Np.adjust.
  destruct (Z.ltb_spec a 0); try lia. done.
Qed.

(** When the reflection returns on a field with at least three rows on
    either side of the midplane pair, the sizes were consistent. *)
Lemma reflect_centred_consistent {A} `{Slab A} half_nx half_inner half_outer
    (F G : ndarray A) :
  3 <= half_inner -> 1 <= half_outer ->
  half_inner + 3 <= Z.of_nat (length (rows F)) ->
  reflect_centred half_nx half_inner half_outer F = Val G ->
  consistent half_nx half_inner half_outer (length (rows F)).
Proof.
  intros Hi Ho Hn Hrun. unfold reflect_centred, full_inner in Hrun.
  res_cases Hrun. clear Hrun.
  repeat match goal with
    | Hs : rows_slice _ _ _ = Val _ |- _ => apply rows_slice_length in Hs
    end.
  match goal with
  | Hz : np_zeros _ _ = Val ?z |- _ =>
      assert (Hnx : 0 <= 2 * half_nx /\ length (rows z) = Z.to_nat (2 * half_nx))
  end.
  { unfold np_zeros in *. destruct (Z.ltb_spec (2 * half_nx) 0); [done|].
    match goal with Hz : Val _ = Val _ |- _ => injection Hz as <- end.
    cbn [rows]. rewrite length_replicate. lia. }
  destruct Hnx as [Hnx Hz].
  rewrite ?slice_count_none_some, ?slice_count_some_none in * by lia.
  repeat match goal with
    | Ha : rows_assign _ _ ?rhs _ = Val _ |- _ =>
        apply rows_assign_count in Ha;
        [ destruct Ha as (? & ? & ?)
        | rewrite ?length_reverse;
          match goal with Hl : length _ = _ |- _ => rewrite Hl end; lia ]
    end.
  rewrite ?length_reverse in *.
  repeat match goal with
    | Hl : length (rows ?x) = length (rows ?y),
      Hy : length (rows ?y) = Z.to_nat _ |- _ => rewrite Hy in Hl
    end.
  repeat match goal with
    | Hl : length (rows ?x) = Z.to_nat _,
      Hc : context [Np.slice_bounds (length (rows ?x))] |- _ => rewrite Hl in Hc
    end.
  rewrite ?slice_count_none_some, ?slice_count_some_none, ?slice_count_some_some
    in * by lia.
  repeat match goal with
    | Hl : length ?v = Z.to_nat _, Hc : Z.to_nat _ = length ?v |- _ => rewrite Hl in Hc
    end.
  repeat match goal with
    | Hl : length _ = _ |- _ => clear Hl
    | Hl : trailing _ = _ |- _ => clear Hl
    | Hl : np_zeros _ _ = _ |- _ => clear Hl
    end.
  rewrite Z2Nat.id in * by lia.
  rewrite !(Z.min_l _ (Z.of_nat (length (rows F)))) in * by lia.
  assert (half_inner <= 2 * half_nx) by lia.
  rewrite (Z.min_l (half_inner - 1)) in * by lia.
  assert (2 * half_inner - 2 <= 2 * half_nx) by lia.
  rewrite (Z.min_l (2 * half_inner - 2)) in * by lia.
  unfold consistent. lia.
Qed.

Lemma rows_assign_refused {A} start stop (rhs : list A) (a : ndarray A) e :
  trailing a <> [] -> rows_assign start stop rhs a = Exc e -> e = ValueError.
Proof.
  unfold rows_assign. destruct (trailing a); [done|]. intros _.
  destruct (Np.setslice _ _ _ _); [done|]. now intros [= <-].
Qed.

Lemma rows_assign_trailing {A} start stop (rhs : list A) (a b : ndarray A) :
  rows_assign start stop rhs a = Val b -> trailing b = trailing a.
Proof.
  unfold rows_assign. destruct (trailing a); [done|].
  destruct (Np.setslice _ _ _ _); [|done]. now intros [= <-].
Qed.

(** On an array of two or more dimensions the only exception the
    reflection raises is numpy's ValueError. *)
Lemma reflect_centred_refused {A} `{Slab A} half_nx half_inner half_outer
    (F : ndarray A) e :
  trailing F <> [] ->
  reflect_centred half_nx half_inner half_outer F = Exc e -> e = ValueError.
Proof.
  intros Hdim Hrun. unfold reflect_centred in Hrun. res_cases_exc Hrun.
  all: try discriminate Hrun; injection Hrun as <-.
  all: repeat match goal with
         | Hz : np_zeros _ (trailing ?f) = Val ?z |- _ =>
             assert (trailing z = trailing f)
               by (unfold np_zeros in Hz; destruct (_ <? 0); [done|];
                   now injection Hz as <-);
             clear Hz
         | Ha : rows_assign _ _ _ ?a = Val ?b |- _ =>
             apply rows_assign_trailing in Ha
         end.
  all: try match goal with
         | Hs : rows_slice _ _ ?f = Exc _ |- _ =>
             unfold rows_slice in Hs; destruct (trailing f); done
         | Hz : np_zeros _ _ = Exc _ |- _ =>
             unfold np_zeros in Hz; destruct (_ <? 0); [now injection Hz as <-|done]
         | Ha : rows_assign _ _ _ ?a = Exc _ |- _ =>
             apply rows_assign_refused in Ha; [done|congruence]
         end.
Qed.

(** X4: a field with at least three rows on either side of the midplane pair
    whose extent does not fit the mesh sizes is refused with numpy's
    ValueError: no row is silently dropped or repeated. *)
Theorem reflect_centred_rejects {A} `{Slab A} half_nx half_inner half_outer
    (F : ndarray A) :
  trailing F <> [] ->
  3 <= half_inner -> 1 <= half_outer ->
  half_inner + 3 <= Z.of_nat (length (rows F)) ->
  ~ consistent half_nx half_inner half_outer (length (rows F)) ->
  reflect_centred half_nx half_inner half_outer F = Exc ValueError.
Proof.
  intros Hdim Hi Ho Hn Hbad.
  destruct (reflect_centred half_nx half_inner half_outer F) as [G|e] eqn:Hrun.
  - now apply reflect_centred_consistent in Hrun.
  - now apply reflect_centred_refused in Hrun as ->.
Qed.

(** ** The complete layout of the reflected staggered flow *)

Lemma window_whole {A} (l : list A) : l = Np.window 0 (length l) l.
Proof. unfold Np.window. now rewrite drop_0, firstn_all. Qed.

Lemma window_split {A} (lo a b : nat) (l : list A) :
  Np.window lo (a + b) l = Np.window lo a l ++ Np.window (lo + a) b l.
Proof.
  unfold Np.window. rewrite <- drop_drop. generalize (drop lo l). clear l.
  induction a as [|a IH]; intros [|x l]; cbn; rewrite ?take_nil, ?drop_nil; try done.
  now rewrite IH.
Qed.

Lemma window_single {A} (k : nat) (x : A) (l : list A) :
  l !! k = Some x -> Np.window k 1 l = [x].
Proof.
  intros Hk. unfold Np.window.
  rewrite (drop_S _ _ _ Hk). cbn. now rewrite take_0.
Qed.

(** X5: the staggered flow, row for row: the lower inner rows short of the
    last two, the negated mirror image of the lower inner rows, the
    corrected boundary row, which is the negated first row of the source,
    the negated mirror image of the lower outer rows without its first
    row, one row of zeros, and the lower outer rows.  Only the first
    [nusp] species of the source are used. *)
Theorem reflect_staggered_layout half_nx half_ny half_inner half_outer
    (ups : flow) (nusp : Z) :
  consistent half_nx half_inner half_outer (length (rows ups)) ->
  2 <= half_inner -> 2 <= half_outer ->
  flow_fits half_ny nusp ups ->
  let src := map (crop nusp) (rows ups) in
  let mirror := fun l : list (list (list Q)) => reverse (map negate l) in
  let sh := [Z.to_nat (half_ny + 2); Z.to_nat nusp] in
  exists first,
    head src = Some first /\
    reflect_staggered half_nx half_ny half_inner half_outer ups nusp
    = Val (mk_ndarray sh
             (take (Z.to_nat (half_inner - 2)) src
              ++ mirror (take (Z.to_nat (half_inner - 1)) src)
              ++ [negate first]
              ++ drop 1 (mirror (drop (Z.to_nat (half_inner + 1)) src))
              ++ [zeros sh]
              ++ drop (Z.to_nat (half_inner + 1)) src)).
Proof.
  intros Hmesh Hi2 Ho2 Hfits src mirror sh.
  destruct (reflect_staggered_result _ _ _ _ _ _ Hmesh Hi2 Hfits) as (v & Hv & Hrun).
  destruct Hmesh as (Hnx & Hi & Ho & Hn & Hsum).
  set (p2 := Z.to_nat (half_inner - 2)) in *.
  set (q := Z.to_nat (half_outer - 1)) in *.
  set (R := Z.to_nat (half_ny + 2)) in *.
  assert (Hlen : length (rows ups) = (p2 + q + 3)%nat) by lia.
  assert (exists row0 rest, rows ups = row0 :: rest) as (row0 & rest & Hrows)
    by (destruct (rows ups); [cbn in Hlen; lia | eauto]).
  assert (Hfirst : head src = Some (crop nusp row0)) by (unfold src; now rewrite Hrows).
  exists (crop nusp row0). split; [exact Hfirst|].
  rewrite Hrun. unfold sh. fold R. do 2 f_equal.
  pose proof (staggered_rows_length p2 q R nusp (rows ups) Hlen v) as Hout.
  pose proof (out_lower_inner p2 q R nusp (rows ups) Hlen v) as Hli.
  pose proof (out_inner_mirror p2 q R nusp (rows ups) Hlen v) as Him.
  pose proof (out_lower_outer p2 q R nusp (rows ups) Hlen v) as Hlo.
  pose proof (out_outer_mirror_tail p2 q R nusp (rows ups) Hlen v) as Hot.
  pose proof (out_gap p2 q R nusp (rows ups) Hlen v ltac:(lia)) as Hgap.
  assert (Hb : staggered_rows p2 q R nusp (rows ups) v !! (2 * p2 + 1)%nat = Some v).
  { unfold staggered_rows. apply list_lookup_insert_eq.
    unfold staggered_plain. rewrite laid_length; len. }
  assert (Hvv : v = negate (crop nusp row0)).
  { unfold staggered_plain in Hv. rewrite laid_boundary in Hv by len.
    rewrite reverse_lookup in Hv by len.
    replace (length (map negate (source_rows nusp (rows ups) 0 (p2 + 1))) - S p2)%nat
      with 0%nat in Hv by len.
    unfold source_rows, Np.window in Hv. rewrite Hrows in Hv. cbn in Hv.
    replace (p2 + 1)%nat with (S p2) in Hv by lia. cbn in Hv. congruence. }
  set (out := staggered_rows p2 q R nusp (rows ups) v) in *.
  rewrite (window_whole out), Hout.
  set (m := (p2 + 1)%nat). set (t := (q - 1)%nat).
  replace (2 * p2 + 2 * q + 2)%nat with (p2 + (m + (1 + (t + (1 + q)))))%nat by lia.
  rewrite !window_split. subst m t.
  replace (0 + p2)%nat with p2 by lia.
  replace (p2 + (p2 + 1))%nat with (2 * p2 + 1)%nat by lia.
  replace (2 * p2 + 1 + 1)%nat with (2 * p2 + 2)%nat by lia.
  replace (2 * p2 + 2 + (q - 1))%nat with (2 * p2 + q + 1)%nat by lia.
  replace (2 * p2 + q + 1 + 1)%nat with (2 * p2 + q + 2)%nat by lia.
  rewrite Hli, Him, Hlo, Hot, (window_single _ _ _ Hb), (window_single _ _ _ Hgap)
    by exact Hv.
  unfold source_rows, src, mirror. rewrite <- !window_map.
  rewrite !window_prefix, !window_suffix by len.
  rewrite !(firstn_map negate), !(skipn_map negate).
  replace (Z.to_nat (half_inner + 1)) with (p2 + 3)%nat by lia.
  replace (Z.to_nat (half_inner - 1)) with (p2 + 1)%nat by lia.
  now rewrite Hvv.
Qed.




(** ** Further properties of the conversion *)

Lemma wp_outcome {A} (m : run A) (w : world) (P : outcome A -> Prop) :
  wp m w P -> P (m w).
Proof. exact id. Qed.

Ltac array_raise He :=
  first [ apply reflect_centred_raises in He
        | apply flow_zeros_raises in He
        | apply flow_slice_raises in He
        | apply flow_assign_raises in He
        | apply flow_row_raises in He
        | apply flow_set_row_raises in He ].

Section ConversionMore.
Variable exmain : solver -> bool * solver.

(** X7: a conversion that fails on its precondition or inside an array
    operation has changed nothing: the solver's state is the one it was
    called with, and every access made was a read. *)
Theorem failure_before_solver_is_clean (w w' : world) (e : exn) :
  dnbot_to_dnull exmain w = Raise e w' ->
  e = AssertionError \/ array_error e ->
  st w' = st w /\
  exists k, trace w' = k ++ trace w /\ Forall (fun ev => exists a, ev = Get a) k.
Proof.
  intros Hrun Hkind. revert Hrun.
  apply (wp_outcome (dnbot_to_dnull exmain) w (fun o =>
    o = Raise e w' -> st w' = st w /\
    exists k, trace w' = k ++ trace w /\ Forall (fun ev => exists a, ev = Get a) k)).
  wp_run.
  all: intros Hrun; try discriminate Hrun.
  all: injection Hrun as <- <-; cbn [st trace].
  all: try (destruct Hkind as [Hkind|[Hkind|Hkind]]; discriminate Hkind).
  all: split; [reflexivity|].
  all: repeat (apply quiet_cons; [eexists; reflexivity|]); apply quiet_nil.
Qed.

(** X8: the local [afracs] is bound under the first test of [bbb.isimpon] and
    used under the second: with a solver step that leaves the flag alone
    the conversion never raises UnboundLocalError. *)
Theorem unbound_local_needs_flag_change (w w' : world) :
  preserves bbb_isimpon exmain ->
  dnbot_to_dnull exmain w <> Raise UnboundLocalError w'.
Proof.
  intros Hkeep.
  apply (wp_outcome (dnbot_to_dnull exmain) w (fun o => o <> Raise UnboundLocalError w')).
  wp_run.
  all: try discriminate.
  all: try (intros [= -> _];
            match goal with He : _ = Exc UnboundLocalError |- _ =>
              array_raise He; destruct He; discriminate
            end).
  all: match goal with
       | Hp : exmain _ = (true, _), H1 : (bbb_isimpon _ =? 2) = false,
         H2 : (bbb_isimpon _ =? 2) = true |- _ =>
           apply (preserved_by _ _ _ _ _ Hkeep) in Hp; cbn in Hp, H1, H2;
           rewrite Hp in H2; congruence
       end.
Qed.


(** X9: the eight cell-centred fields a completed conversion commits are the
    reflections of the fields it found, whatever the solver step did to
    them in between. *)
Theorem committed_centred_fields (w w' : world) :
  dnbot_to_dnull exmain w = Return tt w' ->
  let s := st w in
  let half_inner := fst (com_nxleg s) + fst (com_nxcore s) + 1 in
  let half_outer := snd (com_nxleg s) + snd (com_nxcore s) + 1 in
  reflect_centred (com_nx s) half_inner half_outer (bbb_nis s) = Val (bbb_nis (st w')) /\
  reflect_centred (com_nx s) half_inner half_outer (bbb_tes s) = Val (bbb_tes (st w')) /\
  reflect_centred (com_nx s) half_inner half_outer (bbb_tis s) = Val (bbb_tis (st w')) /\
  reflect_centred (com_nx s) half_inner half_outer (bbb_ngs s) = Val (bbb_ngs (st w')) /\
  reflect_centred (com_nx s) half_inner half_outer (bbb_phis s) = Val (bbb_phis (st w')) /\
  reflect_centred (com_nx s) half_inner half_outer (bbb_kye_use s)
    = Val (bbb_kye_use (st w')) /\
  reflect_centred (com_nx s) half_inner half_outer (bbb_kyi_use s)
    = Val (bbb_kyi_use (st w')) /\
  reflect_centred (com_nx s) half_inner half_outer (bbb_dif_use s)
    = Val (bbb_dif_use (st w')).
Proof.
  intros Hrun. wp_completed_run Hrun.
  all: injection Hrun as <-; cbv zeta; cbn [st].
  all: repeat split; assumption.
Qed.

(** X10: with the impurity flag at 2 and a solver step that leaves the flag
    alone, the impurity fraction committed is the reflection of the one
    found. *)
Theorem impurity_committed (w w' : world) :
  preserves bbb_isimpon exmain ->
  bbb_isimpon (st w) = 2 ->
  dnbot_to_dnull exmain w = Return tt w' ->
  let s := st w in
  reflect_centred (com_nx s)
    (fst (com_nxleg s) + fst (com_nxcore s) + 1)
    (snd (com_nxleg s) + snd (com_nxcore s) + 1) (bbb_afracs s)
  = Val (bbb_afracs (st w')).
Proof.
  intros Hkeep Hon Hrun. wp_completed_run Hrun.
  all: injection Hrun as <-; cbv zeta; cbn [st].
  all: try match goal with
         | Hb : (bbb_isimpon _ =? 2) = false |- _ =>
             first [ rewrite Hon in Hb; discriminate Hb
                   | match goal with Hp : exmain _ = (true, _) |- _ =>
                       apply (preserved_by _ _ _ _ _ Hkeep) in Hp; cbn in Hp, Hb;
                       rewrite Hp, Hon in Hb; discriminate Hb
                     end ]
         end.
  all: match goal with Hs : Some _ = Some _ |- _ => injection Hs as <- end.
  all: assumption.
Qed.

(** X11: the solver step of a completed conversion ran exactly on the state
    found with the nine switches set: the fields were still the
    half-domain ones, the geometry was already "dnull", a new geometry
    was requested with a restart, and tolerance and time step were 1e10
    and 1e-6.  The request for a new geometry is withdrawn afterwards. *)
Theorem regeneration_request (w w' : world) :
  dnbot_to_dnull exmain w = Return tt w' ->
  let s0 := regeneration_state (st w) in
  (exists s_regenerated, exmain s0 = (true, s_regenerated)) /\
  com_geometry s0 = "dnull"%string /\
  (com_nxomit s0, bbb_isfixlb s0, com_isudsym s0) = (0, 0, 0) /\
  (bbb_restart s0, bbb_newgeo s0, bbb_icntnunk s0) = (1, 1, 0) /\
  (bbb_ftol s0, bbb_dtreal s0) = (ftol_loose, dtreal_step) /\
  (bbb_nis s0, bbb_ups s0, bbb_tes s0, bbb_tis s0, bbb_ngs s0)
    = (bbb_nis (st w), bbb_ups (st w), bbb_tes (st w), bbb_tis (st w), bbb_ngs (st w)) /\
  bbb_newgeo (st w') = 0.
Proof.
  intros Hrun. wp_completed_run Hrun.
  all: injection Hrun as <-; cbv zeta.
  all: split; [eexists; eassumption|repeat split].
Qed.

Section Phases.
Context {E : Type} (Pa Pb : E -> Prop).


Lemma phases_start (x : E) (l tr : list E) :
  (exists k, l = k ++ tr /\ Forall Pb k) ->
  exists after before,
    x :: l = after ++ x :: before ++ tr /\ Forall Pa after /\ Forall Pb before.
Proof. intros (k & -> & Hk). now exists [], k. Qed.

Lemma phases_cons (e x : E) (l tr : list E) :
  Pa e ->
  (exists after before,
     l = after ++ x :: before ++ tr /\ Forall Pa after /\ Forall Pb before) ->
  exists after before,
    e :: l = after ++ x :: before ++ tr /\ Forall Pa after /\ Forall Pb before.
Proof.
  intros He (after & before & -> & Ha & Hb).
  exists (e :: after), before. repeat split; [|done]. now constructor.
Qed.
End Phases.

Ltac event_side :=
  repeat split;
  first [ discriminate
        | let a := fresh in let Ha := fresh in
          intros a Ha; first [discriminate Ha | injection Ha as <-; reflexivity] ].


(** X13: every field is read before the solver step and assigned after it, and
    the solver step is called once: the reflected arrays are built from
    the half-domain fields before the solver reallocates them. *)
Theorem fields_read_before_written_after (w w' : world) :
  dnbot_to_dnull exmain w = Return tt w' ->
  exists after before,
    trace w' = after ++ Exmain :: before ++ trace w /\
    Forall (fun ev => ev <> Exmain /\ forall a, ev = Get a -> is_field a = false) after /\
    Forall (fun ev => ev <> Exmain /\ forall a, ev = Put a -> is_field a = false) before.
Proof.
  intros Hrun. wp_completed_run Hrun.
  all: try match goal with Hn : None = Some _ |- _ => discriminate Hn end.
  all: injection Hrun as <-; cbn [trace].
  all: repeat (apply phases_cons; [event_side|]).
  all: apply phases_start.
  all: repeat (apply quiet_cons; [event_side|]); apply quiet_nil.
Qed.

(** A state that is not tagged "dnbot" is refused. *)
Lemma refused_without_tag (w : world) :
  contains "dnbot" (com_geometry (st w)) = false ->
  dnbot_to_dnull exmain w
  = Raise AssertionError (mk_world (st w) (Get Geometry :: trace w)).
Proof.
  intros Htag.
  apply (wp_outcome (dnbot_to_dnull exmain) w (fun o =>
    o = Raise AssertionError (mk_world (st w) (Get Geometry :: trace w)))).
  unfold dnbot_to_dnull. apply wp_get, wp_assert; intros Hc.
  - congruence.
  - reflexivity.
Qed.

(** X14: the conversion cannot be applied twice: after a completed conversion
    whose solver step left the geometry tag alone, a second call fails on
    the precondition and changes nothing. *)
Theorem conversion_not_repeatable (w w' : world) :
  preserves com_geometry exmain ->
  dnbot_to_dnull exmain w = Return tt w' ->
  dnbot_to_dnull exmain w'
  = Raise AssertionError (mk_world (st w') (Get Geometry :: trace w')).
Proof.
  intros Hkeep Hrun. apply refused_without_tag.
  wp_completed_run Hrun.
  all: injection Hrun as <-.
  all: match goal with Hp : exmain _ = (true, _) |- _ =>
         apply (preserved_by _ _ _ _ _ Hkeep) in Hp; cbn in Hp |- *; now rewrite Hp
       end.
Qed.


(** X15: on a half-domain state the conversion runs to completion whenever the
    solver step does on the state prepared for it and leaves the impurity
    flag alone: every array operation is accepted. *)
Theorem conversion_completes (s : solver) (tr : list event) :
  half_domain s ->
  fst (exmain (regeneration_state s)) = true ->
  preserves bbb_isimpon exmain ->
  exists w', dnbot_to_dnull exmain (mk_world s tr) = Return tt w'.
Proof.
  intros (Htag & Hi2 & [? ?] & [? ?] & [? ?] & [? ?] & [? ?] & [? ?] & [? ?] & [? ?]
          & Hafr & [Hups _] & Hfits) Hok Hkeep.
  destruct (reflect_staggered_accepts _ _ _ _ _ _ Hups Hi2 Hfits) as (v & _ & Hacc).
  rewrite reflect_staggered_steps in Hacc.
  apply (f_equal (fun r => match r with Val _ => true | Exc _ => false end)) in Hacc.
  cbv beta iota in Hacc.
  unfold regeneration_state in Hok.
  apply (wp_outcome (dnbot_to_dnull exmain) (mk_world s tr)
           (fun o => exists w', o = Return tt w')).
  wp_run.
  all: lazymatch goal with
       | |- exists w', Return _ _ = Return _ w' => eexists; reflexivity
       | |- exists w', Raise AssertionError _ = _ =>
           match goal with Hc : contains _ _ = false |- _ =>
             rewrite Htag in Hc; discriminate Hc end
       | |- exists w', Raise SolverError _ = _ =>
           match goal with Hp : exmain _ = (false, _) |- _ =>
             cbn [st] in Hp; rewrite Hp in Hok; discriminate Hok end
       | |- exists w', Raise UnboundLocalError _ = _ =>
           match goal with
           | Hn : Some _ = None |- _ => discriminate Hn
           | Hp : exmain _ = (true, _), H1 : (bbb_isimpon _ =? 2) = false,
             H2 : (bbb_isimpon _ =? 2) = true |- _ =>
               apply (preserved_by _ _ _ _ _ Hkeep) in Hp; cbn in Hp, H1, H2;
               rewrite Hp in H2; rewrite H1 in H2; discriminate H2
           end
       | |- exists w', Raise _ _ = _ => idtac
       | _ => try match goal with Hn : None = Some _ |- _ => discriminate Hn end
       end.
  all: try match goal with
         | Hb : (bbb_isimpon _ =? 2) = true |- _ =>
             apply Z.eqb_eq in Hb; apply Hafr in Hb as [? ?]
         end.
  all: try match goal with
         | He : reflect_centred _ _ _ _ = Exc _ |- _ =>
             rewrite reflect_centred_accepts in He by assumption; discriminate He
         end.
  all: repeat match goal with
         | Hx : ?r = Val ?x, Hy : ?r = Val ?y |- _ =>
             rewrite Hx in Hy; injection Hy as <-
         end.
  all: try match goal with
         | Hx : ?r = Val _, Hy : ?r = Exc _ |- _ => rewrite Hx in Hy; discriminate Hy
         end.
  all: repeat (match goal with
               | Hs : ?r = Val _ |- _ =>
                   lazymatch type of Hacc with context [r] => rewrite Hs in Hacc end
               end; rewrite ?res_bind_val in Hacc; cbv beta in Hacc).
  all: match goal with
       | Hs : ?r = Exc _ |- _ =>
           lazymatch type of Hacc with context [r] => rewrite Hs in Hacc end
       end.
  all: discriminate Hacc.
Qed.

End ConversionMore.

(** * Properties of [plotvar] *)

Lemma arange_length (n : Z) : length (arange 0 n) = Z.to_nat n.
Proof. unfold arange. rewrite length_map, length_seq. f_equal. lia. Qed.

Lemma arange_lookup (n : Z) (i : nat) :
  (i < Z.to_nat n)%nat -> arange 0 n !! i = Some (Z.of_nat i).
Proof.
  intros Hi. unfold arange. change (map ?f ?l) with (f <$> l).
  rewrite list_lookup_fmap, lookup_seq_lt by lia. done.
Qed.

Lemma arange_elem (n x : Z) : x ∈ arange 0 n <-> 0 <= x < n.
Proof.
  unfold arange. change (map ?f ?l) with (f <$> l).
  rewrite list_elem_of_fmap. split.
  - intros (k & -> & Hk). apply elem_of_seq in Hk. lia.
  - intros Hx. exists (Z.to_nat x). split; [lia|]. apply elem_of_seq. lia.
Qed.

Lemma arange_NoDup (n : Z) : NoDup (arange 0 n).
Proof.
  unfold arange. change (map ?f ?l) with (f <$> l).
  apply NoDup_fmap_2; [|apply NoDup_seq]. intros a b. lia.
Qed.

(** ** Loops *)

(** A loop whose body appends one element per iteration. *)
Lemma for_each_collect {B} (f : Z -> res B) (xs : list Z) (acc r : list B) :
  for_each xs (fun x acc => b ← f x; Val (acc ++ [b])) acc = Val r ->
  exists bs, r = acc ++ bs /\ Forall2 (fun x b => f x = Val b) xs bs.
Proof.
  revert acc. induction xs as [|x xs IH]; intros acc Hrun; cbn in Hrun.
  - injection Hrun as <-. exists []. split; [now rewrite app_nil_r | constructor].
  - destruct (f x) as [b|] eqn:Hb; [|done]. cbn in Hrun.
    destruct (IH _ Hrun) as (bs & -> & Hbs).
    exists (b :: bs). split; [now rewrite <- app_assoc | now constructor].
Qed.

Lemma for_each_collect_rows {B} (g : Z -> Z -> res B) (xs ys : list Z)
    (acc r : list B) :
  for_each ys (fun y acc =>
    for_each xs (fun x acc => b ← g x y; Val (acc ++ [b])) acc) acc = Val r ->
  exists bss,
    r = acc ++ concat bss /\
    Forall2 (fun y bs => Forall2 (fun x b => g x y = Val b) xs bs) ys bss.
Proof.
  revert acc. induction ys as [|y ys IH]; intros acc Hrun; cbn in Hrun.
  - injection Hrun as <-. exists []. split; [now rewrite app_nil_r | constructor].
  - destruct (for_each xs _ acc) as [acc'|] eqn:Hrow; [|done]. cbn in Hrun.
    apply (for_each_collect (fun x => g x y)) in Hrow as (bs & -> & Hbs).
    destruct (IH _ Hrun) as (bss & -> & Hbss).
    exists (bs :: bss). split; [cbn; now rewrite <- app_assoc | now constructor].
Qed.

Lemma concat_lookup_uniform {B} (W : nat) (bss : list (list B)) (i j : nat) :
  Forall (fun bs => length bs = W) bss -> (i < W)%nat ->
  concat bss !! (i + W * j)%nat = bss !! j ≫= (.!! i).
Proof.
  intros Hall Hi. revert j. induction Hall as [|bs bss Hbs _ IH]; intros j.
  - now rewrite !lookup_nil.
  - destruct j as [|j]; cbn [concat].
    + rewrite Nat.mul_0_r, Nat.add_0_r. cbn.
      apply lookup_app_l. lia.
    + rewrite lookup_app_r by lia. cbn.
      rewrite <- IH. f_equal. lia.
Qed.

(** A loop whose body stores one value per iteration, at distinct
    positions. *)
Lemma for_each_store (f : Z -> res Q) (key : Z -> Z) (xs : list Z) (vals r : list Q) :
  for_each xs (fun x vals =>
    v ← f x; or_raise IndexError (Np.setitem (key x) v vals)) vals = Val r ->
  (forall x, x ∈ xs -> 0 <= key x) ->
  (forall x x', x ∈ xs -> x' ∈ xs -> key x = key x' -> x = x') ->
  NoDup xs ->
  length r = length vals /\
  (forall x, x ∈ xs -> exists v, f x = Val v /\ r !! Z.to_nat (key x) = Some v) /\
  (forall j, (forall x, x ∈ xs -> Z.to_nat (key x) <> j) -> r !! j = vals !! j).
Proof.
  revert vals. induction xs as [|x xs IH]; intros vals Hrun Hpos Hinj Hnd; cbn in Hrun.
  - injection Hrun as <-. split; [done|]. split; [|done].
    intros x Hx. now apply elem_of_nil in Hx.
  - destruct (f x) as [v|] eqn:Hv; [|done]. cbn in Hrun.
    destruct (Np.setitem (key x) v vals) as [vals1|] eqn:Hset; [|done]. cbn in Hrun.
    apply NoDup_cons in Hnd as [Hx Hnd].
    destruct (IH _ Hrun) as (Hlen & Hin & Hout).
    { intros; apply Hpos; now right. }
    { intros; apply Hinj; (now right) || done. }
    { done. }
    unfold Np.setitem in Hset.
    destruct (Np.index (length vals) (key x)) as [k|] eqn:Hk; [|done].
    injection Hset as <-.
    apply index_Some in Hk as [Hk Hkx].
    assert (0 <= key x) as Hx0 by (apply Hpos; now left).
    destruct (Z.ltb_spec (key x) 0); [lia|].
    assert (k = Z.to_nat (key x)) as -> by lia.
    rewrite length_insert in Hlen. split; [done|]. split.
    + intros x' [->|Hx']%elem_of_cons.
      * exists v. split; [done|].
        rewrite Hout; [now apply list_lookup_insert_eq|].
        intros x' Hx' Heq. assert (key x' = key x) as Hkk.
        { assert (0 <= key x') by (apply Hpos; now right). lia. }
        apply Hinj in Hkk; [|now right|now left]. now subst.
      * now apply Hin.
    + intros j Hj. rewrite Hout by (intros; apply Hj; now right).
      apply list_lookup_insert_ne. apply Hj. now left.
Qed.

Lemma for_each_store_rows (f : Z -> Z -> res Q) (key : Z -> Z -> Z)
    (xs ys : list Z) (vals r : list Q) :
  for_each ys (fun y vals =>
    for_each xs (fun x vals =>
      v ← f x y; or_raise IndexError (Np.setitem (key x y) v vals)) vals) vals
  = Val r ->
  (forall x y, x ∈ xs -> y ∈ ys -> 0 <= key x y) ->
  (forall x y x' y', x ∈ xs -> y ∈ ys -> x' ∈ xs -> y' ∈ ys ->
     key x y = key x' y' -> x = x' /\ y = y') ->
  NoDup xs -> NoDup ys ->
  length r = length vals /\
  (forall x y, x ∈ xs -> y ∈ ys ->
     exists v, f x y = Val v /\ r !! Z.to_nat (key x y) = Some v) /\
  (forall j, (forall x y, x ∈ xs -> y ∈ ys -> Z.to_nat (key x y) <> j) ->
     r !! j = vals !! j).
Proof.
  intros Hrun Hpos Hinj Hndx. revert vals Hrun Hpos Hinj.
  induction ys as [|y ys IH]; intros vals Hrun Hpos Hinj Hndy; cbn in Hrun.
  - injection Hrun as <-. split; [done|]. split; [|done].
    intros x y _ Hy. now apply elem_of_nil in Hy.
  - destruct (for_each xs _ vals) as [vals1|] eqn:Hrow; [|done]. cbn in Hrun.
    apply NoDup_cons in Hndy as [Hy Hndy].
    apply (for_each_store (fun x => f x y) (fun x => key x y)) in Hrow
      as (Hlen1 & Hin1 & Hout1); [| |  |done].
    2: { intros; apply Hpos; [done|now left]. }
    2: { intros x x' Hx Hx' Heq.
         now apply (Hinj x y x' y) in Heq as [-> _]; [|done|left|done|left]. }
    destruct (IH _ Hrun) as (Hlen & Hin & Hout).
    { intros; apply Hpos; [done|now right]. }
    { intros ? ? ? ? ? ? ? ?; apply Hinj; (now right) || done. }
    { done. }
    split; [congruence|]. split.
    + intros x y' Hx [->|Hy']%elem_of_cons.
      * destruct (Hin1 x Hx) as (v & Hv & Hlook). exists v. split; [done|].
        rewrite Hout; [done|].
        intros x' y' Hx' Hy' Heq.
        assert (key x' y' = key x y) as Hkk.
        { assert (0 <= key x' y') by (apply Hpos; [done|now right]).
          assert (0 <= key x y) by (apply Hpos; [done|now left]). lia. }
        apply Hinj in Hkk as [_ ->]; [done|done|now right|done|now left].
      * now apply Hin.
    + intros j Hj. rewrite Hout by (intros; apply Hj; [done|now right]).
      apply Hout1. intros; apply Hj; [done|now left].
Qed.

Lemma concat_length_uniform {B} (W : nat) (bss : list (list B)) :
  Forall (fun bs => length bs = W) bss -> length (concat bss) = (W * length bss)%nat.
Proof.
  induction 1 as [|bs bss Hbs _ IH]; cbn; [lia|]. rewrite length_app, IH. lia.
Qed.

Lemma key_injective (W x y x' y' : Z) :
  0 <= x < W -> 0 <= x' < W -> x + W * y = x' + W * y' -> x = x' /\ y = y'.
Proof. intros Hx Hx' Heq. assert (y = y') by nia. subst. lia. Qed.

(** ** The two pairs of loops *)

(** The patches: one polygon per cell, cell [ix, iy] at position
    [ix + (nx + 2) * iy]. *)
Lemma mesh_patches_cells (s : solver) (m : com_mesh) (patches : list polygon) :
  mesh_patches s m = Val patches ->
  length patches = (Z.to_nat (com_nx s + 2) * Z.to_nat (com_ny s + 2))%nat /\
  forall ix iy, 0 <= ix < com_nx s + 2 -> 0 <= iy < com_ny s + 2 ->
    exists p, cell_polygon m ix iy = Val p /\
              patches !! Z.to_nat (ix + (com_nx s + 2) * iy) = Some p.
Proof.
  unfold mesh_patches. intros Hrun.
  apply (for_each_collect_rows (fun ix iy => cell_polygon m ix iy)) in Hrun
    as (bss & -> & Hbss).
  rewrite app_nil_l.
  assert (Hall : Forall (fun bs => length bs = Z.to_nat (com_nx s + 2)) bss).
  { apply Forall_forall. intros bs Hbs.
    apply list_elem_of_lookup in Hbs as [j Hj].
    destruct (Forall2_lookup_r _ _ _ _ _ Hbss Hj) as (y & _ & Hrow).
    apply Forall2_length in Hrow. now rewrite arange_length in Hrow. }
  split.
  - rewrite (concat_length_uniform _ _ Hall).
    apply Forall2_length in Hbss. rewrite arange_length in Hbss. now rewrite <- Hbss.
  - intros ix iy Hix Hiy.
    replace (Z.to_nat (ix + (com_nx s + 2) * iy))
      with (Z.to_nat ix + Z.to_nat (com_nx s + 2) * Z.to_nat iy)%nat by nia.
    rewrite (concat_lookup_uniform _ _ _ _ Hall) by lia.
    destruct (Forall2_lookup_l _ _ _ (Z.to_nat iy) iy Hbss) as (bs & Hbs & Hrow).
    { rewrite arange_lookup by lia. f_equal. lia. }
    destruct (Forall2_lookup_l _ _ _ (Z.to_nat ix) ix Hrow) as (p & Hp & Hcell).
    { rewrite arange_lookup by lia. f_equal. lia. }
    exists p. split; [done|]. rewrite Hbs. exact Hp.
Qed.

(** The values: one per cell, the value of cell [ix, iy] at position
    [ix + (nx + 2) * iy]. *)
Lemma cell_values_cells (s : solver) (var : list (list Q)) (vals : list Q) :
  cell_values s var = Val vals ->
  length vals = Z.to_nat ((com_nx s + 2) * (com_ny s + 2)) /\
  forall ix iy, 0 <= ix < com_nx s + 2 -> 0 <= iy < com_ny s + 2 ->
    exists v, item2 ix iy var = Val v /\
              vals !! Z.to_nat (ix + (com_nx s + 2) * iy) = Some v.
Proof.
  unfold cell_values, zeros1. intros Hrun.
  destruct (Z.ltb_spec ((com_nx s + 2) * (com_ny s + 2)) 0); [done|].
  rewrite res_bind_val in Hrun.
  apply (for_each_store_rows (fun ix iy => item2 ix iy var)
           (fun ix iy => ix + (com_nx s + 2) * iy)) in Hrun
    as (Hlen & Hin & _).
  - rewrite length_replicate in Hlen. split; [done|].
    intros ix iy Hix Hiy. apply Hin; now apply arange_elem.
  - intros x y Hx%arange_elem Hy%arange_elem. nia.
  - intros x y x' y' Hx%arange_elem _ Hx'%arange_elem _.
    now apply key_injective.
  - apply arange_NoDup.
  - apply arange_NoDup.
Qed.

(** ** The plot *)

(** X16: every polygon is coloured by the value of its own cell: in a plot
    that is made, the collection holds one polygon and the array one
    value for every cell of the mesh, those of cell [ix, iy] both at
    position [ix + (nx + 2) * iy]. *)
Theorem plotvar_cell_alignment (s : solver) (m : com_mesh) (var : list (list Q))
    (iso : bool) (title : string) (show : bool) (axis : option nat)
    (cmap : option string) (log : bool) (drawn : axes) (calls : list call) :
  plotvar s m var iso title show axis cmap log = Val (drawn, calls) ->
  exists patches vals rest,
    calls = PatchCollection patches log :: Set_array vals :: rest /\
    length patches = (Z.to_nat (com_nx s + 2) * Z.to_nat (com_ny s + 2))%nat /\
    length vals = Z.to_nat ((com_nx s + 2) * (com_ny s + 2)) /\
    forall ix iy, 0 <= ix < com_nx s + 2 -> 0 <= iy < com_ny s + 2 ->
      exists v p,
        item2 ix iy var = Val v /\ cell_polygon m ix iy = Val p /\
        vals !! Z.to_nat (ix + (com_nx s + 2) * iy) = Some v /\
        patches !! Z.to_nat (ix + (com_nx s + 2) * iy) = Some p.
Proof.
  unfold plotvar. intros Hrun.
  destruct (mesh_patches s m) as [patches|] eqn:Hp; [|done].
  destruct (cell_values s var) as [vals|] eqn:Hv; [|done].
  rewrite !res_bind_val in Hrun.
  apply mesh_patches_cells in Hp as [Hplen Hpcell].
  apply cell_values_cells in Hv as [Hvlen Hvcell].
  exists patches, vals.
  destruct axis; injection Hrun as <- <-; eexists; (split; [reflexivity|]).
  all: repeat split; try done.
  all: intros ix iy Hix Hiy.
  all: destruct (Hpcell ix iy Hix Hiy) as (p & ? & ?).
  all: destruct (Hvcell ix iy Hix Hiy) as (v & ? & ?).
  all: now exists v, p.
Qed.






Lemma for_each_ext {S} (xs : list Z) (body body' : Z -> S -> res S) (s : S) :
  (forall x s, x ∈ xs -> body x s = body' x s) ->
  for_each xs body s = for_each xs body' s.
Proof.
  revert s. induction xs as [|x xs IH]; intros s Hsame; [done|]. cbn.
  rewrite Hsame by now left. destruct (body' x s); [|done]. cbn.
  apply IH. intros; apply Hsame. now right.
Qed.

(** X19: only the entries [var[ix, iy]] with [0 <= ix < nx + 2] and
    [0 <= iy < ny + 2] are read: fields that agree there give the same
    plot, whatever else they hold. *)
Theorem plotvar_reads_mesh_cells_only (s : solver) (m : com_mesh)
    (var var' : list (list Q)) (iso : bool) (title : string) (show : bool)
    (axis : option nat) (cmap : option string) (log : bool) :
  (forall ix iy, 0 <= ix < com_nx s + 2 -> 0 <= iy < com_ny s + 2 ->
     item2 ix iy var' = item2 ix iy var) ->
  plotvar s m var' iso title show axis cmap log
  = plotvar s m var iso title show axis cmap log.
Proof.
  intros Hsame. unfold plotvar.
  assert (cell_values s var' = cell_values s var) as ->; [|done].
  unfold cell_values. destruct (zeros1 _) as [vals|]; [|done]. rewrite !res_bind_val.
  apply for_each_ext. intros iy vals1 Hiy%arange_elem.
  apply for_each_ext. intros ix vals2 Hix%arange_elem.
  now rewrite Hsame.
Qed.








Lemma for_each_total {S} (I : S -> Prop) (xs : list Z) (body : Z -> S -> res S) (s : S) :
  I s ->
  (forall x s, x ∈ xs -> I s -> exists s', body x s = Val s' /\ I s') ->
  exists s', for_each xs body s = Val s' /\ I s'.
Proof.
  revert s. induction xs as [|x xs IH]; intros s Hs Hbody; [now exists s|].
  cbn. destruct (Hbody x s) as (s1 & -> & Hs1); [now left|done|].
  rewrite res_bind_val. apply IH; [done|]. intros; apply Hbody; [now right|done].
Qed.

Lemma item2_covered {A} (i j : Z) (a : list (list A)) (n k : Z) :
  n <= Z.of_nat (length a) -> Forall (fun col => k <= Z.of_nat (length col)) a ->
  0 <= i < n -> 0 <= j < k ->
  exists row x, a !! Z.to_nat i = Some row /\ row !! Z.to_nat j = Some x /\
                item2 i j a = Val x.
Proof.
  intros Hn Hcols Hi Hj.
  destruct (lookup_lt_is_Some_2 a (Z.to_nat i)) as [row Hrow]; [lia|].
  pose proof (Forall_lookup_1 _ _ _ _ Hcols Hrow) as Hlen. cbn in Hlen.
  destruct (lookup_lt_is_Some_2 row (Z.to_nat j)) as [x Hx]; [lia|].
  exists row, x. repeat split; try done.
  unfold item2. rewrite getitem_inside, Hrow by lia. cbn.
  rewrite getitem_inside, Hx by lia. done.
Qed.

Lemma pick_covered (cell : list Q) :
  (5 <= length cell)%nat -> exists l, pick [1; 2; 4; 3] cell = Val l.
Proof.
  intros Hlen. cbn [pick].
  destruct (lookup_lt_is_Some_2 cell 1) as [c1 H1]; [lia|].
  destruct (lookup_lt_is_Some_2 cell 2) as [c2 H2]; [lia|].
  destruct (lookup_lt_is_Some_2 cell 3) as [c3 H3]; [lia|].
  destruct (lookup_lt_is_Some_2 cell 4) as [c4 H4]; [lia|].
  rewrite !getitem_inside by lia.
  change (Z.to_nat 1) with 1%nat. change (Z.to_nat 2) with 2%nat.
  change (Z.to_nat 3) with 3%nat. change (Z.to_nat 4) with 4%nat.
  rewrite H1, H2, H3, H4. cbn. eauto.
Qed.

Lemma cell_polygon_covered (s : solver) (m : com_mesh) (ix iy : Z) :
  mesh_covers s (com_rm m) -> mesh_covers s (com_zm m) ->
  0 <= ix < com_nx s + 2 -> 0 <= iy < com_ny s + 2 ->
  exists p, cell_polygon m ix iy = Val p.
Proof.
  intros [Hrn Hrc] [Hzn Hzc] Hix Hiy. unfold cell_polygon.
  destruct (item2_covered ix iy (com_rm m) _ (com_ny s + 2) Hrn)
    as (rcol & rcell & Hr1 & Hr2 & ->);
    [eapply Forall_impl; [exact Hrc|]; now intros ? [? _] | done | done |].
  rewrite res_bind_val.
  destruct (pick_covered rcell) as [rl ->].
  { pose proof (Forall_lookup_1 _ _ _ _ Hrc Hr1) as [_ Hcells].
    exact (Forall_lookup_1 _ _ _ _ Hcells Hr2). }
  rewrite res_bind_val.
  destruct (item2_covered ix iy (com_zm m) _ (com_ny s + 2) Hzn)
    as (zcol & zcell & Hz1 & Hz2 & ->);
    [eapply Forall_impl; [exact Hzc|]; now intros ? [? _] | done | done |].
  rewrite res_bind_val.
  destruct (pick_covered zcell) as [zl ->].
  { pose proof (Forall_lookup_1 _ _ _ _ Hzc Hz1) as [_ Hcells].
    exact (Forall_lookup_1 _ _ _ _ Hcells Hz2). }
  rewrite res_bind_val. eauto.
Qed.

(** X21: with a geometry and a field that cover the mesh the plot is made: the
    axis returned is the one passed in, or a new one when none was, and
    the collection is added to it. *)
Theorem plotvar_completes (s : solver) (m : com_mesh) (var : list (list Q))
    (iso : bool) (title : string) (show : bool) (axis : option nat)
    (cmap : option string) (log : bool) :
  0 <= com_nx s + 2 -> 0 <= com_ny s + 2 ->
  mesh_covers s (com_rm m) -> mesh_covers s (com_zm m) -> field_covers s var ->
  exists calls,
    plotvar s m var iso title show axis cmap log
    = Val (match axis with Some h => Given h | None => Created end, calls) /\
    Add_collection ∈ calls /\
    (Plt_subplots ∈ calls <-> axis = None) /\
    (Plt_show ∈ calls <-> show = true).
Proof.
  intros Hnx Hny Hrm Hzm [Hvn Hvc]. unfold plotvar.
  assert (exists patches, mesh_patches s m = Val patches) as [patches ->].
  { unfold mesh_patches.
    destruct (for_each_total (fun _ => True) (arange 0 (com_ny s + 2))
                (fun iy patches =>
                   for_each (arange 0 (com_nx s + 2)) (fun ix patches =>
                     polygon ← cell_polygon m ix iy; Val (patches ++ [polygon])) patches)
                []) as (r & Hr & _); [done| |eauto].
    intros iy acc Hiy%arange_elem _.
    apply (for_each_total (fun _ => True)); [done|].
    intros ix acc' Hix%arange_elem _.
    destruct (cell_polygon_covered s m ix iy) as [p ->]; try done.
    rewrite res_bind_val. eauto. }
  assert (exists vals, cell_values s var = Val vals) as [vals ->].
  { unfold cell_values, zeros1.
    destruct (Z.ltb_spec ((com_nx s + 2) * (com_ny s + 2)) 0); [nia|].
    rewrite res_bind_val.
    set (N := Z.to_nat ((com_nx s + 2) * (com_ny s + 2))).
    destruct (for_each_total (fun vals => length vals = N) (arange 0 (com_ny s + 2))
                (fun iy vals =>
                   for_each (arange 0 (com_nx s + 2)) (fun ix vals =>
                     let k := ix + (com_nx s + 2) * iy in
                     v ← item2 ix iy var;
                     or_raise IndexError (Np.setitem k v vals)) vals)
                (replicate N 0%Q)) as (r & Hr & _);
      [apply length_replicate| |eauto].
    intros iy acc Hiy%arange_elem Hacc.
    apply (for_each_total (fun vals => length vals = N)); [done|].
    intros ix acc' Hix%arange_elem Hacc'. cbv zeta.
    destruct (item2_covered ix iy var _ (com_ny s + 2) Hvn Hvc) as (? & v & _ & _ & ->);
      [done..|].
    rewrite res_bind_val, setitem_inside by (rewrite Hacc'; unfold N; nia).
    cbn. eexists; split; [reflexivity|]. now rewrite length_insert. }
  rewrite !res_bind_val.
  destruct axis as [h|], iso, show; eexists; (split; [reflexivity|]); cbn [app].
  all: split; [repeat first [apply list_elem_of_here | apply list_elem_of_further]|].
  all: split; split; intros Hin; try reflexivity; try discriminate Hin.
  all: try (repeat (apply elem_of_cons in Hin as [Hin|Hin]; [discriminate Hin|]);
            now apply elem_of_nil in Hin).
  all: repeat first [apply list_elem_of_here | apply list_elem_of_further].
Qed.

(** ** The further properties on the sample data *)

Lemma reflect_centred_layout_sample :
  let F := sample_plane [1; 2; 3; 4; 5; 6] in
  reflect_centred 4 3 3 F
  = Val (mk_ndarray (trailing F)
           (take (Z.to_nat (3 - 1)) (rows F)
            ++ reverse (take (Z.to_nat (3 - 1)) (rows F))
            ++ reverse (drop (Z.to_nat (3 + 1)) (rows F))
            ++ drop (Z.to_nat (3 + 1)) (rows F))).
Proof.
  apply (reflect_centred_layout 4 3 3 (sample_plane [1; 2; 3; 4; 5; 6]));
    [exact sample_consistent | discriminate].
Defined.

Lemma reflect_centred_symmetric_sample :
  exists G,
    reflect_centred 4 3 3 (sample_plane [1; 2; 3; 4; 5; 6]) = Val G /\
    (forall i, 0 <= i < full_inner 3 ->
       Np.getitem i (rows G) = Np.getitem (full_inner 3 - 1 - i) (rows G)) /\
    (forall j, 0 <= j < full_outer 3 ->
       Np.getitem (full_inner 3 + j) (rows G)
       = Np.getitem (full_inner 3 + full_outer 3 - 1 - j) (rows G)).
Proof.
  eexists; split; [vm_compute; reflexivity|].
  apply (reflect_centred_symmetric 4 3 3 (sample_plane [1; 2; 3; 4; 5; 6]));
    [exact sample_consistent | vm_compute; reflexivity].
Defined.

Lemma reflect_centred_ignores_midplane_sample :
  reflect_centred 4 3 3 (sample_plane [1; 2; 8; 9; 5; 6])
  = reflect_centred 4 3 3 (sample_plane [1; 2; 3; 4; 5; 6]).
Proof.
  apply (reflect_centred_ignores_midplane 4 3 3
           (sample_plane [1; 2; 3; 4; 5; 6]) (sample_plane [1; 2; 8; 9; 5; 6])).
  - exact sample_consistent.
  - discriminate.
  - reflexivity.
  - reflexivity.
  - intros i H2 H3.
    destruct i as [|[|[|[|[|[|i]]]]]]; try reflexivity; exfalso; lia.
Defined.

Lemma reflect_centred_rejects_sample :
  reflect_centred 5 3 3 (sample_plane [1; 2; 3; 4; 5; 6]) = Exc ValueError.
Proof.
  apply (reflect_centred_rejects 5 3 3 (sample_plane [1; 2; 3; 4; 5; 6])).
  - discriminate.
  - lia.
  - lia.
  - cbn. lia.
  - unfold consistent. cbn. lia.
Defined.

Lemma reflect_staggered_layout_sample :
  let ups := sample_flow [1; 2; 3; 4; 5; 6] in
  let src := map (crop 1) (rows ups) in
  exists first,
    head src = Some first /\
    reflect_staggered 4 1 3 3 ups 1
    = Val (mk_ndarray [Z.to_nat (1 + 2); Z.to_nat 1]
             (take (Z.to_nat (3 - 2)) src
              ++ reverse (map negate (take (Z.to_nat (3 - 1)) src))
              ++ [negate first]
              ++ drop 1 (reverse (map negate (drop (Z.to_nat (3 + 1)) src)))
              ++ [zeros [Z.to_nat (1 + 2); Z.to_nat 1]]
              ++ drop (Z.to_nat (3 + 1)) src)).
Proof.
  exact (reflect_staggered_layout 4 1 3 3 (sample_flow [1; 2; 3; 4; 5; 6]) 1
           sample_consistent ltac:(lia) ltac:(lia) sample_flow_fits).
Defined.



Lemma failure_before_solver_is_clean_sample :
  let w := sample_world "dnull" 0 1 in
  let w' := mk_world (sample_solver "dnull" 0 1) [Get Geometry] in
  dnbot_to_dnull exmain_idle w = Raise AssertionError w' /\
  st w' = st w /\
  exists k, trace w' = k ++ trace w /\ Forall (fun ev => exists a, ev = Get a) k.
Proof.
  split; [vm_compute; reflexivity|].
  apply (failure_before_solver_is_clean exmain_idle (sample_world "dnull" 0 1)
           (mk_world (sample_solver "dnull" 0 1) [Get Geometry]) AssertionError).
  - vm_compute. reflexivity.
  - left. reflexivity.
Defined.

Lemma unbound_local_needs_flag_change_sample :
  dnbot_to_dnull exmain_idle (sample_world "dnbot" 2 1)
  <> Raise UnboundLocalError (sample_world "dnbot" 2 1).
Proof.
  apply (unbound_local_needs_flag_change exmain_idle (sample_world "dnbot" 2 1)
           (sample_world "dnbot" 2 1)).
  apply exmain_idle_preserves.
Defined.

Lemma committed_centred_fields_sample :
  exists w',
    dnbot_to_dnull exmain_idle (sample_world "dnbot" 0 1) = Return tt w' /\
    reflect_centred 4 3 3 (sample_flow [1; 2; 3; 4; 5; 6]) = Val (bbb_nis (st w')) /\
    reflect_centred 4 3 3 (sample_plane [1; 2; 3; 4; 5; 6]) = Val (bbb_tes (st w')).
Proof.
  eexists; split; [vm_compute; reflexivity|].
  pose proof (committed_centred_fields exmain_idle (sample_world "dnbot" 0 1) _
                ltac:(vm_compute; reflexivity)) as (Hnis & Htes & _).
  split; [exact Hnis | exact Htes].
Defined.

Lemma impurity_committed_sample :
  exists w',
    dnbot_to_dnull exmain_idle (sample_world "dnbot" 2 1) = Return tt w' /\
    reflect_centred 4 3 3 (sample_plane [1; 2; 3; 4; 5; 6]) = Val (bbb_afracs (st w')).
Proof.
  eexists; split; [vm_compute; reflexivity|].
  refine (impurity_committed exmain_idle (sample_world "dnbot" 2 1) _
            (exmain_idle_preserves _) _ _).
  - reflexivity.
  - vm_compute. reflexivity.
Defined.

Lemma regeneration_request_sample :
  exists w',
    dnbot_to_dnull exmain_idle (sample_world "dnbot" 0 1) = Return tt w' /\
    (exists s_regenerated,
       exmain_idle (regeneration_state (sample_solver "dnbot" 0 1))
       = (true, s_regenerated)) /\
    com_geometry (regeneration_state (sample_solver "dnbot" 0 1)) = "dnull"%string /\
    bbb_newgeo (st w') = 0.
Proof.
  eexists; split; [vm_compute; reflexivity|].
  pose proof (regeneration_request exmain_idle (sample_world "dnbot" 0 1) _
                ltac:(vm_compute; reflexivity)) as (Hcall & Htag & _ & _ & _ & _ & Hnew).
  split; [exact Hcall|]. split; [exact Htag | exact Hnew].
Defined.


Lemma fields_read_before_written_after_sample :
  exists w',
    dnbot_to_dnull exmain_idle (sample_world "dnbot" 2 1) = Return tt w' /\
    exists after before,
      trace w' = after ++ Exmain :: before ++ [] /\
      Forall (fun ev => ev <> Exmain /\ forall a, ev = Get a -> is_field a = false)
        after /\
      Forall (fun ev => ev <> Exmain /\ forall a, ev = Put a -> is_field a = false)
        before.
Proof.
  eexists; split; [vm_compute; reflexivity|].
  apply (fields_read_before_written_after exmain_idle (sample_world "dnbot" 2 1)).
  vm_compute. reflexivity.
Defined.

Lemma conversion_not_repeatable_sample :
  exists w',
    dnbot_to_dnull exmain_idle (sample_world "dnbot" 0 1) = Return tt w' /\
    dnbot_to_dnull exmain_idle w'
    = Raise AssertionError (mk_world (st w') (Get Geometry :: trace w')).
Proof.
  eexists; split; [vm_compute; reflexivity|].
  apply (conversion_not_repeatable exmain_idle (sample_world "dnbot" 0 1)).
  - apply exmain_idle_preserves.
  - vm_compute. reflexivity.
Defined.

Lemma sample_half_domain (isimpon iflcore : Z) :
  half_domain (sample_solver "dnbot" isimpon iflcore).
Proof.
  assert (Hfit : forall A (F : ndarray A),
             length (rows F) = 6%nat -> trailing F <> [] ->
             extent_fits (sample_solver "dnbot" isimpon iflcore) F).
  { intros A F Hlen Hdim. split; [|exact Hdim].
    cbn. rewrite Hlen. exact sample_consistent. }
  unfold half_domain. split; [reflexivity|]. split; [cbn; lia|].
  do 8 (split; [apply Hfit; [reflexivity|discriminate]|]).
  split; [intros _; apply Hfit; [reflexivity|discriminate]|].
  split; [apply Hfit; [reflexivity|discriminate]|].
  exact sample_flow_fits.
Defined.

Lemma conversion_completes_sample :
  exists w', dnbot_to_dnull exmain_idle (sample_world "dnbot" 2 1) = Return tt w'.
Proof.
  apply (conversion_completes exmain_idle (sample_solver "dnbot" 2 1) []).
  - apply sample_half_domain.
  - reflexivity.
  - apply exmain_idle_preserves.
Defined.

Lemma plotvar_cell_alignment_sample :
  exists drawn calls patches vals rest,
    plotvar (sample_solver "dnbot" 0 1) sample_mesh sample_var
      false "UEDGE data" true None None false = Val (drawn, calls) /\
    calls = PatchCollection patches false :: Set_array vals :: rest /\
    length patches = (Z.to_nat (4 + 2) * Z.to_nat (1 + 2))%nat /\
    length vals = Z.to_nat ((4 + 2) * (1 + 2)) /\
    forall ix iy, 0 <= ix < 4 + 2 -> 0 <= iy < 1 + 2 ->
      exists v p,
        item2 ix iy sample_var = Val v /\ cell_polygon sample_mesh ix iy = Val p /\
        vals !! Z.to_nat (ix + (4 + 2) * iy) = Some v /\
        patches !! Z.to_nat (ix + (4 + 2) * iy) = Some p.
Proof.
  assert (exists drawn calls,
            plotvar (sample_solver "dnbot" 0 1) sample_mesh sample_var
              false "UEDGE data" true None None false = Val (drawn, calls))
    as (drawn & calls & Hrun) by (do 2 eexists; vm_compute; reflexivity).
  destruct (plotvar_cell_alignment _ _ _ _ _ _ _ _ _ _ _ Hrun)
    as (patches & vals & rest & Hcalls).
  exists drawn, calls, patches, vals, rest. split; [exact Hrun | exact Hcalls].
Defined.


Lemma plotvar_reads_mesh_cells_only_sample :
  plotvar (sample_solver "dnbot" 0 1) sample_mesh sample_var_padded
    false "UEDGE data" true None None false
  = plotvar (sample_solver "dnbot" 0 1) sample_mesh sample_var
      false "UEDGE data" true None None false.
Proof.
  apply (plotvar_reads_mesh_cells_only (sample_solver "dnbot" 0 1) sample_mesh
           sample_var sample_var_padded).
  intros ix iy Hix Hiy. cbn in Hix, Hiy.
  assert (ix = 0 \/ ix = 1 \/ ix = 2 \/ ix = 3 \/ ix = 4 \/ ix = 5) as Hx by lia.
  assert (iy = 0 \/ iy = 1 \/ iy = 2) as Hy by lia.
  destruct Hx as [->|[->|[->|[->|[->| ->]]]]], Hy as [->|[->| ->]]; reflexivity.
Defined.


Lemma plotvar_completes_sample :
  exists calls,
    plotvar (sample_solver "dnbot" 0 1) sample_mesh sample_var
      true "UEDGE data" false (Some 7%nat) None true
    = Val (Given 7, calls) /\
    Add_collection ∈ calls /\
    (Plt_subplots ∈ calls <-> Some 7%nat = None) /\
    (Plt_show ∈ calls <-> false = true).
Proof.
  apply (plotvar_completes (sample_solver "dnbot" 0 1) sample_mesh sample_var
           true "UEDGE data" false (Some 7%nat) None true).
  - cbn. lia.
  - cbn. lia.
  - unfold mesh_covers; cbn. split; [lia|]. repeat constructor; cbn; lia.
  - unfold mesh_covers; cbn. split; [lia|]. repeat constructor; cbn; lia.
  - unfold field_covers; cbn. split; [lia|]. repeat constructor; cbn; lia.
Defined.
